(** * ng-rforms: the nested-path accessor [NgRFModelSetterService]

    A shallow embedding of [src/ng-rforms/lib/model/model-setter.service.ts]
    (and of the two calls of it in the [rfModel] directive), together with the
    properties of the path engine: parsing, reading, writing with
    auto-vivification, and the array/object look-ahead rule.

    The host language is modelled as far as the service uses it, in two
    layers.

    The data:
    - strings are sequences of code units ([string]; code units up to 255);
    - a value is [undefined], [null], a boolean, a number, a string or a
      reference into a heap of objects;
    - an object is a plain object or an array, each with its own data
      properties kept in a [gmap string val]; an array has in addition its
      [length], and the index keys are the canonical decimal strings;
    - the service is compiled as an ES module, so assignments are strict;
    - evaluation is a state-and-exception monad over the heap and the
      console.
    The functions of module [JS] and the service functions [getValue],
    [setValue] and their helpers read and write the own properties of the
    data and call the built-in methods ([replace], [split], [pop], [reduce],
    [slice], [push]) as the host defines them; an own data property of the
    name of a method shadows it, as it does in the host.

    The realm: every value of the host also inherits the members of a
    prototype ([toString], [constructor], [__proto__], ...). The module
    [InRealm] is the service over values that may be built-in objects of
    the host: reads and writes go along the prototype chain, with the setter
    of [__proto__], the properties of functions that cannot be assigned, and
    what the program has put on built-in objects. The two layers do the
    same on every path whose steps name no inherited member
    ([getValue_agrees], [setValue_agrees]); the properties that depend on
    what a key finds are stated in the realm. *)

From Stdlib Require Import Ascii.
From stdpp Require Import gmap strings list pretty.

(** ** Strings: the built-ins used by [generatePathPieces] and [isArrayKey] *)

Module JSString.

(** [drop_units n s] is [s.substring(n)]. *)
Fixpoint drop_units (n : nat) (s : string) : string :=
  match n, s with
  | O, _ => s
  | S _, "" => ""
  | S k, String _ s' => drop_units k s'
  end.

(** [StringIndexOf] with the string cut at the first occurrence of [pat]:
    the part before it and the part after it; [None] when [pat] does not
    occur. *)
Fixpoint cut_first (pat s : string) : option (string * string) :=
  if String.prefix pat s then Some ("", drop_units (String.length pat) s)
  else match s with
       | "" => None
       | String c s' =>
           match cut_first pat s' with
           | Some (pre, post) => Some (String c pre, post)
           | None => None
           end
       end.

(** [GetSubstitution] for a string pattern: there are no captures, so only
    [$$], [$&], [$`] and [$'] are expanded; every other [$] is literal. *)
Fixpoint GetSubstitution (matched pre post repl : string) : string :=
  match repl with
  | "" => ""
  | String c r =>
      match r with
      | "" => String c ""
      | String d r' =>
          if Ascii.eqb c "$"%char then
            if Ascii.eqb d "$"%char then String "$"%char (GetSubstitution matched pre post r')
            else if Ascii.eqb d "&"%char then matched +:+ GetSubstitution matched pre post r'
            else if Ascii.eqb d "`"%char then pre +:+ GetSubstitution matched pre post r'
            else if Ascii.eqb d "'"%char then post +:+ GetSubstitution matched pre post r'
            else String c (GetSubstitution matched pre post r)
          else String c (GetSubstitution matched pre post r)
      end
  end.

(** [s.replace(pat, repl)] for a string [pat]: the first occurrence only. *)
Definition replace (pat repl s : string) : string :=
  match cut_first pat s with
  | None => s
  | Some (pre, post) => pre +:+ GetSubstitution pat pre post repl +:+ post
  end.

(** The pieces of [s] between the occurrences of a non-empty [sep]. [skip]
    counts the code units of a separator already matched that are still to
    be passed over. *)
Fixpoint split_go (sep : string) (skip : nat) (s : string) : list string :=
  match s with
  | "" => [""]
  | String c s' =>
      match skip with
      | S k => split_go sep k s'
      | O =>
          if String.prefix sep s
          then "" :: split_go sep (String.length sep - 1) s'
          else match split_go sep 0 s' with
               | p :: ps => String c p :: ps
               | [] => [String c ""]
               end
      end
  end.

Fixpoint code_units (s : string) : list string :=
  match s with
  | "" => []
  | String c s' => String c "" :: code_units s'
  end.

(** [s.split(sep)] for a string [sep] (no limit). An empty separator splits
    into code units, and the empty string then gives no piece at all. *)
Definition split (sep s : string) : list string :=
  match sep with
  | "" => code_units s
  | String _ _ => split_go sep 0 s
  end.

(** [arr.join(sep)] on strings, to state what [split] returns. *)
Fixpoint join (sep : string) (l : list string) : string :=
  match l with
  | [] => ""
  | [p] => p
  | p :: ps => p +:+ sep +:+ join sep ps
  end.

Definition is_white (c : ascii) : bool :=
  let n := Ascii.nat_of_ascii c in
  (Nat.leb 9 n && Nat.leb n 13) || Nat.eqb n 32 || Nat.eqb n 160.

Definition digit_of (c : ascii) : option Z :=
  let n := Ascii.nat_of_ascii c in
  if Nat.leb 48 n && Nat.leb n 57 then Some (Z.of_nat (n - 48)) else None.

Fixpoint trim_start (s : string) : string :=
  match s with
  | String c s' => if is_white c then trim_start s' else s
  | "" => ""
  end.

(** The value of the longest prefix of decimal digits, after [acc]. *)
Fixpoint digits_value (acc : Z) (s : string) : Z :=
  match s with
  | String c s' =>
      match digit_of c with
      | Some d => digits_value (10 * acc + d) s'
      | None => acc
      end
  | "" => acc
  end.

Definition starts_with_digit (s : string) : bool :=
  match s with
  | String c _ => bool_decide (is_Some (digit_of c))
  | "" => false
  end.

(** [parseInt(s, 10)]: leading white space, an optional sign, then the
    longest run of decimal digits; [None] is [NaN]. The host rounds the
    value to a double; only whether it is [NaN] is used here. *)
Definition parseInt10 (s : string) : option Z :=
  let t := trim_start s in
  let '(neg, body) :=
    match t with
    | String c t' =>
        if Ascii.eqb c "-"%char then (true, t')
        else if Ascii.eqb c "+"%char then (false, t')
        else (false, t)
    | "" => (false, t)
    end in
  if starts_with_digit body
  then Some (if neg : bool then - digits_value 0 body else digits_value 0 body)%Z
  else None.

End JSString.

(** ** Values, objects and the heap *)

(** Numbers: [NaN] and the integers. The service and the built-ins it calls
    observe of a number only whether it is zero or [NaN] and, when it is
    stored into the [length] of an array, which unsigned 32-bit integer it
    is, if any; fractions and infinities are not represented. *)
Inductive number :=
  | NaN
  | Int (z : Z).

(** A location is an index into the heap. *)
Abbreviation loc := nat (only parsing).

Inductive val :=
  | VUndef
  | VNull
  | VBool (b : bool)
  | VNum (n : number)
  | VStr (s : string)
  | VRef (l : loc).

#[global] Instance number_eq_dec : EqDecision number.
Proof. solve_decision. Defined.

#[global] Instance val_eq_dec : EqDecision val.
Proof. solve_decision. Defined.

(** A plain object, or an array with its [length]; both with their own data
    properties. The element of an array at index [i] is the property named
    [pretty i]; a missing one is a hole. *)
Inductive obj :=
  | Obj (ps : gmap string val)
  | Arr (len : N) (ps : gmap string val).

Inductive exn :=
  | TypeError
  | RangeError.

Inductive outcome (A : Type) :=
  | Ret (a : A)
  | Throw (e : exn).
Arguments Ret {A} a.
Arguments Throw {A} e.

(** The heap and what [console.error] has been given. *)
Record state := State { heap : list obj; console : list exn }.

Definition M (A : Type) : Type := state → outcome A * state.

Definition ret {A} (a : A) : M A := λ st, (Ret a, st).
Definition throw {A} (e : exn) : M A := λ st, (Throw e, st).
Definition bind {A B} (m : M A) (k : A → M B) : M B := λ st,
  match m st with
  | (Ret a, st') => k a st'
  | (Throw e, st') => (Throw e, st')
  end.

(** [try { body } catch (err) { handler }]: what [body] did to the state
    before it threw stays done. *)
Definition try_catch {A} (body : M A) (handler : exn → M A) : M A := λ st,
  match body st with
  | (Ret a, st') => (Ret a, st')
  | (Throw e, st') => handler e st'
  end.

Notation "'let*' x ':=' m 'in' k" := (bind m (λ x, k))
  (at level 10, x name, m at level 100, k at level 200).

Definition get_heap : M (list obj) := λ st, (Ret (heap st), st).
Definition put_heap (h : list obj) : M unit := λ st,
  (Ret tt, State h (console st)).
Definition console_error (e : exn) : M unit := λ st,
  (Ret tt, State (heap st) (console st ++ [e])).

(** A new object; its reference is the next free location. *)
Definition alloc (o : obj) : M val := λ st,
  (Ret (VRef (length (heap st))), State (heap st ++ [o]) (console st)).

(** What the host does to turn a string or an object into a number
    ([StringToNumber], and [ToPrimitive] followed by it). The service
    reaches them only when it assigns to the [length] of an array; they
    round to doubles and are left to the host. *)
Class Host := {
  StringToNumber : string → number;
  ObjectToNumber : list obj → loc → outcome number
}.

Module JS.

(** [ToBoolean]. *)
Definition truthy (v : val) : bool :=
  match v with
  | VUndef | VNull => false
  | VBool b => b
  | VNum NaN => false
  | VNum (Int z) => negb (Z.eqb z 0)
  | VStr s => negb (bool_decide (s = ""))
  | VRef _ => true
  end.

(** [a || b]. *)
Definition or (a b : val) : val := if truthy a then a else b.

(** [v == null]. *)
Definition eq_null (v : val) : bool :=
  match v with
  | VUndef | VNull => true
  | _ => false
  end.

(** The integer index a property key denotes when the key is its canonical
    decimal form. *)
Definition canonical_index (k : string) : option N :=
  let i := Z.to_N (JSString.digits_value 0 k) in
  if decide (pretty i = k) then Some i else None.

(** An array index is a canonical index below [2^32 - 1]. *)
Definition array_index (k : string) : option N :=
  match canonical_index k with
  | Some i => if decide (i < 2 ^ 32 - 1)%N then Some i else None
  | None => None
  end.

Fixpoint unit_at (n : nat) (s : string) : option ascii :=
  match s, n with
  | "", _ => None
  | String c _, O => Some c
  | String _ s', S k => unit_at k s'
  end.

(** [s[k]] on a string primitive, among its own properties: its [length]
    and its code units. *)
Definition string_prop (s k : string) : val :=
  if decide (k = "length") then VNum (Int (Z.of_nat (String.length s)))
  else match canonical_index k with
       | Some i =>
           match unit_at (N.to_nat i) s with
           | Some c => VStr (String c "")
           | None => VUndef
           end
       | None => VUndef
       end.

(** The own data properties of an object. *)
Definition own_props (o : obj) : gmap string val :=
  match o with
  | Obj ps => ps
  | Arr _ ps => ps
  end.

(** [o[k]] on an object of the heap, among its own properties. *)
Definition obj_prop (o : obj) (k : string) : val :=
  match o with
  | Obj ps => default VUndef (ps !! k)
  | Arr len ps =>
      if decide (k = "length") then VNum (Int (Z.of_N len))
      else default VUndef (ps !! k)
  end.

(** [o[k]] among the own properties of [o]: a [TypeError] on [undefined]
    and [null]. A reference outside the heap is not a value of the host; it
    is refused like [null]. What [o] inherits is added by [InRealm.get_prop],
    which is this function on every key that names no inherited member. *)
Definition get_prop (o : val) (k : string) : M val :=
  match o with
  | VUndef | VNull => throw TypeError
  | VBool _ | VNum _ => ret VUndef
  | VStr s => ret (string_prop s k)
  | VRef l =>
      let* h := get_heap in
      match h !! l with
      | Some ob => ret (obj_prop ob k)
      | None => throw TypeError
      end
  end.

Definition ToNumber `{Host} (h : list obj) (v : val) : outcome number :=
  match v with
  | VUndef => Ret NaN
  | VNull => Ret (Int 0)
  | VBool b => Ret (Int (if b then 1 else 0))
  | VNum n => Ret n
  | VStr s => Ret (StringToNumber s)
  | VRef l => ObjectToNumber h l
  end.

(** The number as an array length: [ToUint32(n)] when it equals [n]. *)
Definition uint32_of (n : number) : option N :=
  match n with
  | Int z => if decide (0 ≤ z < 2 ^ 32)%Z then Some (Z.to_N z) else None
  | NaN => None
  end.

Definition below (n : N) (k : string) : bool :=
  match array_index k with
  | Some i => bool_decide (i < n)%N
  | None => true
  end.

(** [ArraySetLength]: growing keeps the properties, shrinking deletes the
    elements from the new length on. *)
Definition ArraySetLength (len : N) (ps : gmap string val) (newLen : N) : obj :=
  if decide (len ≤ newLen)%N then Arr newLen ps
  else Arr newLen (filter (λ kv, below newLen kv.1 = true) ps).

(** [o[k] = v] in strict code, making or changing an own property: a
    [TypeError] on every primitive. Setters and properties that cannot be
    assigned are inherited: they are added by [InRealm.set_prop], which is
    this function on every key that names no inherited member. *)
Definition set_prop `{Host} (o : val) (k : string) (v : val) : M unit :=
  match o with
  | VRef l =>
      let* h := get_heap in
      match h !! l with
      | Some (Obj ps) => put_heap (<[l := Obj (<[k := v]> ps)]> h)
      | Some (Arr len ps) =>
          if decide (k = "length") then
            match ToNumber h v with
            | Ret n =>
                match uint32_of n with
                | Some newLen => put_heap (<[l := ArraySetLength len ps newLen]> h)
                | None => throw RangeError
                end
            | Throw e => throw e
            end
          else
            match array_index k with
            | Some i => put_heap (<[l := Arr (N.max len (i + 1)) (<[k := v]> ps)]> h)
            | None => put_heap (<[l := Arr len (<[k := v]> ps)]> h)
            end
      | None => throw TypeError
      end
  | _ => throw TypeError
  end.

(** [o.push(v)]: only an array has [push], and an own property named [push]
    shadows it with something that cannot be called. At the largest length
    the element is stored and the new length is refused. *)
Definition push (o : val) (v : val) : M val :=
  match o with
  | VRef l =>
      let* h := get_heap in
      match h !! l with
      | Some (Arr len ps) =>
          match ps !! "push" with
          | Some _ => throw TypeError
          | None =>
              if decide (len + 1 < 2 ^ 32)%N then
                let* _ := put_heap (<[l := Arr (len + 1) (<[pretty len := v]> ps)]> h) in
                ret (VNum (Int (Z.of_N (len + 1))))
              else
                let* _ := put_heap (<[l := Arr len (<[pretty len := v]> ps)]> h) in
                throw RangeError
          end
      | _ => throw TypeError
      end
  | _ => throw TypeError
  end.

(** [ArraySpeciesCreate] asks the array for its [constructor]: an own data
    property of that name that is neither [undefined] nor an object makes
    [slice] throw. *)
Definition species_ok (c : option val) : bool :=
  match c with
  | None | Some VUndef | Some (VRef _) => true
  | Some _ => false
  end.

(** The array [slice(-1)] builds from an array. *)
Definition last_slice (len : N) (ps : gmap string val) : obj :=
  if decide (len = 0)%N then Arr 0 ∅
  else match ps !! pretty (len - 1)%N with
       | Some x => Arr 1 {[ "0" := x ]}
       | None => Arr 1 ∅
       end.

Fixpoint last_unit (s : string) : string :=
  match s with
  | "" => ""
  | String c "" => s
  | String _ s' => last_unit s'
  end.

(** [o.slice(-1)]: a string gives the string of its last code unit, an array
    a new array of its last element; nothing else has [slice]. *)
Definition slice_last (o : val) : M val :=
  match o with
  | VStr s => ret (VStr (last_unit s))
  | VRef l =>
      let* h := get_heap in
      match h !! l with
      | Some (Arr len ps) =>
          match ps !! "slice" with
          | Some _ => throw TypeError
          | None =>
              if species_ok (ps !! "constructor") then alloc (last_slice len ps)
              else throw TypeError
          end
      | _ => throw TypeError
      end
  | _ => throw TypeError
  end.

(** [arr.pop()] on the array of steps: the array without its last element,
    and that element ([None] is [undefined]). *)
Definition pop (l : list string) : list string * option string :=
  (removelast l, last l).

(** [arr.reduce(f, init)]: [f] gets the accumulator, the element and its
    index (the array itself is the one [f] closes over). *)
Fixpoint reduce_from (f : val → string → nat → M val) (i : nat)
    (l : list string) (acc : val) : M val :=
  match l with
  | [] => ret acc
  | x :: l' => let* acc' := f acc x i in reduce_from f (S i) l' acc'
  end.

Definition reduce (f : val → string → nat → M val) (l : list string) (init : val) : M val :=
  reduce_from f 0 l init.

End JS.

(** ** The service [NgRFModelSetterService] *)

Import JS.

Definition default_separator : string := ".".

(** [path.replace('[', separator).replace(']', '').split(separator)]. Only a
    string has [replace]. *)
Definition generatePathPieces (path : val) (separator : string) : M (list string) :=
  match path with
  | VStr s =>
      ret (JSString.split separator
             (JSString.replace "]" "" (JSString.replace "[" separator s)))
  | _ => throw TypeError
  end.

(** [key === '' || !isNaN(parseInt(key, 10))]. *)
Definition isArrayKey (key : string) : bool :=
  bool_decide (key = "") || bool_decide (is_Some (JSString.parseInt10 key)).

(** [key === '' ? obj.slice(-1)[0] : obj[key]]. *)
Definition piecesReducer (obj : val) (key : string) : M val :=
  if decide (key = "") then
    let* t := slice_last obj in
    get_prop t "0"
  else get_prop obj key.

(** The array of the non-final steps, with the property [finalKey] that
    [setValue] puts on it. *)
Record path_pieces := PathPieces {
  items : list string;
  finalKey : option string
}.

(** [a || b] on steps: [undefined] and the empty string are falsy. *)
Definition or_step (a b : option string) : option string :=
  match a with
  | Some s => if decide (s = "") then b else a
  | None => b
  end.

(** [nextKey != null && this.isArrayKey(nextKey) ? [] : {}]. *)
Definition new_container (nextKey : option string) : obj :=
  match nextKey with
  | Some k => if isArrayKey k then Arr 0 ∅ else Obj ∅
  | None => Obj ∅
  end.

Section Service.
Context `{Host}.

Definition getTargetPropToSet (pathPieces : path_pieces)
    (obj : val) (key : string) (i : nat) : M val :=
  let* prop := get_prop obj key in
  if truthy prop then ret prop
  else
    let nextKey := or_step (items pathPieces !! (i + 1)) (finalKey pathPieces) in
    let* prop := alloc (new_container nextKey) in
    let* _ := set_prop obj key prop in
    ret prop.

(** The final write of [setValue]: [targetProp.push(value)] for the empty
    final key, [targetProp[finalKey] = value] otherwise ([undefined] as a
    property key is the string of that name). *)
Definition final_write (targetProp : val) (finalKey : option string) (value : val) : M unit :=
  match finalKey with
  | Some k =>
      if decide (k = "") then let* _ := push targetProp value in ret tt
      else set_prop targetProp k value
  | None => set_prop targetProp "undefined" value
  end.

(** The traversal of [setValue] over the non-final steps. *)
Definition target_of (pathPieces : path_pieces) (model : val) : M val :=
  let* r := reduce (getTargetPropToSet pathPieces) (items pathPieces) model in
  ret (JS.or r VNull).

(** The [try] block of [setValue]. *)
Definition setValue_try (path value model : val) (separator : string) : M val :=
  let* pathPieces := generatePathPieces path separator in
  let '(rest, finalKey) := pop pathPieces in
  let pathPieces := PathPieces rest finalKey in
  let* targetProp := target_of pathPieces model in
  let* _ := final_write targetProp finalKey value in
  ret VUndef.

Definition setValue (path value model : val) (separator : string) : M val :=
  if negb (truthy (if truthy path then model else path)) then ret VNull
  else
    try_catch (setValue_try path value model separator)
      (λ err, let* _ := console_error err in ret VUndef).

(** The directive's [setModelValue]: it is here that a falsy new value
    becomes [null]. *)
Definition setModelValue (modelPath rfModelData newValue : val) : M val :=
  setValue modelPath (JS.or newValue VNull) rfModelData default_separator.

End Service.

(** The fold of [getValue] over the steps. *)
Definition resolve (pathPieces : list string) (model : val) : M val :=
  reduce (λ obj key _, piecesReducer obj key) pathPieces model.

(** The [try] block of [getValue]. *)
Definition getValue_try (path model : val) (separator : string) : M val :=
  let* pathPieces := generatePathPieces path separator in
  let* r := resolve pathPieces model in
  ret (JS.or r VNull).

Definition getValue (path model : val) (separator : string) : M val :=
  if eq_null path || negb (truthy model) then ret VNull
  else try_catch (getValue_try path model separator) (λ _, ret VNull).

(** The directive's [getModelValue]. *)
Definition getModelValue (modelPath rfModelData : val) : M val :=
  getValue modelPath rfModelData default_separator.

(** A host for running the examples: it reads a string of decimal digits as
    that integer and takes every other string and every object to [NaN]. No
    example below assigns to the [length] of an array. *)
Definition digits_host : Host := {|
  StringToNumber s :=
    match JS.canonical_index s with
    | Some i => Int (Z.of_N i)
    | None => NaN
    end;
  ObjectToNumber _ _ := Ret NaN
|}.

(** ** The vocabulary of the properties *)

(** *** Strings and keys *)

(** The code unit [a] occurs in [s]. *)
Fixpoint occurs (a : ascii) (s : string) : bool :=
  match s with
  | "" => false
  | String b s' => Ascii.eqb a b || occurs a s'
  end.

(** [t] is [s] with its first [a], if there is one, replaced by [r]. *)
Definition first_replaced (a : ascii) (r s t : string) : Prop :=
  (occurs a s = false ∧ t = s) ∨
  (∃ pre post, occurs a pre = false ∧ s = pre +:+ String a post ∧ t = pre +:+ r +:+ post).

Fixpoint all_white (s : string) : bool :=
  match s with
  | "" => true
  | String c s' => JSString.is_white c && all_white s'
  end.

(** [k] reads as a base-10 integer the way [parseInt] reads: white space,
    then an optional sign, then at least one digit; what follows the digits
    is not looked at. *)
Definition integer_prefix (k : string) : Prop :=
  ∃ ws sign d rest,
    k = ws +:+ sign +:+ String d rest ∧
    all_white ws = true ∧
    (sign = "" ∨ sign = "+" ∨ sign = "-") ∧
    is_Some (JSString.digit_of d).


(** An array key as the data model of the specification words it: the empty
    step, or a step that parses as an integer that is not negative. *)
Definition claimed_array_key (k : string) : bool :=
  bool_decide (k = "") ||
  match JSString.parseInt10 k with
  | Some z => bool_decide (0 ≤ z)%Z
  | None => false
  end.

(** *** States *)

(** [st'] is [st] with some new objects after the old ones. *)
Definition extends (st st' : state) : Prop :=
  console st' = console st ∧ ∃ tmp, heap st' = heap st ++ tmp.

(** The own data property [k] of the object at [l]. *)
Definition own_at (h : list obj) (l : loc) (k : string) : option val :=
  match h !! l with
  | Some o => own_props o !! k
  | None => None
  end.

(** From [h] to [h'] an own property changes only where it is named by one
    of the keys [ks] and held no truthy value. *)
Definition only_fills (ks : list string) (h h' : list obj) : Prop :=
  ∀ l k,
    own_at h' l k = own_at h l k ∨
    (k ∈ ks ∧ ∀ w, own_at h l k = Some w → truthy w = false).

(** The own properties of the target [o] that the final write names: the
    final key itself; for the empty final key, the slot after the last
    element of the array; and, when the final key is the [length] of an
    array, whatever the new length cuts off. *)
Definition final_location (fk : option string) (o : obj) (k : string) : Prop :=
  match fk with
  | Some s =>
      if decide (s = "") then ∃ len ps, o = Arr len ps ∧ k = pretty len
      else k = s ∨ (s = "length" ∧ ∃ len ps, o = Arr len ps)
  | None => k = "undefined"
  end.

(** The last element of an array, [undefined] when there is none. *)
Definition last_element (len : N) (ps : gmap string val) : val :=
  if decide (len = 0)%N then VUndef
  else default VUndef (ps !! pretty (len - 1)%N).

(** An empty container on which the key [k] can be assigned and read back:
    an empty object, or an empty array when [k] is not its [length]. *)
Definition fit (c : obj) (k : string) : Prop :=
  c = Obj ∅ ∨ (c = Arr 0 ∅ ∧ k ≠ "length").

(** Reading the steps [ks] from [o] in [st] gives [v] and allocates
    nothing. *)
Definition reads (ks : list string) (o : val) (st : state) (v : val) : Prop :=
  ∀ j, reduce_from (λ obj key _, piecesReducer obj key) j ks o st = (Ret v, st).

(** The traversal of [setValue] from step [i] on, and the final write. *)
Definition write_from `{Host} (pcs : path_pieces) (i : nat) (rest : list string)
    (cur value : val) : M unit :=
  let* t := reduce_from (getTargetPropToSet pcs) i rest cur in
  final_write (JS.or t VNull) (finalKey pcs) value.

(** *** The models of the examples *)

Definition empty_model : state := State [Obj ∅] [].

(** The model of the documentation of [getValue]:
    [{ user: { name: 'John Doe' } }]. *)
Definition user_model : state :=
  State [Obj {[ "user" := VRef 1 ]}; Obj {[ "name" := VStr "John Doe" ]}] [].

Definition list_of_two : state :=
  State [Obj {[ "list" := VRef 1 ]};
         Arr 2 {[ "0" := VNum (Int 1); "1" := VNum (Int 2) ]}] [].

Definition list_of_three : state :=
  State [Obj {[ "list" := VRef 1 ]};
         Arr 3 {[ "0" := VNum (Int 1); "1" := VNum (Int 2); "2" := VNum (Int 3) ]}] [].

(** ** The directive [NgRFModelDirective]: the path inside the model *)

(** [s.indexOf(pat)]: the position of the first occurrence, [-1] when there
    is none. *)
Definition indexOf (pat s : string) : Z :=
  match JSString.cut_first pat s with
  | Some (pre, _) => Z.of_nat (String.length pre)
  | None => (-1)%Z
  end.

(** [s.substr(start)]: a negative start counts from the end, and the start
    is clamped to the string. *)
Definition substr (start : Z) (s : string) : string :=
  let len := Z.of_nat (String.length s) in
  let from := if (start <? 0)%Z then Z.max (len + start) 0 else Z.min start len in
  JSString.drop_units (Z.to_nat from) s.

(** [this.rfModelName.substr(this.rfModelName.indexOf('.') + 1)]. *)
Definition getModelPathWithoutFirstPart (rfModelName : string) : string :=
  substr (indexOf "." rfModelName + 1) rfModelName.

(** ** More vocabulary *)

(** The steps [ks] lead from the object at [l] to the object at [t]: each
    step is a non-empty key whose property holds the reference to the next
    object, and no object on the way is [t] itself. *)
Inductive leads (h : list obj) (t : loc) : loc → list string → Prop :=
  | leads_here : leads h t t []
  | leads_step l k ks c l' :
      h !! l = Some c → k ≠ "" → l ≠ t → obj_prop c k = VRef l' →
      leads h t l' ks → leads h t l (k :: ks).

(** A container on which the key [k] is assigned as an own property: any
    object, and any array when [k] is not its [length]. *)
Definition assignable (c : obj) (k : string) : Prop :=
  (∃ ps, c = Obj ps) ∨ (∃ len ps, c = Arr len ps ∧ k ≠ "length").

(** A value that is not a reference. *)
Definition primitive (v : val) : bool :=
  match v with
  | VRef _ => false
  | _ => true
  end.

(** The own properties of an array after the values [vs] are pushed one
    after the other from the length [len] on. *)
Fixpoint pushed (len : N) (vs : list val) (ps : gmap string val) : gmap string val :=
  match vs with
  | [] => ps
  | v :: vs' => pushed (len + 1) vs' (<[pretty len := v]> ps)
  end.

(** [setValue(path, v, model)] for each [v] of [vs] in turn. *)
Fixpoint setValue_each `{Host} (path model : val) (vs : list val) : M unit :=
  match vs with
  | [] => ret tt
  | v :: vs' =>
      let* _ := setValue path v model default_separator in
      setValue_each path model vs'
  end.

(** *** A path that resolves to a leaf *)

(** The own property [k] of an object; the [length] of an array is one of
    its own properties. *)
Definition own_value (o : obj) (k : string) : option val :=
  match o with
  | Obj ps => ps !! k
  | Arr len ps =>
      if decide (k = "length") then Some (VNum (Int (Z.of_N len))) else ps !! k
  end.

(** In the heap [h] the steps lead from a value to the leaf [v] through what
    exists: a non-empty step names an own property of an object or of an
    array, the [length] of a string, or the index of one of its code units;
    the empty step is the last element of an array that is not empty (and
    has its own [slice]), or the last code unit of a string that is not
    empty. *)
Inductive resolves_to (h : list obj) : val → list string → val → Prop :=
  | resolves_here v : resolves_to h v [] v
  | resolves_own l o k w ks v :
      h !! l = Some o → k ≠ "" → own_value o k = Some w →
      resolves_to h w ks v → resolves_to h (VRef l) (k :: ks) v
  | resolves_last l len ps w ks v :
      h !! l = Some (Arr len ps) → ps !! "slice" = None →
      species_ok (ps !! "constructor") = true →
      (len ≠ 0)%N → ps !! pretty (len - 1)%N = Some w →
      resolves_to h w ks v → resolves_to h (VRef l) ("" :: ks) v
  | resolves_unit pre c post (i : N) ks v :
      String.length pre = N.to_nat i →
      resolves_to h (VStr (String c "")) ks v →
      resolves_to h (VStr (pre +:+ String c post)) (pretty i :: ks) v
  | resolves_length s ks v :
      resolves_to h (VNum (Int (Z.of_nat (String.length s)))) ks v →
      resolves_to h (VStr s) ("length" :: ks) v
  | resolves_last_unit pre c ks v :
      resolves_to h (VStr (String c "")) ks v →
      resolves_to h (VStr (pre +:+ String c "")) ("" :: ks) v.

(** *** What a write may change *)

(** Both plain objects, or both arrays. *)
Definition same_kind (o o' : obj) : bool :=
  match o, o' with
  | Obj _, Obj _ | Arr _ _, Arr _ _ => true
  | _, _ => false
  end.

(** Of the same kind, and an array no shorter than it was. *)
Definition grown (o o' : obj) : Prop :=
  match o, o' with
  | Obj _, Obj _ => True
  | Arr len _, Arr len' _ => (len ≤ len')%N
  | _, _ => False
  end.

(** From the state [st0], the traversal of [setValue] over the first [i]
    non-final steps ends, in the state [sti], at the object [l]: the
    container in which step [i] is looked up. *)
Definition passes `{Host} (pcs : path_pieces) (model : val) (st0 : state)
    (i : nat) (l : loc) (sti : state) : Prop :=
  reduce_from (getTargetPropToSet pcs) 0 (take i (items pcs)) model st0
    = (Ret (VRef l), sti).

(** The object [l] is one of the containers the traversal looks a step up
    in. *)
Definition visits `{Host} (pcs : path_pieces) (model : val) (st0 : state)
    (l : loc) : Prop :=
  ∃ i k sti, items pcs !! i = Some k ∧ passes pcs model st0 i l sti.

(** The traversal looked the step [k] up in the object [l], the property
    read falsy there, and in [h'] it holds the reference to the container
    that the step then created. *)
Definition fills `{Host} (pcs : path_pieces) (model : val) (st0 : state)
    (l : loc) (k : string) (h' : list obj) : Prop :=
  ∃ i sti oi,
    items pcs !! i = Some k ∧ passes pcs model st0 i l sti ∧
    heap sti !! l = Some oi ∧ truthy (obj_prop oi k) = false ∧
    own_at h' l k = Some (VRef (length (heap sti))).

(** From [h] to [h'] every object is still there, of its kind and no
    shorter, and is the same unless the traversal visits it; and an own
    property is the same unless the traversal filled it. *)
Definition traversal_changes `{Host} (pcs : path_pieces) (model : val)
    (st0 : state) (h h' : list obj) : Prop :=
  (∀ l o, h !! l = Some o →
     ∃ o', h' !! l = Some o' ∧ grown o o' ∧ (o' = o ∨ visits pcs model st0 l)) ∧
  (∀ l k, own_at h' l k = own_at h l k ∨ fills pcs model st0 l k h').

(** ** The host's built-in objects and the prototype chain *)

(** The definitions above read and write the own properties of the data.
    In the host every value also inherits members: a plain object those of
    [Object.prototype], an array those of [Array.prototype], a string, a
    number and a boolean those of their wrappers' prototypes. A step of a
    path that names such a member ([toString], [constructor], [__proto__])
    leaves the data: it reads a function or a prototype object of the host,
    and a write may land on one. This part adds them; [InRealm] below is the
    service over values that may be built-in objects, and the properties
    relate it to the definitions above. *)

(** A value of the host: a value of the data, or one of the host's built-in
    objects (a prototype object or a function), known by its name. *)
Inductive xval :=
  | Data (v : val)
  | Builtin (b : string).

#[global] Instance xval_eq_dec : EqDecision xval.
Proof. solve_decision. Defined.

(** An own property of a built-in object as the host creates it: a data
    property with its value and whether it can be assigned; the accessor
    [__proto__]; an accessor whose getter and setter throw a [TypeError]
    (as [caller] and [arguments] of [Function.prototype]). *)
Inductive member :=
  | Field (v : xval) (writable : bool)
  | ProtoAccessor
  | Thrower.

(** What the program has done to the realm: the data properties it has put
    on built-in objects (they shadow the host's), and the prototypes it has
    given to objects, of the heap or built-in, by assigning to
    [__proto__] (a reference or [null]). *)
Record rstate := RState {
  added : gmap string (gmap string val);
  moved : gmap (nat + string) val
}.

Definition pristine : rstate := RState ∅ ∅.

(** The data and the realm. *)
Record world := World { plain : state; realm : rstate }.

Definition W (A : Type) : Type := world → outcome A * world.

Definition wret {A} (a : A) : W A := λ w, (Ret a, w).
Definition wthrow {A} (e : exn) : W A := λ w, (Throw e, w).
Definition wbind {A B} (m : W A) (k : A → W B) : W B := λ w,
  match m w with
  | (Ret a, w') => k a w'
  | (Throw e, w') => (Throw e, w')
  end.
Definition wtry {A} (body : W A) (handler : exn → W A) : W A := λ w,
  match body w with
  | (Ret a, w') => (Ret a, w')
  | (Throw e, w') => handler e w'
  end.

Notation "'let+' x ':=' m 'in' k" := (wbind m (λ x, k))
  (at level 10, x name, m at level 100, k at level 200).

(** A computation on the data, in a world: the realm is left alone. *)
Definition up {A B} (f : A → B) (m : M A) : W B := λ w,
  match m (plain w) with
  | (Ret a, st) => (Ret (f a), World st (realm w))
  | (Throw e, st) => (Throw e, World st (realm w))
  end.

(** The built-in objects of a host: the own properties and the prototype
    each is created with, a bound on the length of their prototype chains,
    and what calling a built-in function does when it is not [push] on an
    array or [slice] on an array or a string. *)
Class Realm := {
  member_of : string → string → option member;
  parent : string → option string;
  height : nat;
  foreign_call : string → xval → list val → world → outcome xval * world
}.

(** The names the language gives the prototypes of the kinds of values, and
    the three functions the service calls on its data. *)
Definition ObjectPrototype : string := "Object.prototype".
Definition ArrayPrototype : string := "Array.prototype".
Definition StringPrototype : string := "String.prototype".
Definition NumberPrototype : string := "Number.prototype".
Definition BooleanPrototype : string := "Boolean.prototype".
Definition ArrayPush : string := "Array.prototype.push".
Definition ArraySlice : string := "Array.prototype.slice".
Definition StringSlice : string := "String.prototype.slice".

(** The service in a realm. Property reads and writes on the model go along
    the prototype chain. The strings and the array of steps that the service
    makes for itself are used as the host defines them, as in the
    definitions above: their methods [replace], [split], [pop] and [reduce],
    and the elements of the array of steps. A built-in object takes the
    properties the program puts on it as an ordinary object does. *)
Module InRealm.

(** [ToBoolean]: every object is truthy. *)
Definition truthy (x : xval) : bool :=
  match x with
  | Data v => JS.truthy v
  | Builtin _ => true
  end.

Definition or (a b : xval) : xval := if truthy a then a else b.

(** The own properties of a string: its [length] and its code units. *)
Definition string_own (s k : string) : option val :=
  if decide (k = "length") then Some (VNum (Int (Z.of_nat (String.length s))))
  else match canonical_index k with
       | Some i =>
           match unit_at (N.to_nat i) s with
           | Some c => Some (VStr (String c ""))
           | None => None
           end
       | None => None
       end.

(** [undefined], [null] and a reference outside the heap have no
    properties. *)
Definition has_properties (w : world) (x : xval) : bool :=
  match x with
  | Data VUndef | Data VNull => false
  | Data (VRef l) => bool_decide (is_Some (heap (plain w) !! l))
  | _ => true
  end.

(** The name under which the realm keeps the prototype given to an
    object. *)
Definition ident (x : xval) : option (nat + string) :=
  match x with
  | Data (VRef l) => Some (inl l)
  | Builtin b => Some (inr b)
  | _ => None
  end.

Section Chain.
Context `{Realm}.

(** [[GetPrototypeOf]]: the prototype the program gave the object, or else
    the one it was created with; for a primitive, the prototype of its
    wrapper. [Data VNull] is no prototype. *)
Definition proto_of (w : world) (x : xval) : xval :=
  match x with
  | Data (VRef l) =>
      match moved (realm w) !! inl l with
      | Some p => Data p
      | None =>
          match heap (plain w) !! l with
          | Some (Obj _) => Builtin ObjectPrototype
          | Some (Arr _ _) => Builtin ArrayPrototype
          | None => Data VNull
          end
      end
  | Data (VStr _) => Builtin StringPrototype
  | Data (VNum _) => Builtin NumberPrototype
  | Data (VBool _) => Builtin BooleanPrototype
  | Data _ => Data VNull
  | Builtin b =>
      match moved (realm w) !! inr b with
      | Some p => Data p
      | None =>
          match parent b with
          | Some b' => Builtin b'
          | None => Data VNull
          end
      end
  end.

(** [[GetOwnProperty]]. The own properties of the data can be assigned,
    those of a string cannot. *)
Definition own_member (w : world) (x : xval) (k : string) : option member :=
  match x with
  | Data (VRef l) =>
      match heap (plain w) !! l with
      | Some o =>
          match own_value o k with
          | Some v => Some (Field (Data v) true)
          | None => None
          end
      | None => None
      end
  | Data (VStr s) =>
      match string_own s k with
      | Some v => Some (Field (Data v) false)
      | None => None
      end
  | Data _ => None
  | Builtin b =>
      match added (realm w) !! b ≫= (.!! k) with
      | Some v => Some (Field (Data v) true)
      | None => member_of b k
      end
  end.

(** The first property named [k] along the prototype chain of [x]. *)
Fixpoint find_member (fuel : nat) (w : world) (x : xval) (k : string) : option member :=
  match own_member w x k with
  | Some m => Some m
  | None =>
      match fuel with
      | O => None
      | S n =>
          match proto_of w x with
          | Data (VRef l) => find_member n w (Data (VRef l)) k
          | Builtin b => find_member n w (Builtin b) k
          | Data _ => None
          end
      end
  end.

(** No prototype chain is longer: the objects of the heap are on a chain
    once, and between two of them stand built-in objects. *)
Definition fuel (w : world) : nat :=
  S (length (heap (plain w))) * S height.

(** [target] is [x] or on its prototype chain. *)
Fixpoint on_chain (n : nat) (w : world) (x target : xval) : bool :=
  bool_decide (x = target) ||
  match n with
  | O => false
  | S n' =>
      match proto_of w x with
      | Data (VRef l) => on_chain n' w (Data (VRef l)) target
      | Builtin b => on_chain n' w (Builtin b) target
      | Data _ => false
      end
  end.

(** [o[k]]: the first property of that name along the prototype chain; the
    getter of [__proto__] gives the prototype of the value read from. *)
Definition get_prop (x : xval) (k : string) : W xval := λ w,
  if has_properties w x then
    match find_member (fuel w) w x k with
    | Some (Field v _) => (Ret v, w)
    | Some ProtoAccessor => (Ret (proto_of w x), w)
    | Some Thrower => (Throw TypeError, w)
    | None => (Ret (Data VUndef), w)
    end
  else (Throw TypeError, w).

(** The setter of [__proto__]: nothing happens unless an object is given an
    object or [null]; then that is its prototype from now on, except that
    [Object.prototype] keeps its own and that a chain may not close. *)
Definition set_proto (x : xval) (v : val) : W unit := λ w,
  match ident x, v with
  | Some i, (VRef _ | VNull) =>
      if decide (proto_of w x = Data v) then (Ret tt, w)
      else if decide (x = Builtin ObjectPrototype) then (Throw TypeError, w)
      else if on_chain (fuel w) w (Data v) x then (Throw TypeError, w)
      else (Ret tt,
            World (plain w)
                  (RState (added (realm w)) (<[i := v]> (moved (realm w)))))
  | _, _ => (Ret tt, w)
  end.

Context `{Host}.

(** The value becomes an own property: of an object of the heap as in
    [JS.set_prop], of a built-in object in the realm; a primitive takes
    none. *)
Definition store_own (x : xval) (k : string) (v : val) : W unit :=
  match x with
  | Data (VRef l) => up id (JS.set_prop (VRef l) k v)
  | Builtin b => λ w,
      (Ret tt,
       World (plain w)
             (RState (<[b := <[k := v]> (default ∅ (added (realm w) !! b))]>
                        (added (realm w)))
                     (moved (realm w))))
  | Data _ => wthrow TypeError
  end.

(** [o[k] = v] in strict code. The first property named [k] along the chain
    decides: a setter is called, a property that cannot be assigned makes a
    [TypeError]; otherwise the value becomes an own property of [o]. *)
Definition set_prop (x : xval) (k : string) (v : val) : W unit := λ w,
  if has_properties w x then
    match find_member (fuel w) w x k with
    | Some ProtoAccessor => set_proto x v w
    | Some Thrower | Some (Field _ false) => (Throw TypeError, w)
    | Some (Field _ true) | None => store_own x k v w
    end
  else (Throw TypeError, w).

(** [o.push(v)]: what [o.push] reads must be a function; the built-in
    [push] on an array of the heap is [JS.push]. *)
Definition push (o : xval) (v : val) : W xval :=
  let+ f := get_prop o "push" in
  match f with
  | Data _ => wthrow TypeError
  | Builtin b => λ w,
      match o with
      | Data (VRef l) =>
          match heap (plain w) !! l with
          | Some (Arr _ _) =>
              if decide (b = ArrayPush) then up Data (JS.push (VRef l) v) w
              else foreign_call b o [v] w
          | _ => foreign_call b o [v] w
          end
      | _ => foreign_call b o [v] w
      end
  end.

(** [o.slice(-1)]: the built-in [slice] on a string, and on an array of the
    heap, where [ArraySpeciesCreate] reads the [constructor] of the array. *)
Definition slice_last (o : xval) : W xval :=
  let+ f := get_prop o "slice" in
  match f with
  | Data _ => wthrow TypeError
  | Builtin b => λ w,
      let foreign := foreign_call b o [VNum (Int (-1))] w in
      match o with
      | Data (VStr s) =>
          if decide (b = StringSlice) then (Ret (Data (VStr (last_unit s))), w)
          else foreign
      | Data (VRef l) =>
          match heap (plain w) !! l with
          | Some (Arr len ps) =>
              if decide (b = ArraySlice) then
                (let+ c := get_prop o "constructor" in
                 match c with
                 | Data VUndef | Data (VRef _) | Builtin _ =>
                     up Data (alloc (last_slice len ps))
                 | Data _ => wthrow TypeError
                 end) w
              else foreign
          | _ => foreign
          end
      | _ => foreign
      end
  end.

(** [key === '' ? obj.slice(-1)[0] : obj[key]]. *)
Definition piecesReducer (obj : xval) (key : string) : W xval :=
  if decide (key = "") then
    let+ t := slice_last obj in
    get_prop t "0"
  else get_prop obj key.

Definition getTargetPropToSet (pathPieces : path_pieces)
    (obj : xval) (key : string) (i : nat) : W xval :=
  let+ prop := get_prop obj key in
  if truthy prop then wret prop
  else
    let nextKey := or_step (items pathPieces !! (i + 1)) (finalKey pathPieces) in
    let+ prop := up id (alloc (new_container nextKey)) in
    let+ _ := set_prop obj key prop in
    wret (Data prop).

Definition final_write (targetProp : xval) (finalKey : option string)
    (value : val) : W unit :=
  match finalKey with
  | Some k =>
      if decide (k = "") then let+ _ := push targetProp value in wret tt
      else set_prop targetProp k value
  | None => set_prop targetProp "undefined" value
  end.

(** [arr.reduce(f, init)]. *)
Fixpoint reduce_from (f : xval → string → nat → W xval) (i : nat)
    (l : list string) (acc : xval) : W xval :=
  match l with
  | [] => wret acc
  | x :: l' => let+ acc' := f acc x i in reduce_from f (S i) l' acc'
  end.

Definition target_of (pathPieces : path_pieces) (model : xval) : W xval :=
  let+ r := reduce_from (getTargetPropToSet pathPieces) 0 (items pathPieces) model in
  wret (or r (Data VNull)).

Definition setValue_try (path value : val) (model : xval) (separator : string) : W xval :=
  let+ pathPieces := up id (generatePathPieces path separator) in
  let '(rest, finalKey) := pop pathPieces in
  let pathPieces := PathPieces rest finalKey in
  let+ targetProp := target_of pathPieces model in
  let+ _ := final_write targetProp finalKey value in
  wret (Data VUndef).

Definition setValue (path value : val) (model : xval) (separator : string) : W xval :=
  if negb (JS.truthy path && truthy model) then wret (Data VNull)
  else
    wtry (setValue_try path value model separator)
      (λ err, let+ _ := up id (console_error err) in wret (Data VUndef)).

Definition setModelValue (modelPath : val) (rfModelData : xval) (newValue : val) : W xval :=
  setValue modelPath (JS.or newValue VNull) rfModelData default_separator.

Definition resolve (pathPieces : list string) (model : xval) : W xval :=
  reduce_from (λ obj key _, piecesReducer obj key) 0 pathPieces model.

Definition getValue_try (path : val) (model : xval) (separator : string) : W xval :=
  let+ pathPieces := up id (generatePathPieces path separator) in
  let+ r := resolve pathPieces model in
  wret (or r (Data VNull)).

Definition getValue (path : val) (model : xval) (separator : string) : W xval :=
  if eq_null path || negb (truthy model) then wret (Data VNull)
  else wtry (getValue_try path model separator) (λ _, wret (Data VNull)).

Definition getModelValue (modelPath : val) (rfModelData : xval) : W xval :=
  getValue modelPath rfModelData default_separator.

End Chain.

End InRealm.

(** *** A realm for running the examples *)

(** The functions that ECMAScript 2024 and its Annex B put on the prototype
    of each constructor: the name of the member, then the [name] and the
    [length] of the function ([trimLeft] is the function [trimStart]). *)
Definition prototype_functions : list (string * list (string * (string * Z))) :=
  [ ("Object",
     [ ("hasOwnProperty", ("hasOwnProperty", 1));
       ("isPrototypeOf", ("isPrototypeOf", 1));
       ("propertyIsEnumerable", ("propertyIsEnumerable", 1));
       ("toLocaleString", ("toLocaleString", 0)); ("toString", ("toString", 0));
       ("valueOf", ("valueOf", 0));
       ("__defineGetter__", ("__defineGetter__", 2));
       ("__defineSetter__", ("__defineSetter__", 2));
       ("__lookupGetter__", ("__lookupGetter__", 1));
       ("__lookupSetter__", ("__lookupSetter__", 1)) ]%Z);
    ("Function",
     [ ("apply", ("apply", 2)); ("bind", ("bind", 1)); ("call", ("call", 1));
       ("toString", ("toString", 0)) ]%Z);
    ("Array",
     [ ("at", ("at", 1)); ("concat", ("concat", 1)); ("copyWithin", ("copyWithin", 2));
       ("entries", ("entries", 0)); ("every", ("every", 1)); ("fill", ("fill", 1));
       ("filter", ("filter", 1)); ("find", ("find", 1)); ("findIndex", ("findIndex", 1));
       ("findLast", ("findLast", 1)); ("findLastIndex", ("findLastIndex", 1));
       ("flat", ("flat", 0)); ("flatMap", ("flatMap", 1)); ("forEach", ("forEach", 1));
       ("includes", ("includes", 1)); ("indexOf", ("indexOf", 1)); ("join", ("join", 1));
       ("keys", ("keys", 0)); ("lastIndexOf", ("lastIndexOf", 1)); ("map", ("map", 1));
       ("pop", ("pop", 0)); ("push", ("push", 1)); ("reduce", ("reduce", 1));
       ("reduceRight", ("reduceRight", 1)); ("reverse", ("reverse", 0));
       ("shift", ("shift", 0)); ("slice", ("slice", 2)); ("some", ("some", 1));
       ("sort", ("sort", 1)); ("splice", ("splice", 2));
       ("toLocaleString", ("toLocaleString", 0)); ("toReversed", ("toReversed", 0));
       ("toSorted", ("toSorted", 1)); ("toSpliced", ("toSpliced", 2));
       ("toString", ("toString", 0)); ("unshift", ("unshift", 1));
       ("values", ("values", 0)); ("with", ("with", 2)) ]%Z);
    ("String",
     [ ("at", ("at", 1)); ("charAt", ("charAt", 1)); ("charCodeAt", ("charCodeAt", 1));
       ("codePointAt", ("codePointAt", 1)); ("concat", ("concat", 1));
       ("endsWith", ("endsWith", 1)); ("includes", ("includes", 1));
       ("indexOf", ("indexOf", 1)); ("isWellFormed", ("isWellFormed", 0));
       ("lastIndexOf", ("lastIndexOf", 1)); ("localeCompare", ("localeCompare", 1));
       ("match", ("match", 1)); ("matchAll", ("matchAll", 1));
       ("normalize", ("normalize", 0)); ("padEnd", ("padEnd", 1));
       ("padStart", ("padStart", 1)); ("repeat", ("repeat", 1));
       ("replace", ("replace", 2)); ("replaceAll", ("replaceAll", 2));
       ("search", ("search", 1)); ("slice", ("slice", 2)); ("split", ("split", 2));
       ("startsWith", ("startsWith", 1)); ("substring", ("substring", 2));
       ("toLocaleLowerCase", ("toLocaleLowerCase", 0));
       ("toLocaleUpperCase", ("toLocaleUpperCase", 0));
       ("toLowerCase", ("toLowerCase", 0)); ("toString", ("toString", 0));
       ("toUpperCase", ("toUpperCase", 0)); ("toWellFormed", ("toWellFormed", 0));
       ("trim", ("trim", 0)); ("trimEnd", ("trimEnd", 0)); ("trimStart", ("trimStart", 0));
       ("trimLeft", ("trimStart", 0)); ("trimRight", ("trimEnd", 0));
       ("valueOf", ("valueOf", 0)); ("substr", ("substr", 2));
       ("anchor", ("anchor", 1)); ("big", ("big", 0)); ("blink", ("blink", 0));
       ("bold", ("bold", 0)); ("fixed", ("fixed", 0)); ("fontcolor", ("fontcolor", 1));
       ("fontsize", ("fontsize", 1)); ("italics", ("italics", 0)); ("link", ("link", 1));
       ("small", ("small", 0)); ("strike", ("strike", 0)); ("sub", ("sub", 0));
       ("sup", ("sup", 0)) ]%Z);
    ("Number",
     [ ("toExponential", ("toExponential", 1)); ("toFixed", ("toFixed", 1));
       ("toLocaleString", ("toLocaleString", 0)); ("toPrecision", ("toPrecision", 1));
       ("toString", ("toString", 1)); ("valueOf", ("valueOf", 0)) ]%Z);
    ("Boolean", [ ("toString", ("toString", 0)); ("valueOf", ("valueOf", 0)) ]%Z) ].

(** The functions on the constructors themselves, with their [length]. *)
Definition static_functions : list (string * list (string * Z)) :=
  [ ("Object",
     [ ("assign", 2); ("create", 2); ("defineProperties", 2); ("defineProperty", 3);
       ("entries", 1); ("freeze", 1); ("fromEntries", 1);
       ("getOwnPropertyDescriptor", 2); ("getOwnPropertyDescriptors", 1);
       ("getOwnPropertyNames", 1); ("getOwnPropertySymbols", 1);
       ("getPrototypeOf", 1); ("groupBy", 2); ("hasOwn", 2); ("is", 2);
       ("isExtensible", 1); ("isFrozen", 1); ("isSealed", 1); ("keys", 1);
       ("preventExtensions", 1); ("seal", 1); ("setPrototypeOf", 2); ("values", 1) ]%Z);
    ("Array", [ ("from", 1); ("isArray", 1); ("of", 0) ]%Z);
    ("String", [ ("fromCharCode", 1); ("fromCodePoint", 1); ("raw", 1) ]%Z);
    ("Number",
     [ ("isFinite", 1); ("isInteger", 1); ("isNaN", 1); ("isSafeInteger", 1);
       ("parseFloat", 1); ("parseInt", 2) ]%Z) ].

Fixpoint assoc {A} (k : string) (l : list (string * A)) : option A :=
  match l with
  | [] => None
  | (k', a) :: l' => if decide (k' = k) then Some a else assoc k l'
  end.

(** The function among [fns] that is named [b] after the prefix [pre]. *)
Fixpoint named_function (pre : string) (fns : list (string * Z)) (b : string)
    : option (string * Z) :=
  match fns with
  | [] => None
  | (m, n) :: fns' =>
      if decide (pre +:+ m = b) then Some (m, n) else named_function pre fns' b
  end.

(** The own properties of a built-in function: its [name] and its [length],
    which cannot be assigned. *)
Definition function_member (name : string) (len : Z) (k : string) : option member :=
  if decide (k = "name") then Some (Field (Data (VStr name)) false)
  else if decide (k = "length") then Some (Field (Data (VNum (Int len))) false)
  else None.

(** What a prototype object has besides its functions and [constructor]. *)
Definition prototype_member (c k : string) : option member :=
  if decide (c = "Object") then
    if decide (k = "__proto__") then Some ProtoAccessor else None
  else if decide (c = "Function") then
    if decide (k = "caller" ∨ k = "arguments") then Some Thrower
    else function_member "" 0 k
  else if decide (c = "Array") then
    if decide (k = "length") then Some (Field (Data (VNum (Int 0))) true) else None
  else if decide (c = "String") then
    if decide (k = "length") then Some (Field (Data (VNum (Int 0))) false) else None
  else None.

(** What a constructor has besides its functions, its [name] and its
    [length]: its [prototype], and for [Number] the constants that are
    numbers of the data. *)
Definition constructor_member (c k : string) : option member :=
  if decide (k = "prototype") then Some (Field (Builtin (c +:+ ".prototype")) false)
  else if decide (c = "Number") then
    if decide (k = "MAX_SAFE_INTEGER")
    then Some (Field (Data (VNum (Int (2 ^ 53 - 1)))) false)
    else if decide (k = "MIN_SAFE_INTEGER")
    then Some (Field (Data (VNum (Int (- (2 ^ 53 - 1))))) false)
    else if decide (k = "NaN") then Some (Field (Data (VNum NaN)) false)
    else function_member c 1 k
  else function_member c 1 k.

(** The own property [k] of the built-in object [b], when [b] is the
    constructor [c], its prototype, or one of their functions. *)
Definition member_in (c : string) (fns : list (string * (string * Z))) (b k : string)
    : option member :=
  let statics := default [] (assoc c static_functions) in
  if decide (b = c +:+ ".prototype") then
    if decide (k = "constructor") then Some (Field (Builtin c) true)
    else match assoc k fns with
         | Some (name, _) => Some (Field (Builtin (b +:+ "." +:+ name)) true)
         | None => prototype_member c k
         end
  else if decide (b = c) then
    match assoc k statics with
    | Some _ => Some (Field (Builtin (c +:+ "." +:+ k)) true)
    | None => constructor_member c k
    end
  else match named_function (c +:+ ".prototype.") (map snd fns) b with
       | Some (m, n) => function_member m n k
       | None =>
           match named_function (c +:+ ".") statics b with
           | Some (m, n) => function_member m n k
           | None => None
           end
       end.

Fixpoint member_among (table : list (string * list (string * (string * Z))))
    (b k : string) : option member :=
  match table with
  | [] => None
  | (c, fns) :: table' =>
      match member_in c fns b k with
      | Some m => Some m
      | None => member_among table' b k
      end
  end.

Fixpoint is_function (table : list (string * list (string * (string * Z))))
    (b : string) : bool :=
  match table with
  | [] => false
  | (c, fns) :: table' =>
      bool_decide (b = c) ||
      bool_decide (is_Some (named_function (c +:+ ".prototype.") (map snd fns) b)) ||
      bool_decide (is_Some (named_function (c +:+ ".")
                              (default [] (assoc c static_functions)) b)) ||
      is_function table' b
  end.

(** A realm with the constructors and the prototypes of the values of the
    data and of functions, as ECMAScript 2024 has them. The constants of
    [Number] that are no numbers of the data are not listed, and every call
    that is not [push] or [slice] on the data is refused: the examples make
    none. *)
Definition es2024_realm : Realm := {|
  member_of := member_among prototype_functions;
  parent b :=
    if decide (b = ObjectPrototype) then None
    else if is_function prototype_functions b then Some "Function.prototype"
    else if bool_decide (is_Some (assoc (JSString.replace ".prototype" "" b)
                                     prototype_functions))
    then Some ObjectPrototype
    else None;
  height := 3;
  foreign_call _ _ _ w := (Throw TypeError, w)
|}.

(** *** Steps of plain data *)

(** The prototypes of the values of the data. *)
Definition data_prototypes : list string :=
  [ObjectPrototype; ArrayPrototype; StringPrototype; NumberPrototype;
   BooleanPrototype].

(** [c] is [b] or on the prototype chain the host gave [b]. *)
Inductive on_parent_chain `{Realm} : string → string → Prop :=
  | chain_here b : on_parent_chain b b
  | chain_up b b' c : parent b = Some b' → on_parent_chain b' c → on_parent_chain b c.

(** No value of the data inherits a member named [k]: none of the built-in
    objects on the prototype chains of the data has a property of that name,
    of those that the host created it with or that the program has put on
    it. *)
Definition avoids `{Realm} (rs : rstate) (k : string) : Prop :=
  ∀ p b, p ∈ data_prototypes → on_parent_chain p b →
    member_of b k = None ∧ added rs !! b ≫= (.!! k) = None.

(** No object has been given another prototype. *)
Definition unmoved (rs : rstate) : Prop := moved rs = ∅.

(** A step that is not empty and names no inherited member. *)
Definition data_step `{Realm} (rs : rstate) (k : string) : Prop :=
  k ≠ "" ∧ avoids rs k.

(** In [es2024_realm] the prototype chains of the data end at
    [Object.prototype]: whether none of the prototypes has the member. *)
Definition es2024_free (k : string) : bool :=
  forallb (λ b, bool_decide (member_among prototype_functions b k = None))
    data_prototypes.

(** * Properties *)

(** ** The string built-ins on examples *)

Example split_trailing : JSString.split "." "list." = ["list"; ""].
Proof. reflexivity. Qed.

Example split_multi : JSString.split "::" "a::b::::c:" = ["a"; "b"; ""; "c:"].
Proof. reflexivity. Qed.

Example replace_first_only : JSString.replace "[" "." "a[0].b[1]" = "a.0].b[1]".
Proof. reflexivity. Qed.

Example replace_dollar : JSString.replace "[" "$&$$" "a[0]" = "a[$0]".
Proof. reflexivity. Qed.

Example parseInt_examples :
  JSString.parseInt10 "3foo" = Some 3%Z /\ JSString.parseInt10 "-1" = Some (-1)%Z /\
  JSString.parseInt10 "abc" = None /\ JSString.parseInt10 "" = None /\
  JSString.parseInt10 " 12" = Some 12%Z /\ JSString.parseInt10 "-" = None.
Proof. repeat split; reflexivity. Qed.

(** ** Path parsing *)

Lemma prefix_unit a b s :
  String.prefix (String a "") (String b s) = Ascii.eqb a b.
Proof.
  simpl. destruct (ascii_dec a b) as [->|Hne].
  - rewrite Ascii.eqb_refl. by destruct s.
  - symmetry. by apply Ascii.eqb_neq.
Qed.

Lemma cut_first_unit a s :
  match JSString.cut_first (String a "") s with
  | Some (pre, post) => occurs a pre = false ∧ s = pre +:+ String a post
  | None => occurs a s = false
  end.
Proof.
  induction s as [|b s IH]; [done|].
  cbn [JSString.cut_first]. rewrite prefix_unit.
  destruct (Ascii.eqb a b) eqn:Hab.
  - apply Ascii.eqb_eq in Hab as ->. by split.
  - destruct (JSString.cut_first (String a "") s) as [[pre post]|].
    + destruct IH as [Hpre ->]. split; [|done]. simpl. by rewrite Hab.
    + simpl. by rewrite Hab.
Qed.

Lemma replace_unit a r s :
  (∀ pre post, JSString.GetSubstitution (String a "") pre post r = r) →
  first_replaced a r s (JSString.replace (String a "") r s).
Proof.
  intros Hr. unfold JSString.replace.
  pose proof (cut_first_unit a s) as Hcut.
  destruct (JSString.cut_first (String a "") s) as [[pre post]|].
  - destruct Hcut as [Hpre ->]. right. exists pre, post. by rewrite Hr.
  - by left.
Qed.

Lemma split_go_nonempty sep k s : JSString.split_go sep k s ≠ [].
Proof.
  revert k. induction s as [|b s IH]; intros k; [done|].
  cbn [JSString.split_go]. destruct k; [|apply IH].
  destruct (String.prefix sep (String b s)); [done|].
  by destruct (JSString.split_go sep 0 s).
Qed.

Lemma split_unit_join c s :
  JSString.join (String c "") (JSString.split_go (String c "") 0 s) = s.
Proof.
  induction s as [|b s IH]; [done|].
  cbn [JSString.split_go]. rewrite prefix_unit.
  pose proof (split_go_nonempty (String c "") 0 s) as Hne.
  destruct (Ascii.eqb c b) eqn:Hcb.
  - apply Ascii.eqb_eq in Hcb as <-. cbn [String.length Nat.sub].
    destruct (JSString.split_go (String c "") 0 s) as [|p ps] eqn:E; [done|].
    cbn [JSString.join]. by rewrite <- IH.
  - destruct (JSString.split_go (String c "") 0 s) as [|p ps] eqn:E; [done|].
    rewrite <- IH. by destruct ps.
Qed.

Lemma split_unit_free c s :
  Forall (λ piece, occurs c piece = false) (JSString.split_go (String c "") 0 s).
Proof.
  induction s as [|b s IH]; [by repeat constructor|].
  cbn [JSString.split_go]. rewrite prefix_unit.
  destruct (Ascii.eqb c b) eqn:Hcb.
  - by constructor.
  - destruct (JSString.split_go (String c "") 0 s) as [|p ps]; [by repeat constructor; simpl; rewrite Hcb|].
    inversion IH; subst. constructor; [|done]. simpl. by rewrite Hcb.
Qed.

(** C8. For every path string and every separator of one code unit, parsing
    succeeds, gives the same pieces in every state and touches nothing. The
    pieces are those of the path with its first '[' replaced by the
    separator and then its first ']' removed: joined by the separator they
    give that string back, none of them holds the separator, and there is at
    least one (so empty steps between two separators and after a trailing
    one are kept). *)
Theorem C8_generatePathPieces_first_brackets_then_split
    (p : string) (c : ascii) :
  ∃ opened normalized pieces,
    (∀ st, generatePathPieces (VStr p) (String c "") st = (Ret pieces, st)) ∧
    first_replaced "[" (String c "") p opened ∧
    first_replaced "]" "" opened normalized ∧
    JSString.join (String c "") pieces = normalized ∧
    Forall (λ piece, occurs c piece = false) pieces ∧
    pieces ≠ [].
Proof.
  eexists _, _, _. split; [reflexivity|].
  split; [by apply replace_unit|].
  split; [by apply (replace_unit "]" "")|].
  split; [apply split_unit_join|].
  split; [apply split_unit_free | apply split_go_nonempty].
Qed.

(** ** Reading and writing one property *)

Lemma own_value_obj_prop o k w : own_value o k = Some w → obj_prop o k = w.
Proof.
  destruct o as [ps|len ps]; simpl.
  - by intros ->.
  - destruct (decide (k = "length")); [by intros [= <-]|by intros ->].
Qed.

Lemma get_prop_state o k st : (get_prop o k st).2 = st.
Proof.
  destruct o as [| | | | |l]; try done.
  unfold get_prop, bind, get_heap. by destruct (heap st !! l).
Qed.

Lemma get_prop_eq o k st r st' : get_prop o k st = (r, st') → st' = st.
Proof. intros E. pose proof (get_prop_state o k st) as Hs. by rewrite E in Hs. Qed.

Lemma get_prop_ref l k st ob :
  heap st !! l = Some ob → get_prop (VRef l) k st = (Ret (obj_prop ob k), st).
Proof. intros E. unfold get_prop, bind, get_heap. by rewrite E. Qed.

(** A property of a reference can be read only when the reference is in
    the heap. *)
Lemma get_prop_ref_inv l k st v st' :
  get_prop (VRef l) k st = (Ret v, st') → l < length (heap st).
Proof.
  unfold get_prop, bind, get_heap. destruct (heap st !! l) eqn:E; [|done].
  intros _. by eapply lookup_lt_Some.
Qed.

Section SetProp.
Context `{Host}.

(** An assignment changes the object assigned to and nothing else. *)
Lemma set_prop_frame o k v st r st' :
  set_prop o k v st = (r, st') →
  console st' = console st ∧
  length (heap st') = length (heap st) ∧
  ∀ l, o ≠ VRef l → heap st' !! l = heap st !! l.
Proof.
  destruct o as [| | | | |l0]; try (intros [= <- <-]; done).
  unfold set_prop, bind, get_heap, put_heap, throw.
  assert (∀ ob, let st1 := State (<[l0:=ob]> (heap st)) (console st) in
    console st1 = console st ∧ length (heap st1) = length (heap st) ∧
    ∀ l, VRef l0 ≠ VRef l → heap st1 !! l = heap st !! l) as Hupd.
  { intros ob. simpl. split; [done|]. split; [apply length_insert|].
    intros l Hl. apply list_lookup_insert_ne. congruence. }
  destruct (heap st !! l0) as [[ps|len ps]|]; [| |intros [= <- <-]; done].
  - intros [= <- <-]. apply Hupd.
  - destruct (decide (k = "length")) as [Hk|Hk].
    + destruct (ToNumber (heap st) v) as [n|err]; [|intros [= <- <-]; done].
      destruct (uint32_of n); intros [= <- <-]; [apply Hupd|done].
    + destruct (array_index k); intros [= <- <-]; apply Hupd.
Qed.

(** What [getTargetPropToSet] does when the property is missing or falsy:
    the container chosen by the look-ahead is allocated, then assigned. *)
Lemma getTargetPropToSet_missing pcs obj key i st prop :
  get_prop obj key st = (Ret prop, st) → truthy prop = false →
  let c := new_container (or_step (items pcs !! (i + 1)) (finalKey pcs)) in
  let n := length (heap st) in
  getTargetPropToSet pcs obj key i st =
    match set_prop obj key (VRef n) (State (heap st ++ [c]) (console st)) with
    | (Ret _, st') => (Ret (VRef n), st')
    | (Throw e, st') => (Throw e, st')
    end.
Proof.
  intros Hget Hfalsy. unfold getTargetPropToSet, bind at 1.
  rewrite Hget, Hfalsy. unfold bind, alloc, ret.
  by destruct (set_prop _ _ _ _) as [[[]|e] st'].
Qed.

Lemma getTargetPropToSet_present pcs obj key i st prop :
  get_prop obj key st = (Ret prop, st) → truthy prop = true →
  getTargetPropToSet pcs obj key i st = (Ret prop, st).
Proof.
  intros Hget Htruthy. unfold getTargetPropToSet, bind.
  by rewrite Hget, Htruthy.
Qed.

(** The container allocated for a missing property is still there, as it
    was created, when the step returns or throws. *)
Lemma getTargetPropToSet_created pcs obj key i st prop :
  get_prop obj key st = (Ret prop, st) → truthy prop = false →
  ∃ r st', getTargetPropToSet pcs obj key i st = (r, st') ∧
    heap st' !! length (heap st)
      = Some (new_container (or_step (items pcs !! (i + 1)) (finalKey pcs))) ∧
    ∀ v, r = Ret v → v = VRef (length (heap st)).
Proof.
  intros Hget Hfalsy.
  rewrite (getTargetPropToSet_missing _ _ _ _ _ _ Hget Hfalsy).
  set (c := new_container _). set (n := length (heap st)).
  destruct (set_prop obj key (VRef n) (State (heap st ++ [c]) (console st)))
    as [r st'] eqn:Hset.
  apply set_prop_frame in Hset as (_ & _ & Hother). simpl in Hother.
  assert (heap st' !! n = Some c) as Hn.
  { rewrite Hother.
    - rewrite lookup_app_r by done. by rewrite Nat.sub_diag.
    - intros ->. apply get_prop_ref_inv in Hget. unfold n in Hget. lia. }
  destruct r as [[]|e]; eexists _, _; (split; [reflexivity|]); split; try done.
  by intros v [= <-].
Qed.

End SetProp.

(** ** Which keys ask for an array *)

Lemma append_cons c s t : String c s +:+ t = String c (s +:+ t).
Proof. reflexivity. Qed.

Lemma digit_not_white d :
  is_Some (JSString.digit_of d) → JSString.is_white d = false.
Proof.
  unfold JSString.digit_of, JSString.is_white. intros [z Hz].
  destruct (Nat.leb 48 _ && Nat.leb _ 57) eqn:E; [|done].
  apply andb_prop in E as [E1%Nat.leb_le E2%Nat.leb_le].
  set (n := nat_of_ascii d) in *.
  replace (Nat.leb n 13) with false by (symmetry; apply Nat.leb_gt; lia).
  replace (Nat.eqb n 32) with false by (symmetry; apply Nat.eqb_neq; lia).
  replace (Nat.eqb n 160) with false by (symmetry; apply Nat.eqb_neq; lia).
  by rewrite andb_false_r.
Qed.

Lemma digit_not_sign d :
  is_Some (JSString.digit_of d) →
  Ascii.eqb d "-"%char = false ∧ Ascii.eqb d "+"%char = false.
Proof.
  intros [z Hz].
  split; apply Ascii.eqb_neq; intros ->; discriminate Hz.
Qed.

Lemma trim_start_cut s :
  ∃ ws, s = ws +:+ JSString.trim_start s ∧ all_white ws = true.
Proof.
  induction s as [|c s (ws & Hs & Hws)]; [by exists ""|].
  cbn [JSString.trim_start]. destruct (JSString.is_white c) eqn:Hc.
  - exists (String c ws). simpl. rewrite Hc, Hws, append_cons, <- Hs. done.
  - by exists "".
Qed.

Lemma trim_start_white ws s :
  all_white ws = true → JSString.trim_start (ws +:+ s) = JSString.trim_start s.
Proof.
  induction ws as [|c ws IH]; [done|]. simpl.
  intros [Hc Hws]%andb_prop. rewrite Hc. by apply IH.
Qed.

Lemma parseInt10_integer_prefix k :
  is_Some (JSString.parseInt10 k) ↔ integer_prefix k.
Proof.
  unfold JSString.parseInt10. split.
  - destruct (trim_start_cut k) as (ws & Hk & Hws).
    destruct (JSString.trim_start k) as [|c t] eqn:Et; [by intros [? [=]]|].
    destruct (Ascii.eqb c "-"%char) eqn:Hminus;
      [|destruct (Ascii.eqb c "+"%char) eqn:Hplus].
    + apply Ascii.eqb_eq in Hminus as ->.
      destruct t as [|d rest]; simpl; [by intros [? [=]]|].
      case_bool_decide as Hd; [|by intros [? [=]]]. intros _.
      exists ws, "-", d, rest. rewrite Hk at 1. repeat split; auto.
    + apply Ascii.eqb_eq in Hplus as ->.
      destruct t as [|d rest]; simpl; [by intros [? [=]]|].
      case_bool_decide as Hd; [|by intros [? [=]]]. intros _.
      exists ws, "+", d, rest. rewrite Hk at 1. repeat split; auto.
    + simpl. case_bool_decide as Hd; [|by intros [? [=]]]. intros _.
      exists ws, "", c, t. rewrite Hk at 1. repeat split; auto.
  - intros (ws & sign & d & rest & -> & Hws & Hsign & Hd).
    rewrite trim_start_white by done.
    destruct (digit_not_sign d Hd) as [Hm Hp].
    pose proof (digit_not_white d Hd) as Hw.
    destruct Hsign as [-> | [-> | ->]]; simpl.
    + rewrite Hw, Hm, Hp. simpl. by rewrite bool_decide_eq_true_2.
    + by rewrite bool_decide_eq_true_2.
    + by rewrite bool_decide_eq_true_2.
Qed.

Lemma isArrayKey_spec k :
  isArrayKey k = true ↔ k = "" ∨ is_Some (JSString.parseInt10 k).
Proof.
  unfold isArrayKey. rewrite orb_true_iff, !bool_decide_eq_true. tauto.
Qed.

(** ** The look-ahead of the auto-vivifying step *)




(** C7, as the code has it. The container created for a missing
    intermediate is an array exactly when the next key is the empty step or
    reads as a base-10 integer of either sign: optional white space, an
    optional [+] or [-], then at least one decimal digit, whatever follows.
    It is a plain object exactly otherwise. The key [-1] asks for an array. *)
Theorem C7_array_kind_for_signed_integer_prefix `{Host}
    (pcs : path_pieces) (obj : val) (key : string) (i : nat) (st : state)
    (prop : val) (k : string) :
  get_prop obj key st = (Ret prop, st) → truthy prop = false →
  or_step (items pcs !! (i + 1)) (finalKey pcs) = Some k →
  integer_prefix "-1" ∧
  ∃ r st', getTargetPropToSet pcs obj key i st = (r, st') ∧
    (heap st' !! length (heap st) = Some (Arr 0 ∅) ↔ k = "" ∨ integer_prefix k) ∧
    (heap st' !! length (heap st) = Some (Obj ∅) ↔ ¬ (k = "" ∨ integer_prefix k)).
Proof.
  intros Hget Hfalsy Hnext. split.
  { exists "", "-", "1"%char, "". repeat split; auto. }
  destruct (getTargetPropToSet_created pcs obj key i st prop Hget Hfalsy)
    as (r & st' & Hrun & Hnew & _).
  exists r, st'. split; [done|].
  rewrite Hnew, Hnext. unfold new_container.
  rewrite <- parseInt10_integer_prefix, <- isArrayKey_spec.
  destruct (isArrayKey k); split; split; try done; try congruence.
Qed.

Lemma C7_array_kind_witness :
  get_prop (VRef 0) "a" empty_model = (Ret VUndef, empty_model) ∧
  truthy VUndef = false ∧
  or_step ([ "a" ] !! 1) (Some "-1") = Some "-1" ∧
  integer_prefix "-1" ∧
  ∃ r st',
    getTargetPropToSet (H := digits_host)
      (PathPieces ["a"] (Some "-1")) (VRef 0) "a" 0 empty_model = (r, st') ∧
    (heap st' !! 1 = Some (Arr 0 ∅) ↔ "-1" = "" ∨ integer_prefix "-1") ∧
    (heap st' !! 1 = Some (Obj ∅) ↔ ¬ ("-1" = "" ∨ integer_prefix "-1")).
Proof.
  split; [reflexivity|]. split; [reflexivity|]. split; [reflexivity|].
  apply (C7_array_kind_for_signed_integer_prefix (H := digits_host)
           (PathPieces ["a"] (Some "-1")) (VRef 0) "a" 0 empty_model VUndef "-1");
    reflexivity.
Defined.

(** C7 as the specification states it fails on the path [a.-1]: the next
    step [-1] is a negative integer, not an array key in the words of the
    specification, and the code creates an array for [a]. *)
Lemma C7_counterexample_negative_index :
  claimed_array_key "-1" = false ∧
  isArrayKey "-1" = true ∧
  setValue (H := digits_host) (VStr "a.-1") (VStr "x") (VRef 0) "." empty_model
    = (Ret VUndef, State [Obj {[ "a" := VRef 1 ]}; Arr 0 {[ "-1" := VStr "x" ]}] []).
Proof. repeat split; vm_compute; reflexivity. Qed.

(** ** Reading: [getValue] *)

Lemma extends_refl st : extends st st.
Proof. split; [done|]. exists []. by rewrite app_nil_r. Qed.

Lemma extends_trans st1 st2 st3 : extends st1 st2 → extends st2 st3 → extends st1 st3.
Proof.
  intros [Hc1 [t1 Ht1]] [Hc2 [t2 Ht2]]. split; [congruence|].
  exists (t1 ++ t2). by rewrite Ht2, Ht1, app_assoc.
Qed.

Lemma slice_last_extends o st r st' : slice_last o st = (r, st') → extends st st'.
Proof.
  destruct o as [| | | |s|l]; try (intros [= <- <-]; apply extends_refl).
  unfold slice_last, bind, get_heap, throw, alloc.
  destruct (heap st !! l) as [[ps|len ps]|]; try (intros [= <- <-]; apply extends_refl).
  destruct (ps !! "slice"); [intros [= <- <-]; apply extends_refl|].
  destruct (species_ok _); intros [= <- <-]; [|apply extends_refl].
  split; [done|]. by eexists.
Qed.

Lemma piecesReducer_extends o k st r st' :
  piecesReducer o k st = (r, st') → extends st st'.
Proof.
  unfold piecesReducer. destruct (decide (k = "")) as [Hk|Hk].
  - unfold bind. destruct (slice_last o st) as [[t|e] st1] eqn:Hslice.
    + intros Hget. apply get_prop_eq in Hget as ->. by eapply slice_last_extends.
    + intros [= <- <-]. by eapply slice_last_extends.
  - intros Hget. apply get_prop_eq in Hget as ->. apply extends_refl.
Qed.

Lemma resolve_from_extends i pcs o st r st' :
  reduce_from (λ obj key _, piecesReducer obj key) i pcs o st = (r, st') →
  extends st st'.
Proof.
  revert i o st. induction pcs as [|k pcs IH]; intros i o st.
  - intros [= <- <-]. apply extends_refl.
  - cbn [reduce_from]. unfold bind at 1.
    destruct (piecesReducer o k st) as [[o'|e] st1] eqn:Hstep.
    + intros Hrest. eapply extends_trans; [by eapply piecesReducer_extends|by eapply IH].
    + intros [= <- <-]. by eapply piecesReducer_extends.
Qed.

Lemma generatePathPieces_state path separator st r st' :
  generatePathPieces path separator st = (r, st') → st' = st.
Proof. destruct path; by intros [= <- <-]. Qed.

Lemma getValue_try_extends path model separator st r st' :
  getValue_try path model separator st = (r, st') → extends st st'.
Proof.
  unfold getValue_try, bind at 1.
  destruct (generatePathPieces path separator st) as [[pcs|e] st1] eqn:Hgen;
    apply generatePathPieces_state in Hgen as ->.
  - unfold bind, resolve, reduce.
    destruct (reduce_from _ 0 pcs model st) as [[v|e] st1] eqn:Hres;
      intros [= <- <-]; by eapply resolve_from_extends.
  - intros [= <- <-]. apply extends_refl.
Qed.

(** A value that is falsy stays falsy along the steps, and nothing is
    allocated on the way. *)
Lemma piecesReducer_falsy o k st v st' :
  truthy o = false → piecesReducer o k st = (Ret v, st') →
  truthy v = false ∧ st' = st.
Proof.
  intros Ho. unfold piecesReducer. destruct (decide (k = "")) as [->|Hk].
  - destruct o as [| |b|n|s|l]; try done.
    simpl in Ho. apply negb_false_iff, bool_decide_eq_true in Ho as ->.
    vm_compute. by intros [= <- <-].
  - destruct o as [| |b|n|s|l]; try done; try by intros [= <- <-].
    simpl in Ho. apply negb_false_iff, bool_decide_eq_true in Ho as ->.
    unfold get_prop, ret, string_prop. intros [= <- <-]. split; [|done].
    destruct (decide (k = "length")); [done|].
    destruct (canonical_index k) as [i|]; [|done].
    by destruct (N.to_nat i).
Qed.

Lemma resolve_from_falsy i pcs o st v st' :
  truthy o = false →
  reduce_from (λ obj key _, piecesReducer obj key) i pcs o st = (Ret v, st') →
  truthy v = false ∧ st' = st.
Proof.
  revert i o st. induction pcs as [|k pcs IH]; intros i o st Ho.
  - by intros [= <- <-].
  - cbn [reduce_from]. unfold bind at 1.
    destruct (piecesReducer o k st) as [[o'|e] st1] eqn:Hstep; [|done].
    apply piecesReducer_falsy in Hstep as [Ho' ->]; [|done].
    by apply IH.
Qed.

(** [getValue] in terms of the fold over the steps. *)
Lemma getValue_of_resolve p m separator pcs st st' v :
  generatePathPieces (VStr p) separator st = (Ret pcs, st) →
  resolve pcs m st = (Ret v, st') →
  getValue (VStr p) m separator st = (Ret (if truthy v then v else VNull), st').
Proof.
  intros Hgen Hres. unfold getValue. simpl. destruct (truthy m) eqn:Hm; simpl.
  - unfold try_catch, getValue_try, bind. by rewrite Hgen, Hres.
  - apply resolve_from_falsy in Hres as [-> ->]; done.
Qed.

Example getValue_missing :
  getValue (VStr "user.email") (VRef 0) "." user_model = (Ret VNull, user_model).
Proof. reflexivity. Qed.

(** C9. [getValue] only reads: whatever the path, the model and the
    separator, the console is as it was and the heap is the old heap
    followed by the arrays that [slice] made on the way, so every object
    that was there is unchanged. *)
Theorem C9_getValue_leaves_every_object_unchanged
    (path model : val) (separator : string) (st : state) :
  ∃ r tmp,
    getValue path model separator st = (r, State (heap st ++ tmp) (console st)) ∧
    ∀ l o, heap st !! l = Some o → (heap st ++ tmp) !! l = Some o.
Proof.
  assert (∃ r st', getValue path model separator st = (r, st') ∧ extends st st')
    as (r & [h c] & Hrun & Hc & tmp & Hh).
  { unfold getValue. destruct (eq_null path || negb (truthy model)).
    - eexists _, _. split; [reflexivity|apply extends_refl].
    - unfold try_catch.
      destruct (getValue_try path model separator st) as [[v|e] st'] eqn:Htry;
        eexists _, _; (split; [reflexivity|]); by eapply getValue_try_extends. }
  simpl in Hc, Hh. subst h c. exists r, tmp. split; [done|].
  intros l o Hl. by apply lookup_app_l_Some.
Qed.

Lemma C9_getValue_witness :
  heap user_model !! 1 = Some (Obj {[ "name" := VStr "John Doe" ]}) ∧
  ∃ r tmp,
    getValue (VStr "user.") (VRef 0) "." user_model
      = (r, State (heap user_model ++ tmp) (console user_model)) ∧
    (heap user_model ++ tmp) !! 1 = Some (Obj {[ "name" := VStr "John Doe" ]}).
Proof.
  split; [reflexivity|].
  destruct (C9_getValue_leaves_every_object_unchanged (VStr "user.") (VRef 0) "." user_model)
    as (r & tmp & Hrun & Hold).
  exists r, tmp. split; [exact Hrun|]. apply Hold. reflexivity.
Defined.

(** C4. Neither operation raises, whatever it is given: [getValue] returns
    a value, and returns [null] when its [try] block throws; [setValue]
    returns, and with a falsy path or a falsy model it does nothing at all. *)
Theorem C4_getValue_and_setValue_never_raise `{Host}
    (path value model : val) (separator : string) (st : state) :
  (∃ v st', getValue path model separator st = (Ret v, st')) ∧
  (∀ e st1, getValue_try path model separator st = (Throw e, st1) →
     ∃ st', getValue path model separator st = (Ret VNull, st')) ∧
  (∃ v st', setValue path value model separator st = (Ret v, st')) ∧
  (truthy path = false ∨ truthy model = false →
     setValue path value model separator st = (Ret VNull, st)).
Proof.
  split; [|split; [|split]].
  - unfold getValue. destruct (eq_null path || negb (truthy model)); [by eexists _, _|].
    unfold try_catch. destruct (getValue_try _ _ _ _) as [[v|e] st']; by eexists _, _.
  - intros e st1 Htry. unfold getValue.
    destruct (eq_null path || negb (truthy model)); [by eexists|].
    unfold try_catch. rewrite Htry. by eexists.
  - unfold setValue. destruct (negb _); [by eexists _, _|].
    unfold try_catch. destruct (setValue_try _ _ _ _ _) as [[v|e] st']; by eexists _, _.
  - intros Hfalsy. unfold setValue.
    destruct (truthy path) eqn:Hp; [|by rewrite Hp].
    destruct Hfalsy as [?|Hm]; [done|]. by rewrite Hm.
Qed.

Lemma C4_never_raise_witness :
  (truthy (VStr "") = false ∨ truthy (VRef 0) = false) ∧
  setValue (H := digits_host) (VStr "") (VNum (Int 1)) (VRef 0) "." empty_model
    = (Ret VNull, empty_model).
Proof.
  split; [left; reflexivity|].
  apply (C4_getValue_and_setValue_never_raise (H := digits_host)
           (VStr "") (VNum (Int 1)) (VRef 0) "." empty_model).
  left; reflexivity.
Defined.

Example setValue_null_model :
  setValue (H := digits_host) (VStr "a") (VNum (Int 1)) VNull "." empty_model
    = (Ret VNull, empty_model).
Proof. reflexivity. Qed.

Example setValue_failure_is_logged :
  setValue (H := digits_host) (VStr "a.b") (VNum (Int 1)) (VNum (Int 4)) "." empty_model
    = (Ret VUndef, State [Obj ∅; Obj ∅] [TypeError]).
Proof. reflexivity. Qed.

(** ** Writing: what the traversal of [setValue] leaves alone *)

Lemma only_fills_refl ks h : only_fills ks h h.
Proof. intros l k. by left. Qed.

Lemma only_fills_trans ks h1 h2 h3 :
  only_fills ks h1 h2 → only_fills ks h2 h3 → only_fills ks h1 h3.
Proof.
  intros H12 H23 l k. destruct (H12 l k) as [E1|R1]; [|by right].
  destruct (H23 l k) as [E2|[Hk R2]]; [left; congruence|].
  right. split; [done|]. by rewrite <- E1.
Qed.

Lemma only_fills_mono ks ks' h h' :
  ks ⊆ ks' → only_fills ks h h' → only_fills ks' h h'.
Proof.
  intros Hsub Hfill l k. destruct (Hfill l k) as [E|[Hk R]]; [by left|].
  right. split; [by apply Hsub|done].
Qed.

Lemma only_fills_alloc ks h c : own_props c = ∅ → only_fills ks h (h ++ [c]).
Proof.
  intros Hc l k. left. unfold own_at.
  destruct (h !! l) as [o|] eqn:E.
  - by rewrite (lookup_app_l_Some _ _ _ _ E).
  - apply lookup_ge_None in E.
    destruct ((h ++ [c]) !! l) as [o|] eqn:E'; [|done].
    rewrite lookup_app_r in E' by done.
    destruct (l - length h); [|done]. injection E' as <-. by rewrite Hc.
Qed.

Lemma new_container_empty nextKey : own_props (new_container nextKey) = ∅.
Proof. destruct nextKey as [k|]; [|done]. simpl. by destruct (isArrayKey k). Qed.

(** The truthy own properties survive a change that only fills. *)
Lemma only_fills_keeps ks h h' l k w :
  only_fills ks h h' → own_at h l k = Some w → truthy w = true →
  own_at h' l k = Some w.
Proof.
  intros Hfill Hw Ht. destruct (Hfill l k) as [E|[_ R]]; [congruence|].
  apply R in Hw. congruence.
Qed.

Lemma get_prop_ref_Ret l k st v st' :
  get_prop (VRef l) k st = (Ret v, st') →
  ∃ ob, heap st !! l = Some ob ∧ v = obj_prop ob k.
Proof.
  unfold get_prop, bind, get_heap. destruct (heap st !! l) as [ob|]; [|done].
  intros [= <- <-]. by exists ob.
Qed.

Section Traversal.
Context `{Host}.

(** Assigning to a property that reads falsy changes that own property and
    no other. *)
Lemma set_prop_only_fills l0 key v st r st' :
  (∀ ob, heap st !! l0 = Some ob → truthy (obj_prop ob key) = false) →
  set_prop (VRef l0) key v st = (r, st') →
  only_fills [key] (heap st) (heap st').
Proof.
  intros Hfalsy. unfold set_prop, bind, get_heap, put_heap, throw.
  destruct (heap st !! l0) as [ob|] eqn:Hl0;
    [|intros [= <- <-]; apply only_fills_refl].
  specialize (Hfalsy ob eq_refl).
  assert (∀ ob', (∀ k', k' ≠ key → own_props ob' !! k' = own_props ob !! k') →
            (∀ w, own_props ob !! key = Some w → truthy w = false) →
            only_fills [key] (heap st) (<[l0:=ob']> (heap st))) as Hupd.
  { intros ob' Hsame Hkey l k.
    destruct (decide ((l, k) = (l0, key))) as [[= -> ->]|Hne].
    - right. split; [by apply list_elem_of_singleton|].
      intros w. unfold own_at. rewrite Hl0. apply Hkey.
    - left. unfold own_at. destruct (decide (l = l0)) as [->|Hl].
      + rewrite list_lookup_insert_eq by (by eapply lookup_lt_Some).
        rewrite Hl0. apply Hsame. congruence.
      + by rewrite list_lookup_insert_ne. }
  destruct ob as [ps|len ps]; simpl in Hfalsy.
  - intros [= <- <-]. apply Hupd; simpl.
    + intros k' Hk'. by rewrite lookup_insert_ne.
    + intros w Hw. by rewrite Hw in Hfalsy.
  - destruct (decide (key = "length")) as [->|Hkey].
    + destruct (ToNumber (heap st) v) as [n|err];
        [|intros [= <- <-]; apply only_fills_refl].
      destruct (uint32_of n) as [newLen|];
        [|intros [= <- <-]; apply only_fills_refl].
      intros [= <- <-]. simpl.
      assert (len = 0%N) as -> by (by destruct len).
      unfold ArraySetLength. rewrite decide_True by lia.
      intros l k. left. unfold own_at.
      destruct (decide (l = l0)) as [->|Hl].
      * rewrite list_lookup_insert_eq by (by eapply lookup_lt_Some).
        by rewrite Hl0.
      * by rewrite list_lookup_insert_ne.
    + destruct (array_index key); intros [= <- <-]; apply Hupd; simpl;
        try (intros k' Hk'; by rewrite lookup_insert_ne);
        intros w Hw; by rewrite Hw in Hfalsy.
Qed.

(** One step of the traversal: the console is left alone, and in the heap
    only the own property named by the step can change, when it held no
    truthy value. *)
Lemma getTargetPropToSet_only_fills pcs obj key i st r st' :
  getTargetPropToSet pcs obj key i st = (r, st') →
  console st' = console st ∧ only_fills [key] (heap st) (heap st').
Proof.
  destruct (get_prop obj key st) as [[prop|e] st1] eqn:Hget;
    pose proof (get_prop_eq _ _ _ _ _ Hget) as ->.
  - destruct (truthy prop) eqn:Hprop.
    + rewrite (getTargetPropToSet_present _ _ _ _ _ _ Hget Hprop).
      intros [= <- <-]. split; [done|apply only_fills_refl].
    + rewrite (getTargetPropToSet_missing _ _ _ _ _ _ Hget Hprop).
      set (c := new_container _).
      destruct (set_prop obj key (VRef (length (heap st)))
                  (State (heap st ++ [c]) (console st))) as [r' st2] eqn:Hset.
      assert (console st2 = console st ∧ only_fills [key] (heap st) (heap st2)) as Hgoal.
      { split; [by apply set_prop_frame in Hset as [? _]|].
        eapply only_fills_trans;
          [apply (only_fills_alloc _ _ c), new_container_empty|].
        destruct obj as [| | | | |l0];
          try (injection Hset as <- <-; apply only_fills_refl).
        refine (set_prop_only_fills l0 key _
                  (State (heap st ++ [c]) (console st)) _ _ _ Hset). simpl.
        apply get_prop_ref_Ret in Hget as (ob & Hob & ->).
        intros ob'. rewrite (lookup_app_l_Some _ _ _ _ Hob). by intros [= <-]. }
      destruct r' as [[]|e]; by intros [= <- <-].
  - unfold getTargetPropToSet, bind. rewrite Hget.
    intros [= <- <-]. split; [done|apply only_fills_refl].
Qed.

Lemma reduce_from_only_fills pcs i ks acc st r st' :
  reduce_from (getTargetPropToSet pcs) i ks acc st = (r, st') →
  console st' = console st ∧ only_fills ks (heap st) (heap st').
Proof.
  revert i acc st. induction ks as [|k ks IH]; intros i acc st.
  - intros [= <- <-]. split; [done|apply only_fills_refl].
  - cbn [reduce_from]. unfold bind at 1.
    assert ([k] ⊆ k :: ks) as Hhead.
    { intros x Hx. apply list_elem_of_singleton in Hx as ->. constructor. }
    assert (ks ⊆ k :: ks) as Htail by (intros x Hx; by constructor).
    destruct (getTargetPropToSet pcs acc k i st) as [[acc'|e] st1] eqn:Hstep;
      apply getTargetPropToSet_only_fills in Hstep as [Hc1 Hk1];
      apply (only_fills_mono _ _ _ _ Hhead) in Hk1.
    + intros Hrest. apply IH in Hrest as [Hc2 Hk2].
      apply (only_fills_mono _ _ _ _ Htail) in Hk2.
      split; [congruence|by eapply only_fills_trans].
    + by intros [= <- <-].
Qed.

Lemma target_of_only_fills pcs model st r st' :
  target_of pcs model st = (r, st') →
  console st' = console st ∧ only_fills (items pcs) (heap st) (heap st').
Proof.
  unfold target_of, reduce, bind.
  destruct (reduce_from _ 0 _ model st) as [[t|e] st1] eqn:Hred;
    intros [= <- <-]; by eapply reduce_from_only_fills.
Qed.

Lemma push_frame o v st r st' :
  push o v st = (r, st') →
  console st' = console st ∧
  length (heap st') = length (heap st) ∧
  ∀ l, o ≠ VRef l → heap st' !! l = heap st !! l.
Proof.
  destruct o as [| | | | |l0]; try (intros [= <- <-]; done).
  unfold push, bind, get_heap, put_heap, throw, ret.
  destruct (heap st !! l0) as [[ps|len ps]|]; try (intros [= <- <-]; done).
  destruct (ps !! "push"); [intros [= <- <-]; done|].
  destruct (decide (len + 1 < 2 ^ 32)%N) as [Hlt|Hlt]; intros [= <- <-]; simpl;
    (split; [done|]); (split; [apply length_insert|]);
    intros l Hl; apply list_lookup_insert_ne; congruence.
Qed.

Lemma final_write_frame t fk v st r st' :
  final_write t fk v st = (r, st') →
  console st' = console st ∧
  length (heap st') = length (heap st) ∧
  ∀ l, t ≠ VRef l → heap st' !! l = heap st !! l.
Proof.
  unfold final_write. destruct fk as [k|].
  - destruct (decide (k = "")) as [Hk|Hk].
    + unfold bind. destruct (push t v st) as [[x|e] st1] eqn:Hpush;
        intros [= <- <-]; by apply push_frame in Hpush.
    + apply set_prop_frame.
  - apply set_prop_frame.
Qed.

Lemma own_at_insert h l o o' k :
  h !! l = Some o → own_at (<[l := o']> h) l k = own_props o' !! k.
Proof.
  intros Hl. unfold own_at.
  by rewrite list_lookup_insert_eq by (by eapply lookup_lt_Some).
Qed.

Lemma set_prop_other_keys l s v st o r st' k :
  heap st !! l = Some o → set_prop (VRef l) s v st = (r, st') →
  k ≠ s → s ≠ "length" ∨ (∃ ps, o = Obj ps) →
  own_at (heap st') l k = own_at (heap st) l k.
Proof.
  intros Hl Hset Hk Hs. unfold set_prop, bind, get_heap, put_heap in Hset.
  rewrite Hl in Hset. unfold own_at at 2. rewrite Hl.
  destruct o as [ps|len ps].
  - injection Hset as <- <-. simpl. rewrite (own_at_insert _ _ _ _ _ Hl).
    simpl. by rewrite lookup_insert_ne.
  - destruct Hs as [Hs|[ps' [=]]]. rewrite decide_False in Hset by done.
    destruct (array_index s); injection Hset as <- <-; simpl;
      rewrite (own_at_insert _ _ _ _ _ Hl); simpl; by rewrite lookup_insert_ne.
Qed.

(** The final write changes, in its target, only what the final key names. *)
Lemma final_write_changes l fk v st o r st' k :
  heap st !! l = Some o → final_write (VRef l) fk v st = (r, st') →
  own_at (heap st') l k = own_at (heap st) l k ∨ final_location fk o k.
Proof.
  intros Hl. unfold final_write, final_location. destruct fk as [s|].
  - destruct (decide (s = "")) as [->|Hs].
    + unfold bind at 1, push, bind at 1, get_heap. rewrite Hl.
      destruct o as [ps|len ps]; [intros [= <- <-]; by left|].
      destruct (decide (k = pretty len)) as [->|Hk]; [right; by eexists _, _|].
      intros Hpush. left. revert Hpush.
      destruct (ps !! "push"); [intros [= <- <-]; done|].
      unfold bind, put_heap, ret, throw.
      destruct (decide (len + 1 < 2 ^ 32)%N) as [Hlt|Hlt]; intros [= <- <-]; simpl;
        rewrite (own_at_insert _ _ _ _ _ Hl); unfold own_at; rewrite Hl; simpl;
        by rewrite lookup_insert_ne.
    + intros Hset. destruct (decide (k = s)) as [->|Hk]; [right; by left|].
      destruct (decide (s = "length")) as [->|Hlen].
      * destruct o as [ps|len ps]; [|right; right; split; [done|by eexists _, _]].
        left. eapply set_prop_other_keys; eauto.
      * left. eapply set_prop_other_keys; eauto.
  - intros Hset. destruct (decide (k = "undefined")) as [->|Hk]; [by right|].
    left. eapply set_prop_other_keys; eauto.
Qed.

(** What the final write can change anywhere in the heap. *)
Lemma final_write_effect t fk v st r st' l k :
  final_write t fk v st = (r, st') →
  own_at (heap st') l k = own_at (heap st) l k ∨
  (t = VRef l ∧ ∃ o, heap st !! l = Some o ∧ final_location fk o k).
Proof.
  intros Hfinal. destruct (decide (t = VRef l)) as [->|Hl].
  - destruct (heap st !! l) as [o|] eqn:Ho.
    + destruct (final_write_changes _ _ _ _ _ _ _ k Ho Hfinal) as [Hsame|Hloc];
        [by left | right; split; [done|by exists o]].
    + left. apply final_write_frame in Hfinal as (_ & Hlen & _).
      unfold own_at. rewrite Ho.
      apply lookup_ge_None in Ho. rewrite <- Hlen in Ho.
      by rewrite (lookup_ge_None_2 _ _ Ho).
  - left. apply final_write_frame in Hfinal as (_ & _ & Hother).
    unfold own_at. by rewrite Hother.
Qed.

End Traversal.

Lemma same_kind_refl o : same_kind o o = true.
Proof. by destruct o. Qed.

Lemma same_kind_trans o1 o2 o3 :
  same_kind o1 o2 = true → same_kind o2 o3 = true → same_kind o1 o3 = true.
Proof. by destruct o1, o2, o3. Qed.

Lemma grown_refl o : grown o o.
Proof. destruct o; simpl; [done|lia]. Qed.

Lemma grown_trans o1 o2 o3 : grown o1 o2 → grown o2 o3 → grown o1 o3.
Proof. destruct o1, o2, o3; simpl; try done; lia. Qed.

Lemma grown_same_kind o o' : grown o o' → same_kind o o' = true.
Proof. by destruct o, o'. Qed.

Lemma reduce_from_app f i l1 l2 acc st :
  reduce_from f i (l1 ++ l2) acc st =
    match reduce_from f i l1 acc st with
    | (Ret a, st1) => reduce_from f (i + length l1) l2 a st1
    | (Throw e, st1) => (Throw e, st1)
    end.
Proof.
  revert i acc st. induction l1 as [|x l1 IH]; intros i acc st.
  - simpl. by rewrite Nat.add_0_r.
  - cbn [app reduce_from length]. unfold bind.
    destruct (f acc x i st) as [[a|e] st1]; [|done].
    rewrite IH. by replace (S i + length l1) with (i + S (length l1)) by lia.
Qed.

Section Visits.
Context `{Host}.

Lemma traversal_changes_refl pcs model st0 h : traversal_changes pcs model st0 h h.
Proof.
  split.
  - intros l o Hl. exists o. split; [done|]. split; [apply grown_refl|by left].
  - intros l k. by left.
Qed.

Lemma traversal_changes_trans pcs model st0 h1 h2 h3 :
  traversal_changes pcs model st0 h1 h2 → traversal_changes pcs model st0 h2 h3 →
  traversal_changes pcs model st0 h1 h3.
Proof.
  intros [Ho12 Hk12] [Ho23 Hk23]. split.
  - intros l o Hl. destruct (Ho12 l o Hl) as (o2 & Hl2 & Hg2 & Hc2).
    destruct (Ho23 l o2 Hl2) as (o3 & Hl3 & Hg3 & Hc3).
    exists o3. split; [done|]. split; [by eapply grown_trans|].
    destruct Hc2 as [->|Hv]; [|by right]. destruct Hc3 as [->|Hv]; [by left|by right].
  - intros l k. destruct (Hk23 l k) as [E23|F23]; [|by right].
    destruct (Hk12 l k) as [E12|F12]; [left; congruence|].
    right. destruct F12 as (i & sti & oi & Hi & Hp & Hoi & Hf & Hown).
    exists i, sti, oi. repeat split; try done. congruence.
Qed.

Lemma traversal_changes_alloc pcs model st0 h c :
  own_props c = ∅ → traversal_changes pcs model st0 h (h ++ [c]).
Proof.
  intros Hc. split.
  - intros l o Hl. exists o. split; [by apply lookup_app_l_Some|].
    split; [apply grown_refl|by left].
  - intros l k. left.
    destruct (only_fills_alloc [] h c Hc l k) as [E|[Hin _]]; [done|].
    by apply elem_of_nil in Hin.
Qed.

(** Assigning to a property that reads falsy: the object stays of its kind
    and no shorter, its other own properties are as they were, and the
    property assigned holds the new value unless it is the [length] of an
    array. *)
Lemma set_prop_fills l key v st r st' oi :
  heap st !! l = Some oi → truthy (obj_prop oi key) = false →
  set_prop (VRef l) key v st = (r, st') →
  ∃ o', st' = State (<[l := o']> (heap st)) (console st) ∧ grown oi o' ∧
    (∀ k', k' ≠ key → own_props o' !! k' = own_props oi !! k') ∧
    (own_props o' !! key = own_props oi !! key ∨ own_props o' !! key = Some v).
Proof.
  intros Hl Hfalsy. unfold set_prop, bind, get_heap, put_heap, throw. rewrite Hl.
  assert (st = State (<[l := oi]> (heap st)) (console st)) as Hid.
  { rewrite list_insert_id by done. by destruct st. }
  assert (∀ r0, (r0, st) = (r, st') →
    ∃ o', st' = State (<[l := o']> (heap st)) (console st) ∧ grown oi o' ∧
      (∀ k', k' ≠ key → own_props o' !! k' = own_props oi !! k') ∧
      (own_props o' !! key = own_props oi !! key ∨ own_props o' !! key = Some v))
    as Hsame.
  { intros r0 [= _ <-]. exists oi. split; [done|]. split; [apply grown_refl|].
    split; [done|by left]. }
  destruct oi as [ps|len ps].
  - intros [= <- <-]. eexists. split; [done|]. split; [done|]. split.
    + intros k' Hk'. simpl. by rewrite lookup_insert_ne.
    + right. simpl. by rewrite lookup_insert_eq.
  - destruct (decide (key = "length")) as [->|Hkey].
    + simpl in Hfalsy. assert (len = 0%N) as -> by (by destruct len).
      destruct (ToNumber (heap st) v) as [n|e]; [|apply Hsame].
      destruct (uint32_of n) as [newLen|]; [|apply Hsame].
      intros [= <- <-]. unfold ArraySetLength. rewrite decide_True by lia.
      eexists. split; [done|]. split; [simpl; lia|]. split; [done|by left].
    + destruct (array_index key) as [i|]; intros [= <- <-];
        (eexists; split; [done|]; split; [simpl; lia|]; split;
          [intros k' Hk'; simpl; by rewrite lookup_insert_ne
          |right; simpl; by rewrite lookup_insert_eq]).
Qed.

(** One step of the traversal, looked up in the container that the steps
    before it reached. *)
Lemma getTargetPropToSet_changes pcs model st0 done k acc st r st' :
  items pcs !! length done = Some k →
  take (length done) (items pcs) = done →
  reduce_from (getTargetPropToSet pcs) 0 done model st0 = (Ret acc, st) →
  getTargetPropToSet pcs acc k (length done) st = (r, st') →
  console st' = console st ∧ traversal_changes pcs model st0 (heap st) (heap st').
Proof.
  intros Hk Htake Hdone.
  destruct (get_prop acc k st) as [[prop|e] st1] eqn:Hget;
    pose proof (get_prop_eq _ _ _ _ _ Hget) as ->.
  - destruct (truthy prop) eqn:Hprop.
    + rewrite (getTargetPropToSet_present _ _ _ _ _ _ Hget Hprop).
      intros [= <- <-]. split; [done|apply traversal_changes_refl].
    + rewrite (getTargetPropToSet_missing _ _ _ _ _ _ Hget Hprop).
      set (c := new_container _). set (n := length (heap st)).
      set (st1 := State (heap st ++ [c]) (console st)).
      assert (own_props c = ∅) as Hc by apply new_container_empty.
      destruct (set_prop acc k (VRef n) st1) as [r' st2] eqn:Hset.
      assert (console st2 = console st ∧
              traversal_changes pcs model st0 (heap st) (heap st2)) as Hgoal.
      { destruct acc as [| | | | |l];
          try (injection Hset as <- <-; split; [done|];
               by apply traversal_changes_alloc).
        apply get_prop_ref_Ret in Hget as (oi & Hoi & ->).
        assert (heap st1 !! l = Some oi) as Hoi1 by (by apply lookup_app_l_Some).
        destruct (set_prop_fills _ _ _ _ _ _ _ Hoi1 Hprop Hset)
          as (o' & -> & Hgrown & Hother & Hkey).
        split; [done|]. simpl.
        assert (passes pcs model st0 (length done) l st) as Hpass
          by (unfold passes; by rewrite Htake).
        split.
        - intros l0 o0 Hl0. destruct (decide (l0 = l)) as [->|Hne].
          + rewrite Hoi in Hl0. injection Hl0 as <-. exists o'.
            split; [apply list_lookup_insert_eq; by eapply lookup_lt_Some|].
            split; [done|]. right. by exists (length done), k, st.
          + exists o0. rewrite list_lookup_insert_ne by done.
            split; [by apply lookup_app_l_Some|]. split; [apply grown_refl|by left].
        - intros l0 k0. destruct (decide (l0 = l)) as [->|Hne].
          + rewrite (own_at_insert _ _ _ _ _ Hoi1). unfold own_at at 1. rewrite Hoi.
            destruct (decide (k0 = k)) as [->|Hk0]; [|left; by apply Hother].
            destruct Hkey as [Hkey|Hkey]; [by left|].
            right. exists (length done), st, oi. repeat split; try done.
            by rewrite (own_at_insert _ _ _ _ _ Hoi1).
          + left. transitivity (own_at (heap st ++ [c]) l0 k0).
            * unfold own_at. by rewrite list_lookup_insert_ne.
            * destruct (only_fills_alloc [] (heap st) c Hc l0 k0) as [E|[Hin _]];
                [done|by apply elem_of_nil in Hin]. }
      destruct r' as [[]|e]; by intros [= <- <-].
  - unfold getTargetPropToSet, bind. rewrite Hget.
    intros [= <- <-]. split; [done|apply traversal_changes_refl].
Qed.

Lemma reduce_from_changes pcs model st0 rest :
  ∀ done acc st r st',
    items pcs = done ++ rest →
    reduce_from (getTargetPropToSet pcs) 0 done model st0 = (Ret acc, st) →
    reduce_from (getTargetPropToSet pcs) (length done) rest acc st = (r, st') →
    console st' = console st ∧ traversal_changes pcs model st0 (heap st) (heap st').
Proof.
  induction rest as [|k rest IH]; intros done acc st r st' Hitems Hdone.
  - intros [= <- <-]. split; [done|apply traversal_changes_refl].
  - cbn [reduce_from]. unfold bind at 1.
    assert (items pcs !! length done = Some k) as Hk
      by (rewrite Hitems; apply list_lookup_middle; done).
    assert (take (length done) (items pcs) = done) as Htake
      by (rewrite Hitems; apply take_app_length).
    destruct (getTargetPropToSet pcs acc k (length done) st) as [[acc'|e] st1] eqn:Hstep;
      pose proof (getTargetPropToSet_changes _ _ _ _ _ _ _ _ _ Hk Htake Hdone Hstep)
        as [Hc1 Hch1].
    + intros Hrest.
      assert (reduce_from (getTargetPropToSet pcs) 0 (done ++ [k]) model st0
              = (Ret acc', st1)) as Hdone'.
      { rewrite reduce_from_app, Hdone. cbn [reduce_from]. unfold bind.
        by rewrite Nat.add_0_l, Hstep. }
      destruct (IH (done ++ [k]) acc' st1 r st') as [Hc2 Hch2].
      * by rewrite <- app_assoc.
      * done.
      * rewrite length_app. cbn [length]. by rewrite Nat.add_1_r.
      * split; [congruence|by eapply traversal_changes_trans].
    + by intros [= <- <-].
Qed.

Lemma target_of_changes pcs model st r st' :
  target_of pcs model st = (r, st') →
  console st' = console st ∧ traversal_changes pcs model st (heap st) (heap st').
Proof.
  unfold target_of, reduce, bind.
  destruct (reduce_from _ 0 _ model st) as [[t|e] st1] eqn:Hred;
    intros [= <- <-];
    exact (reduce_from_changes pcs model st (items pcs) [] model st _ _
             eq_refl eq_refl Hred).
Qed.

(** The final write leaves its target an object of the same kind. *)
Lemma final_write_kind l fk v st o r st' :
  heap st !! l = Some o → final_write (VRef l) fk v st = (r, st') →
  ∃ o', heap st' !! l = Some o' ∧ same_kind o o' = true.
Proof.
  intros Hl.
  assert (l < length (heap st)) as Hlt by (by eapply lookup_lt_Some).
  assert (∀ k, set_prop (VRef l) k v st = (r, st') →
            ∃ o', heap st' !! l = Some o' ∧ same_kind o o' = true) as Hset.
  { intros k. unfold set_prop, bind, get_heap, put_heap, throw. rewrite Hl.
    destruct o as [ps|len ps].
    - intros [= <- <-]. simpl. rewrite list_lookup_insert_eq by done. by eexists.
    - destruct (decide (k = "length")) as [Hk|Hk].
      + destruct (ToNumber (heap st) v) as [n|e];
          [|intros [= <- <-]; by exists (Arr len ps)].
        destruct (uint32_of n) as [newLen|];
          [|intros [= <- <-]; by exists (Arr len ps)].
        intros [= <- <-]. simpl. rewrite list_lookup_insert_eq by done.
        unfold ArraySetLength. destruct (decide (len ≤ newLen)%N); by eexists.
      + destruct (array_index k); intros [= <- <-]; simpl;
          rewrite list_lookup_insert_eq by done; by eexists. }
  unfold final_write. destruct fk as [k|]; [|apply Hset].
  destruct (decide (k = "")) as [Hk|Hk]; [|apply Hset].
  unfold bind at 1, push, bind at 1, get_heap. rewrite Hl.
  destruct o as [ps|len ps]; [intros [= <- <-]; by exists (Obj ps)|].
  destruct (ps !! "push"); [intros [= <- <-]; by exists (Arr len ps)|].
  unfold bind, put_heap, ret, throw.
  destruct (decide (len + 1 < 2 ^ 32)%N); intros [= <- <-]; simpl;
    rewrite list_lookup_insert_eq by done; by eexists.
Qed.

End Visits.

(** C10. The traversal of [setValue] overwrites no truthy value: a step
    whose property reads truthy returns that value and changes nothing, and
    a step changes the state only when the property read falsy. After
    [setValue], whatever it returned:
    - the console is as it was, or has one more entry;
    - every object that was in the heap is still there and of its kind, and
      it is the very same object unless it is a container in which the
      traversal looked a step up (an array among these is no shorter than
      it was) or the container that the traversal reached;
    - an own property differs from what it was only if the traversal looked
      that step up in that object, it held no truthy value, and it now holds
      the reference to the container created for it; or if it is the one
      the final write names in the container that the traversal reached.
    So every truthy own property elsewhere is kept. *)
Theorem C10_setValue_traversal_keeps_truthy_values `{Host}
    (path value model : val) (separator : string) (st : state) :
  (∀ pcs obj key i prop,
     get_prop obj key st = (Ret prop, st) → truthy prop = true →
     getTargetPropToSet pcs obj key i st = (Ret prop, st)) ∧
  (∀ pcs obj key i r st',
     getTargetPropToSet pcs obj key i st = (r, st') → st' ≠ st →
     ∃ prop, get_prop obj key st = (Ret prop, st) ∧ truthy prop = false) ∧
  (∀ r st', setValue path value model separator st = (r, st') →
     (console st' = console st ∨ ∃ e, console st' = console st ++ [e]) ∧
     (∀ l o, heap st !! l = Some o →
        ∃ o', heap st' !! l = Some o' ∧ same_kind o o' = true ∧
          (o' = o ∨
           ∃ pcs,
             generatePathPieces path separator st = (Ret pcs, st) ∧
             ((visits (PathPieces (pop pcs).1 (pop pcs).2) model st l ∧
               grown o o') ∨
              (∃ st1, target_of (PathPieces (pop pcs).1 (pop pcs).2) model st
                        = (Ret (VRef l), st1))))) ∧
     (∀ l k,
        own_at (heap st') l k = own_at (heap st) l k ∨
        ∃ pcs,
          generatePathPieces path separator st = (Ret pcs, st) ∧
          ((fills (PathPieces (pop pcs).1 (pop pcs).2) model st l k (heap st') ∧
            ∀ w, own_at (heap st) l k = Some w → truthy w = false) ∨
           (∃ st1 o,
              target_of (PathPieces (pop pcs).1 (pop pcs).2) model st
                = (Ret (VRef l), st1) ∧
              heap st1 !! l = Some o ∧
              final_location (pop pcs).2 o k)))).
Proof.
  split; [|split].
  - intros pcs obj key i prop. apply getTargetPropToSet_present.
  - intros pcs obj key i r st' Hrun Hne.
    destruct (get_prop obj key st) as [[prop|e] st1] eqn:Hget;
      pose proof (get_prop_eq _ _ _ _ _ Hget) as ->.
    + exists prop. split; [done|]. destruct (truthy prop) eqn:Hprop; [|done].
      rewrite (getTargetPropToSet_present _ _ _ _ _ _ Hget Hprop) in Hrun.
      by injection Hrun as <- <-.
    + unfold getTargetPropToSet, bind in Hrun. rewrite Hget in Hrun.
      by injection Hrun as <- <-.
  - intros r st' Hrun.
    unfold setValue in Hrun.
    destruct (negb _).
    { injection Hrun as <- <-. split; [by left|]. split; [|by left].
      intros l o Hl. exists o. split; [done|]. split; [apply same_kind_refl|by left]. }
    unfold try_catch, setValue_try, bind at 1 in Hrun.
    destruct (generatePathPieces path separator st) as [[pcs|e] st0] eqn:Hgen;
      pose proof (generatePathPieces_state _ _ _ _ _ Hgen) as ->.
    2:{ injection Hrun as <- <-. simpl. split; [right; by eexists|].
        split; [|by left].
        intros l o Hl. exists o. split; [done|]. split; [apply same_kind_refl|by left]. }
    cbn [pop] in Hrun. unfold bind at 1 in Hrun.
    set (steps := PathPieces (removelast pcs) (last pcs)) in *.
    destruct (target_of steps model st) as [[t|e] st1] eqn:Htarget;
      pose proof (target_of_only_fills _ _ _ _ _ Htarget) as [_ Hfill];
      pose proof (target_of_changes _ _ _ _ _ Htarget) as [Hc1 [Hobj Hown]].
    + unfold bind in Hrun.
      destruct (final_write t (last pcs) value st1) as [r2 st2] eqn:Hfinal.
      pose proof (final_write_frame _ _ _ _ _ _ Hfinal) as (Hc2 & _ & Hother).
      assert (heap st' = heap st2 ∧
              (console st' = console st2 ∨ ∃ e, console st' = console st2 ++ [e]))
        as [Hh' Hc'].
      { destruct r2 as [[]|e]; injection Hrun as <- <-; simpl;
          (split; [done|]); [by left|right; by eexists]. }
      rewrite Hh'. split; [by rewrite Hc2, Hc1 in Hc'|]. split.
      * intros l o Hl. destruct (Hobj l o Hl) as (o1 & Hl1 & Hg1 & Hcase).
        destruct (decide (t = VRef l)) as [->|Hne].
        -- destruct (final_write_kind _ _ _ _ _ _ _ Hl1 Hfinal) as (o2 & Hl2 & Hk2).
           exists o2. split; [done|].
           split; [by eapply same_kind_trans; [apply grown_same_kind|]|].
           right. exists pcs. split; [done|]. right. by exists st1.
        -- exists o1. rewrite (Hother l Hne). split; [done|].
           split; [by apply grown_same_kind|].
           destruct Hcase as [->|Hv]; [by left|].
           right. exists pcs. split; [done|]. by left.
      * intros l k.
        destruct (final_write_effect _ _ _ _ _ _ l k Hfinal)
          as [Hsame2|[-> (o & Ho & Hloc)]].
        -- rewrite Hsame2. destruct (Hfill l k) as [E|[_ Hold]]; [by left|].
           destruct (Hown l k) as [E|Hf]; [by left|].
           right. exists pcs. split; [done|]. left. split; [|done].
           destruct Hf as (i & sti & oi & Hi & Hp & Hoi & Hfalsy & Hnew).
           exists i, sti, oi. repeat split; try done. congruence.
        -- right. exists pcs. split; [done|]. right. by exists st1, o.
    + injection Hrun as <- <-. simpl. split; [right; exists e; by rewrite Hc1|].
      split.
      * intros l o Hl. destruct (Hobj l o Hl) as (o1 & Hl1 & Hg1 & Hcase).
        exists o1. split; [done|]. split; [by apply grown_same_kind|].
        destruct Hcase as [->|Hv]; [by left|].
        right. exists pcs. split; [done|]. by left.
      * intros l k. destruct (Hfill l k) as [E|[_ Hold]]; [by left|].
        destruct (Hown l k) as [E|Hf]; [by left|].
        right. exists pcs. split; [done|]. by left.
Qed.

(** The write of the documentation of [setValue]:
    [setValue('user.age', 35, { user: { name: 'John Doe' } })]. *)
Lemma C10_traversal_witness :
  get_prop (VRef 0) "user" user_model = (Ret (VRef 1), user_model) ∧
  truthy (VRef 1) = true ∧
  getTargetPropToSet (H := digits_host) (PathPieces ["user"] (Some "age"))
    (VRef 0) "user" 0 user_model = (Ret (VRef 1), user_model).
Proof.
  split; [reflexivity|]. split; [reflexivity|].
  apply (C10_setValue_traversal_keeps_truthy_values (H := digits_host)
           (VStr "user.age") (VNum (Int 35)) (VRef 0) "." user_model);
    reflexivity.
Defined.

Example setValue_user_age :
  setValue (H := digits_host) (VStr "user.age") (VNum (Int 35)) (VRef 0) "." user_model
  = (Ret VUndef,
     State [Obj {[ "user" := VRef 1 ]};
            Obj {[ "name" := VStr "John Doe"; "age" := VNum (Int 35) ]}] []).
Proof. vm_compute. reflexivity. Qed.

(** ** The empty final step: append and last element *)

Lemma truthy_str s : s ≠ "" → truthy (VStr s) = true.
Proof. intros Hs. simpl. by rewrite bool_decide_eq_false_2. Qed.

Lemma pop_snoc init k : pop (init ++ [k]) = (init, Some k).
Proof. unfold pop. by rewrite removelast_last, last_snoc. Qed.

Lemma last_slice_first len ps : obj_prop (last_slice len ps) "0" = last_element len ps.
Proof.
  unfold last_slice, last_element. destruct (decide (len = 0%N)); [done|].
  destruct (ps !! pretty (len - 1)%N); [|done].
  simpl. by rewrite lookup_singleton_eq.
Qed.

Lemma push_array l len ps v st :
  heap st !! l = Some (Arr len ps) → ps !! "push" = None →
  (len + 1 < 2 ^ 32)%N →
  push (VRef l) v st
    = (Ret (VNum (Int (Z.of_N (len + 1)))),
       State (<[l := Arr (len + 1) (<[pretty len := v]> ps)]> (heap st)) (console st)).
Proof.
  intros Hl Hpush Hlen. unfold push, bind at 1, get_heap. rewrite Hl, Hpush.
  by rewrite decide_True by done.
Qed.

Lemma slice_last_array l len ps st :
  heap st !! l = Some (Arr len ps) → ps !! "slice" = None →
  species_ok (ps !! "constructor") = true →
  slice_last (VRef l) st
    = (Ret (VRef (length (heap st))),
       State (heap st ++ [last_slice len ps]) (console st)).
Proof.
  intros Hl Hslice Hspecies. unfold slice_last, bind, get_heap.
  by rewrite Hl, Hslice, Hspecies.
Qed.

(** C5. When the final step of the path is the empty step: [setValue]
    appends the value to the array reached by the other steps (the array
    grows by one and the value is its new last element), and [getValue]
    returns the last element of that array ([null] when it is falsy or the
    array is empty). So [setValue('list.', 5, { list: [1,2] })] leaves
    [list] as [[1,2,5]] and [getValue('list.', { list: [1,2,3] })] is [3]. *)
Theorem C5_empty_final_step_appends_and_reads_last `{Host}
    (p separator : string) (init : list string) (model value : val) (st : state) :
  generatePathPieces (VStr p) separator st = (Ret (init ++ [""]), st) →
  truthy model = true →
  (∀ l len ps st1,
     p ≠ "" →
     target_of (PathPieces init (Some "")) model st = (Ret (VRef l), st1) →
     heap st1 !! l = Some (Arr len ps) → ps !! "push" = None →
     (len + 1 < 2 ^ 32)%N →
     setValue (VStr p) value model separator st
       = (Ret VUndef,
          State (<[l := Arr (len + 1) (<[pretty len := value]> ps)]> (heap st1))
                (console st1))) ∧
  (∀ l len ps st1,
     resolve init model st = (Ret (VRef l), st1) →
     heap st1 !! l = Some (Arr len ps) → ps !! "slice" = None →
     species_ok (ps !! "constructor") = true →
     getValue (VStr p) model separator st
       = (Ret (JS.or (last_element len ps) VNull),
          State (heap st1 ++ [last_slice len ps]) (console st1))) ∧
  setValue (VStr "list.") (VNum (Int 5)) (VRef 0) "." list_of_two
    = (Ret VUndef,
       State [Obj {[ "list" := VRef 1 ]};
              Arr 3 {[ "0" := VNum (Int 1); "1" := VNum (Int 2); "2" := VNum (Int 5) ]}] []) ∧
  ∃ tmp, getValue (VStr "list.") (VRef 0) "." list_of_three
    = (Ret (VNum (Int 3)), State (heap list_of_three ++ tmp) []).
Proof.
  intros Hgen Hmodel. split; [|split; [|split]].
  - intros l len ps st1 Hp Htarget Hl Hpush Hlen.
    unfold setValue. rewrite (truthy_str p Hp), Hmodel. simpl.
    unfold try_catch, setValue_try, bind at 1. rewrite Hgen, pop_snoc.
    unfold bind at 1. rewrite Htarget.
    unfold final_write. rewrite decide_True by done. unfold bind.
    by rewrite (push_array _ _ _ _ _ Hl Hpush Hlen).
  - intros l len ps st1 Hres Hl Hslice Hspecies.
    unfold getValue. simpl eq_null. rewrite Hmodel. simpl.
    unfold try_catch, getValue_try, bind at 1. rewrite Hgen.
    unfold bind at 1, resolve, reduce. rewrite reduce_from_app.
    unfold resolve, reduce in Hres. rewrite Hres.
    cbn [reduce_from]. unfold piecesReducer. rewrite decide_True by done.
    unfold bind. rewrite (slice_last_array _ _ _ _ Hl Hslice Hspecies).
    erewrite get_prop_ref; [by rewrite last_slice_first|].
    simpl. rewrite lookup_app_r by done. by rewrite Nat.sub_diag.
  - vm_compute. reflexivity.
  - eexists. vm_compute. reflexivity.
Qed.

Lemma C5_empty_final_step_witness :
  generatePathPieces (VStr "list.") "." list_of_two
    = (Ret (["list"] ++ [""]), list_of_two) ∧
  truthy (VRef 0) = true ∧
  setValue (H := digits_host) (VStr "list.") (VNum (Int 5)) (VRef 0) "." list_of_two
    = (Ret VUndef,
       State (<[1 := Arr (2 + 1)
                      (<[pretty 2%N := VNum (Int 5)]>
                         {[ "0" := VNum (Int 1); "1" := VNum (Int 2) ]})]>
                (heap list_of_two))
             (console list_of_two)).
Proof.
  split; [reflexivity|]. split; [reflexivity|].
  apply (proj1 (C5_empty_final_step_appends_and_reads_last (H := digits_host)
                  "list." "." ["list"] (VRef 0) (VNum (Int 5)) list_of_two
                  eq_refl eq_refl)
           1 2%N {[ "0" := VNum (Int 1); "1" := VNum (Int 2) ]} list_of_two);
    [discriminate | reflexivity | reflexivity | reflexivity | lia].
Defined.

(** ** Round trip: writing into an empty model, then reading *)

Lemma fit_new_container k : k ≠ "" → fit (new_container (Some k)) k.
Proof.
  intros Hk. unfold new_container. destruct (isArrayKey k) eqn:Harr; [|by left].
  right. split; [done|]. intros ->. by vm_compute in Harr.
Qed.

Lemma fit_missing c k : fit c k → obj_prop c k = VUndef.
Proof.
  intros [->|[-> Hk]]; simpl; [done|]. by rewrite decide_False by done.
Qed.

Section RoundTrip.
Context `{Host}.

Lemma set_prop_fit l c k x st :
  heap st !! l = Some c → fit c k →
  ∃ c', set_prop (VRef l) k x st
          = (Ret tt, State (<[l := c']> (heap st)) (console st)) ∧
        obj_prop c' k = x.
Proof.
  intros Hl Hfit. unfold set_prop, bind, get_heap. rewrite Hl.
  destruct Hfit as [->|[-> Hk]].
  - eexists. split; [reflexivity|]. simpl. by rewrite lookup_insert_eq.
  - rewrite decide_False by done.
    destruct (array_index k); (eexists; split; [reflexivity|]); simpl;
      rewrite decide_False by done; by rewrite lookup_insert_eq.
Qed.

Lemma reads_cons k ks l c st v x :
  k ≠ "" → heap st !! l = Some c → obj_prop c k = x →
  reads ks x st v → reads (k :: ks) (VRef l) st v.
Proof.
  intros Hk Hl Hx Hrest j. cbn [reduce_from]. unfold bind, piecesReducer.
  rewrite decide_False by done. rewrite (get_prop_ref _ _ _ _ Hl), Hx.
  apply Hrest.
Qed.

Lemma write_from_fresh ks fk v :
  Forall (λ k, k ≠ "") ks → fk ≠ "" →
  ∀ rest i l c st,
    drop i ks = rest →
    heap st !! l = Some c → fit c (hd fk rest) →
    ∃ st',
      write_from (PathPieces ks (Some fk)) i rest (VRef l) v st = (Ret tt, st') ∧
      console st' = console st ∧
      reads (rest ++ [fk]) (VRef l) st' v ∧
      ∀ l', l' < length (heap st) → l' ≠ l → heap st' !! l' = heap st !! l'.
Proof.
  intros Hks Hfk rest. induction rest as [|k rest IH]; intros i l c st Hdrop Hl Hfit.
  - unfold write_from, bind. cbn [reduce_from finalKey]. unfold ret, final_write.
    change (JS.or (VRef l) VNull) with (VRef l).
    rewrite decide_False by done.
    destruct (set_prop_fit l c fk v st Hl Hfit) as (c' & -> & Hc').
    eexists. split; [reflexivity|]. split; [done|].
    assert (l < length (heap st)) as Hlt by (by eapply lookup_lt_Some).
    split.
    + eapply (reads_cons fk [] l c'); [done| |done|by intros j].
      simpl. by apply list_lookup_insert_eq.
    + intros l' _ Hne. simpl. by apply list_lookup_insert_ne.
  - assert (ks !! i = Some k) as Hi.
    { pose proof (lookup_drop ks i 0) as E.
      by rewrite Hdrop, Nat.add_0_r in E. }
    assert (drop (S i) ks = rest) as Hdrop'.
    { pose proof (drop_drop ks 1 i) as E. rewrite Hdrop in E.
      by replace (i + 1) with (S i) in E by lia. }
    assert (k ≠ "") as Hk.
    { eapply (Forall_lookup_1 _ _ _ _ Hks Hi). }
    assert (l < length (heap st)) as Hlt by (by eapply lookup_lt_Some).
    set (k' := hd fk rest).
    assert (k' ≠ "") as Hk'.
    { unfold k'. destruct rest as [|k2 rest2]; [done|]. simpl.
      eapply (Forall_lookup_1 _ _ (S i) _ Hks).
      pose proof (lookup_drop ks (S i) 0) as E.
      by rewrite Hdrop', Nat.add_0_r in E. }
    assert (or_step (ks !! (i + 1)) (Some fk) = Some k') as Hnext.
    { pose proof (lookup_drop ks (S i) 0) as E.
      rewrite Hdrop' in E. replace (S i + 0) with (i + 1) in E by lia.
      rewrite <- E. unfold k' in *.
      destruct rest as [|k2 rest2]; [done|]. simpl.
      simpl in Hk'. by rewrite decide_False by done. }
    simpl in Hfit.
    pose proof (get_prop_ref l k st c Hl) as Hget.
    rewrite (fit_missing _ _ Hfit) in Hget.
    pose proof (getTargetPropToSet_missing (PathPieces ks (Some fk))
                  (VRef l) k i st VUndef Hget eq_refl) as Hstep.
    cbn [items finalKey] in Hstep. rewrite Hnext in Hstep.
    set (n := length (heap st)) in *.
    set (st1 := State (heap st ++ [new_container (Some k')]) (console st)) in *.
    assert (heap st1 !! l = Some c) as Hl1 by (by apply lookup_app_l_Some).
    destruct (set_prop_fit l c k (VRef n) st1 Hl1 Hfit) as (c' & Hset & Hc').
    rewrite Hset in Hstep.
    set (st2 := State (<[l := c']> (heap st1)) (console st1)) in *.
    assert (heap st2 !! n = Some (new_container (Some k'))) as Hn2.
    { simpl. rewrite list_lookup_insert_ne by lia.
      rewrite lookup_app_r by done. by rewrite Nat.sub_diag. }
    destruct (IH (S i) n _ st2 Hdrop' Hn2 (fit_new_container k' Hk'))
      as (st' & Hwrite & Hconsole & Hreads & Hframe).
    exists st'. split; [|split; [|split]].
    + unfold write_from, bind at 1. cbn [reduce_from]. unfold bind at 1.
      rewrite Hstep. exact Hwrite.
    + by rewrite Hconsole.
    + assert (length (heap st2) = S n) as Hlen2.
      { simpl. rewrite length_insert, length_app. simpl. unfold n. lia. }
      eapply (reads_cons k (rest ++ [fk]) l c'); [done| |exact Hc'|exact Hreads].
      rewrite Hframe by lia. simpl. apply list_lookup_insert_eq.
      rewrite length_app. lia.
    + intros l' Hl' Hne.
      rewrite Hframe; [|simpl; rewrite length_insert, length_app; lia|unfold n; lia].
      simpl. rewrite list_lookup_insert_ne by done. by apply lookup_app_l.
Qed.

End RoundTrip.

Lemma generatePathPieces_pure p separator st st' steps :
  generatePathPieces (VStr p) separator st = (Ret steps, st) →
  generatePathPieces (VStr p) separator st' = (Ret steps, st').
Proof. unfold generatePathPieces, ret. by intros [= <-]. Qed.

Lemma generatePathPieces_empty_path separator st steps :
  generatePathPieces (VStr "") separator st = (Ret steps, st) →
  steps = [] ∨ steps = [""].
Proof. destruct separator; intros [= <-]; [by left | by right]. Qed.

Section RoundTripService.
Context `{Host}.

(** Writing [v] at a path of non-empty steps into an empty object succeeds,
    logs nothing, and afterwards the steps resolve to [v] itself. *)
Lemma setValue_fresh p separator steps v l st :
  generatePathPieces (VStr p) separator st = (Ret steps, st) →
  steps ≠ [] → Forall (λ k, k ≠ "") steps →
  heap st !! l = Some (Obj ∅) →
  ∃ st',
    setValue (VStr p) v (VRef l) separator st = (Ret VUndef, st') ∧
    console st' = console st ∧
    resolve steps (VRef l) st' = (Ret v, st').
Proof.
  intros Hgen Hne Hsteps Hl.
  destruct (exists_last Hne) as (ks & fk & ->).
  apply Forall_app in Hsteps as [Hks Hfk].
  apply (proj1 (Forall_singleton _ _)) in Hfk.
  assert (p ≠ "") as Hp.
  { intros ->. apply generatePathPieces_empty_path in Hgen as [Hgen|Hgen].
    - by destruct ks.
    - destruct ks as [|k ks]; [injection Hgen as ->; done|].
      injection Hgen as _ Hgen. by destruct ks. }
  destruct (write_from_fresh ks fk v Hks Hfk ks 0 l (Obj ∅) st eq_refl Hl)
    as (st' & Hwrite & Hconsole & Hreads & _); [by left|].
  exists st'. split; [|split; [done|apply Hreads]].
  unfold setValue. rewrite (truthy_str p Hp). cbn [truthy negb].
  unfold try_catch, setValue_try, bind at 1. rewrite Hgen, pop_snoc.
  unfold write_from, bind in Hwrite. cbn [finalKey] in Hwrite.
  unfold bind, target_of, reduce, bind. cbn [items].
  destruct (reduce_from _ 0 ks (VRef l) st) as [[t|e] st1]; [|done].
  unfold ret. by rewrite Hwrite.
Qed.

End RoundTripService.

(** The kind inference of the specification: [setValue('a.0.b', 'x', {})]
    makes [a] an array whose index 0 is an object with [b = 'x']. *)
Example setValue_a_0_b :
  setValue (H := digits_host) (VStr "a.0.b") (VStr "x") (VRef 0) "." empty_model
  = (Ret VUndef,
     State [Obj {[ "a" := VRef 1 ]}; Arr 1 {[ "0" := VRef 2 ]};
            Obj {[ "b" := VStr "x" ]}] []).
Proof. vm_compute. reflexivity. Qed.

(** * Further properties of the code *)

(** ** Parsing: brackets and longer separators *)

Lemma occurs_app a s t : occurs a (s +:+ t) = occurs a s || occurs a t.
Proof.
  induction s as [|b s IH]; [done|].
  rewrite append_cons. simpl. by rewrite IH, orb_assoc.
Qed.

Lemma append_assoc3 s t u : (s +:+ t) +:+ u = s +:+ t +:+ u.
Proof.
  induction s as [|b s IH]; [done|]. by rewrite !append_cons, IH.
Qed.

Lemma append_empty_r s : s +:+ "" = s.
Proof. induction s as [|b s IH]; [done|]. by rewrite append_cons, IH. Qed.

Lemma cut_first_at a pre post :
  occurs a pre = false →
  JSString.cut_first (String a "") (pre +:+ String a post) = Some (pre, post).
Proof.
  induction pre as [|b pre IH]; intros Hpre.
  - change ("" +:+ String a post) with (String a post).
    cbn [JSString.cut_first]. by rewrite prefix_unit, Ascii.eqb_refl.
  - simpl in Hpre. apply orb_false_elim in Hpre as [Hab Hpre].
    rewrite append_cons. cbn [JSString.cut_first].
    rewrite prefix_unit, Hab. by rewrite IH.
Qed.

Lemma cut_first_none a s :
  occurs a s = false → JSString.cut_first (String a "") s = None.
Proof.
  intros Hs. pose proof (cut_first_unit a s) as Hcut.
  destruct (JSString.cut_first (String a "") s) as [[pre post]|]; [|done].
  destruct Hcut as [_ ->]. rewrite occurs_app in Hs. simpl in Hs.
  rewrite Ascii.eqb_refl in Hs. by destruct (occurs a pre).
Qed.

Lemma replace_none a r s :
  occurs a s = false → JSString.replace (String a "") r s = s.
Proof. intros Hs. unfold JSString.replace. by rewrite cut_first_none. Qed.

(** A replacement without [$] is inserted as it is. *)
Lemma GetSubstitution_plain m pre post r :
  occurs "$" r = false → JSString.GetSubstitution m pre post r = r.
Proof.
  induction r as [|c r IH]; [done|]. intros Hr.
  cbn [occurs] in Hr. apply orb_false_elim in Hr as [Hc Hr].
  cbn [JSString.GetSubstitution]. destruct r as [|d r']; [done|].
  rewrite Ascii.eqb_sym, Hc. by rewrite IH.
Qed.

(** The bracket form of an index is the separator form: in a path
    [pre[idx]post] whose [pre] and [idx] hold no bracket of their own, the
    pieces are those of [pre], the separator, [idx] and [post] put together;
    brackets in [post] are left where they are. So when nothing else in the
    path is a bracket, [a[0].b] and [a.0.b] parse alike. *)
Theorem generatePathPieces_bracket_is_separator
    (pre idx post : string) (c : ascii) (st : state) :
  occurs "[" pre = false → occurs "]" pre = false →
  occurs "]" idx = false → c ≠ "]"%char →
  generatePathPieces (VStr (pre +:+ "[" +:+ idx +:+ "]" +:+ post)) (String c "") st
    = (Ret (JSString.split (String c "") (pre +:+ String c "" +:+ idx +:+ post)), st) ∧
  (c ≠ "["%char → occurs "[" idx = false →
   occurs "[" post = false → occurs "]" post = false →
   generatePathPieces (VStr (pre +:+ "[" +:+ idx +:+ "]" +:+ post)) (String c "") st
     = generatePathPieces (VStr (pre +:+ String c "" +:+ idx +:+ post)) (String c "") st).
Proof.
  intros Hpre1 Hpre2 Hidx Hc.
  assert (Ascii.eqb "]" c = false) as Hc' by (apply Ascii.eqb_neq; congruence).
  assert (JSString.replace "]" "" (JSString.replace "[" (String c "")
            (pre +:+ "[" +:+ idx +:+ "]" +:+ post))
          = pre +:+ String c "" +:+ idx +:+ post) as Hnorm.
  { unfold JSString.replace at 2.
    change (pre +:+ "[" +:+ idx +:+ "]" +:+ post)
      with (pre +:+ String "[" (idx +:+ String "]" post)).
    rewrite (cut_first_at "[" pre _ Hpre1).
    change (JSString.GetSubstitution "[" pre (idx +:+ String "]" post) (String c ""))
      with (String c "").
    change (pre +:+ String c "" +:+ idx +:+ String "]" post)
      with (pre +:+ String c (idx +:+ String "]" post)).
    replace (pre +:+ String c (idx +:+ String "]" post))
      with ((pre +:+ String c idx) +:+ String "]" post)
      by (by rewrite append_assoc3, append_cons).
    unfold JSString.replace. rewrite cut_first_at.
    - change (JSString.GetSubstitution "]" (pre +:+ String c idx) post "") with "".
      change ("" +:+ post) with post.
      by rewrite append_assoc3, append_cons.
    - rewrite occurs_app. cbn [occurs]. by rewrite Hpre2, Hc', Hidx. }
  split.
  - unfold generatePathPieces, ret. by rewrite Hnorm.
  - intros Hc2 Hidx2 Hpost1 Hpost2.
    assert (Ascii.eqb "[" c = false) as Hc2' by (apply Ascii.eqb_neq; congruence).
    unfold generatePathPieces, ret. rewrite Hnorm.
    rewrite (replace_none "[" _ (pre +:+ String c "" +:+ idx +:+ post)).
    + rewrite (replace_none "]"); [done|].
      rewrite !occurs_app. cbn [occurs].
      by rewrite Hpre2, Hc', Hidx, Hpost2.
    + rewrite !occurs_app. cbn [occurs].
      by rewrite Hpre1, Hc2', Hidx2, Hpost1.
Qed.

Lemma generatePathPieces_bracket_witness :
  occurs "[" "a" = false ∧ occurs "]" "a" = false ∧
  occurs "]" "0" = false ∧ "."%char ≠ "]"%char ∧
  generatePathPieces (VStr ("a" +:+ "[" +:+ "0" +:+ "]" +:+ ".b[1]")) "." empty_model
    = (Ret (JSString.split "." ("a" +:+ "." +:+ "0" +:+ ".b[1]")), empty_model).
Proof.
  assert ("."%char ≠ "]"%char) as Hc by discriminate.
  split; [reflexivity|]. split; [reflexivity|]. split; [reflexivity|].
  split; [exact Hc|].
  apply (proj1 (generatePathPieces_bracket_is_separator "a" "0" ".b[1]" "."%char
                  empty_model eq_refl eq_refl eq_refl Hc)).
Defined.

Lemma prefix_cut sep s :
  String.prefix sep s = true →
  s = sep +:+ JSString.drop_units (String.length sep) s.
Proof.
  revert s. induction sep as [|a sep IH]; intros s; [done|].
  destruct s as [|b s]; [done|]. simpl.
  destruct (ascii_dec a b) as [->|]; [|done].
  intros Hp. rewrite append_cons. f_equal. by apply IH.
Qed.

Lemma prefix_app sep s t :
  String.prefix sep s = true → String.prefix sep (s +:+ t) = true.
Proof.
  revert s. induction sep as [|a sep IH]; intros s;
    [intros _; by destruct (s +:+ t)|].
  destruct s as [|b s]; [done|]. rewrite append_cons. simpl.
  destruct (ascii_dec a b); [apply IH|done].
Qed.

Lemma join_cons sep p q ps :
  JSString.join sep (p :: q :: ps) = p +:+ sep +:+ JSString.join sep (q :: ps).
Proof. done. Qed.

(** The pieces of a split, joined, are the string that was split. *)
Lemma split_go_join sep k s :
  sep ≠ "" →
  JSString.join sep (JSString.split_go sep k s) = JSString.drop_units k s.
Proof.
  intros Hsep. revert k. induction s as [|b s IH]; intros k; [by destruct k|].
  cbn [JSString.split_go]. destruct k as [|k]; [|apply IH].
  pose proof (split_go_nonempty sep 0 s) as Hne0.
  destruct (String.prefix sep (String b s)) eqn:Hp.
  - pose proof (split_go_nonempty sep (String.length sep - 1) s) as Hne.
    pose proof (IH (String.length sep - 1)) as IH'.
    destruct (JSString.split_go sep (String.length sep - 1) s) as [|q qs]; [done|].
    rewrite join_cons, IH'. change ("" +:+ ?x) with x.
    apply prefix_cut in Hp. cbn [JSString.drop_units]. rewrite Hp at 1.
    destruct sep as [|a sep]; [done|]. cbn [String.length JSString.drop_units].
    by replace (S (String.length sep) - 1) with (String.length sep) by lia.
  - pose proof (IH 0) as IH'.
    destruct (JSString.split_go sep 0 s) as [|p ps]; [done|].
    cbn [JSString.drop_units] in *. rewrite <- IH'. by destruct ps.
Qed.

(** A piece of a split holds no occurrence of the separator. *)
Lemma split_go_free sep k s :
  sep ≠ "" →
  Forall (λ piece, JSString.cut_first sep piece = None) (JSString.split_go sep k s).
Proof.
  intros Hsep.
  assert (JSString.cut_first sep "" = None) as Hempty by (by destruct sep).
  revert k. induction s as [|b s IH]; intros k; [by constructor|].
  cbn [JSString.split_go]. destruct k as [|k]; [|apply IH].
  destruct (String.prefix sep (String b s)) eqn:Hp; [constructor; [done|apply IH]|].
  pose proof (split_go_join sep 0 s Hsep) as Hjoin.
  pose proof (IH 0) as IH'.
  pose proof (split_go_nonempty sep 0 s) as Hne.
  destruct (JSString.split_go sep 0 s) as [|p ps]; [done|].
  inversion IH' as [|? ? Hfree Hrest]; subst. constructor; [|done].
  cbn [JSString.cut_first]. rewrite Hfree.
  destruct (String.prefix sep (String b p)) eqn:Hp'; [|done].
  cbn [JSString.drop_units] in Hjoin.
  assert (∃ t, s = p +:+ t) as [t ->].
  { destruct ps as [|q qs]; [exists ""; by rewrite append_empty_r|].
    rewrite join_cons in Hjoin. by eexists. }
  apply (prefix_app _ _ t) in Hp'. rewrite append_cons in Hp'. congruence.
Qed.

(** For every separator that is not empty and holds no [$], of whatever
    length: only the first '[' of the path becomes the separator and only
    the first ']' is removed; the pieces, joined by the separator, are that
    string; no piece holds the separator; and there is at least one piece. *)
Theorem generatePathPieces_any_plain_separator (p sep : string) :
  sep ≠ "" → occurs "$" sep = false →
  ∃ opened normalized pieces,
    (∀ st, generatePathPieces (VStr p) sep st = (Ret pieces, st)) ∧
    first_replaced "[" sep p opened ∧
    first_replaced "]" "" opened normalized ∧
    JSString.join sep pieces = normalized ∧
    Forall (λ piece, JSString.cut_first sep piece = None) pieces ∧
    pieces ≠ [].
Proof.
  intros Hsep Hplain. eexists _, _, _. split; [reflexivity|].
  split; [apply replace_unit; intros; by apply GetSubstitution_plain|].
  split; [by apply (replace_unit "]" "")|].
  destruct sep as [|a sep]; [done|]. cbn [JSString.split].
  split; [by apply (split_go_join _ 0)|].
  split; [by apply split_go_free | apply split_go_nonempty].
Qed.

Lemma generatePathPieces_any_plain_separator_witness :
  "::" ≠ "" ∧ occurs "$" "::" = false ∧
  ∃ opened normalized pieces,
    (∀ st, generatePathPieces (VStr "a[0]::b") "::" st = (Ret pieces, st)) ∧
    first_replaced "[" "::" "a[0]::b" opened ∧
    first_replaced "]" "" opened normalized ∧
    JSString.join "::" pieces = normalized ∧
    Forall (λ piece, JSString.cut_first "::" piece = None) pieces ∧
    pieces ≠ [].
Proof.
  assert ("::" ≠ "") as Hsep by discriminate.
  split; [exact Hsep|]. split; [reflexivity|].
  apply (generatePathPieces_any_plain_separator "a[0]::b" "::" Hsep eq_refl).
Defined.

(** With a [$] in it the separator is a replacement pattern: [$&] puts the
    bracket back instead of a separator. *)
Example generatePathPieces_dollar_separator :
  generatePathPieces (VStr "a[0]") "$&" empty_model = (Ret ["a[0"], empty_model).
Proof. reflexivity. Qed.

(** ** Reading: missing intermediates, the state, the empty path *)

(** From a falsy value a step neither allocates nor finds anything truthy. *)
Lemma piecesReducer_falsy_any o k st r st' :
  truthy o = false → piecesReducer o k st = (r, st') →
  st' = st ∧ ∀ v, r = Ret v → truthy v = false.
Proof.
  intros Ho Hstep. destruct r as [v|e].
  - apply piecesReducer_falsy in Hstep as [Hv ->]; [|done].
    split; [done|]. by intros ? [= <-].
  - split; [|done]. revert Hstep. unfold piecesReducer.
    destruct (decide (k = "")) as [->|Hk].
    + destruct o as [| |b|n|s|l]; try done; by intros [= <-].
    + intros Hget. by apply get_prop_eq in Hget.
Qed.

Lemma resolve_from_falsy_any i pcs o st r st' :
  truthy o = false →
  reduce_from (λ obj key _, piecesReducer obj key) i pcs o st = (r, st') →
  st' = st ∧ ∀ v, r = Ret v → truthy v = false.
Proof.
  revert i o st. induction pcs as [|k pcs IH]; intros i o st Ho.
  - intros [= <- <-]. split; [done|]. by intros ? [= <-].
  - cbn [reduce_from]. unfold bind at 1.
    destruct (piecesReducer o k st) as [[o'|e] st1] eqn:Hstep;
      apply piecesReducer_falsy_any in Hstep as [-> Ho']; try done.
    + apply IH. by apply Ho'.
    + by intros [= <- <-].
Qed.

(** On own properties.
    If the steps of the path, up to some point, resolve to a falsy value
    (a missing property, [null], [0], the empty string), [getValue] returns
    [null], whatever steps follow, and allocates nothing after that point. *)
Lemma own_getValue_null_after_a_falsy_step
    (p separator : string) (pre rest : list string) (m : val)
    (st st1 : state) (v : val) :
  generatePathPieces (VStr p) separator st = (Ret (pre ++ rest), st) →
  resolve pre m st = (Ret v, st1) →
  truthy v = false →
  getValue (VStr p) m separator st = (Ret VNull, st1).
Proof.
  intros Hgen Hpre Hv. unfold getValue.
  destruct (truthy m) eqn:Hm; cbn [eq_null negb orb].
  - unfold try_catch, getValue_try, bind at 1. rewrite Hgen.
    unfold bind, resolve, reduce. rewrite reduce_from_app.
    unfold resolve, reduce in Hpre. rewrite Hpre.
    destruct (reduce_from _ (0 + length pre) rest v st1) as [[w|e] st2] eqn:Hrest;
      apply resolve_from_falsy_any in Hrest as [-> Hw]; try done.
    unfold ret, JS.or. by rewrite (Hw w eq_refl).
  - apply resolve_from_falsy_any in Hpre as [-> _]; done.
Qed.

Lemma resolve_from_state i pcs o st r st' :
  Forall (λ k, k ≠ "") pcs →
  reduce_from (λ obj key _, piecesReducer obj key) i pcs o st = (r, st') →
  st' = st.
Proof.
  intros Hpcs. revert i o st.
  induction Hpcs as [|k pcs Hk _ IH]; intros i o st.
  - by intros [= <- <-].
  - cbn [reduce_from]. unfold bind at 1, piecesReducer.
    rewrite decide_False by done.
    destruct (get_prop o k st) as [[o'|e] st1] eqn:Hget;
      apply get_prop_eq in Hget as ->; [apply IH | by intros [= <- <-]].
Qed.

(** When no step of the path is the empty step, [getValue] leaves the state
    exactly as it was: nothing is allocated, nothing is logged. *)
Theorem getValue_without_empty_step_keeps_state
    (p separator : string) (pcs : list string) (m : val) (st : state) :
  generatePathPieces (VStr p) separator st = (Ret pcs, st) →
  Forall (λ k, k ≠ "") pcs →
  ∃ v, getValue (VStr p) m separator st = (Ret v, st).
Proof.
  intros Hgen Hpcs. unfold getValue.
  destruct (eq_null (VStr p) || negb (truthy m)); [by eexists|].
  unfold try_catch, getValue_try, bind at 1. rewrite Hgen. unfold bind.
  destruct (resolve pcs m st) as [[v|e] st1] eqn:Hres;
    apply resolve_from_state in Hres as ->; try done; by eexists.
Qed.

Lemma getValue_without_empty_step_witness :
  generatePathPieces (VStr "list.0") "." list_of_two = (Ret ["list"; "0"], list_of_two) ∧
  Forall (λ k, k ≠ "") ["list"; "0"] ∧
  ∃ v, getValue (VStr "list.0") (VRef 0) "." list_of_two = (Ret v, list_of_two).
Proof.
  assert (Forall (λ k : string, k ≠ "") ["list"; "0"]) as Hpcs
    by (repeat constructor; discriminate).
  split; [reflexivity|]. split; [exact Hpcs|].
  apply (getValue_without_empty_step_keeps_state "list.0" "." ["list"; "0"]
           (VRef 0) list_of_two eq_refl Hpcs).
Defined.

(** The empty path is not refused by [getValue]: with a separator that is
    not empty its one step is the empty step, so the result is the last
    element of the model when the model is an array ([null] when that is
    falsy), and [null] when the model is a plain object. *)
Theorem getValue_empty_path_reads_last_element
    (separator : string) (l : loc) (st : state) :
  separator ≠ "" →
  (∀ ps, heap st !! l = Some (Obj ps) →
     getValue (VStr "") (VRef l) separator st = (Ret VNull, st)) ∧
  (∀ len ps, heap st !! l = Some (Arr len ps) →
     ps !! "slice" = None → species_ok (ps !! "constructor") = true →
     getValue (VStr "") (VRef l) separator st
       = (Ret (JS.or (last_element len ps) VNull),
          State (heap st ++ [last_slice len ps]) (console st))).
Proof.
  intros Hsep.
  assert (generatePathPieces (VStr "") separator st = (Ret [""], st)) as Hgen
    by (by destruct separator).
  split.
  - intros ps Hl. unfold getValue. cbn [eq_null truthy negb orb].
    unfold try_catch, getValue_try, bind at 1. rewrite Hgen.
    unfold bind, resolve, reduce. cbn [reduce_from].
    unfold bind, piecesReducer. rewrite decide_True by done.
    unfold bind, slice_last, bind, get_heap. by rewrite Hl.
  - intros len ps Hl Hslice Hspecies.
    unfold getValue. cbn [eq_null truthy negb orb].
    unfold try_catch, getValue_try, bind at 1. rewrite Hgen.
    unfold bind, resolve, reduce. cbn [reduce_from].
    unfold bind, piecesReducer. rewrite decide_True by done.
    unfold bind. rewrite (slice_last_array _ _ _ _ Hl Hslice Hspecies).
    erewrite get_prop_ref; [by rewrite last_slice_first|].
    simpl. rewrite lookup_app_r by done. by rewrite Nat.sub_diag.
Qed.

Lemma getValue_empty_path_witness :
  "." ≠ "" ∧
  heap list_of_three !! 1
    = Some (Arr 3 {[ "0" := VNum (Int 1); "1" := VNum (Int 2); "2" := VNum (Int 3) ]}) ∧
  getValue (VStr "") (VRef 1) "." list_of_three
    = (Ret (JS.or (last_element 3
                     {[ "0" := VNum (Int 1); "1" := VNum (Int 2); "2" := VNum (Int 3) ]})
                  VNull),
       State (heap list_of_three ++
                [last_slice 3
                   {[ "0" := VNum (Int 1); "1" := VNum (Int 2); "2" := VNum (Int 3) ]}])
             (console list_of_three)).
Proof.
  assert ("." ≠ "") as Hsep by discriminate.
  split; [exact Hsep|]. split; [reflexivity|].
  apply (proj2 (getValue_empty_path_reads_last_element "." 1 list_of_three Hsep));
    reflexivity.
Defined.

(** ** Writing: failures *)

(** A path that is not a string has no [replace]: [getValue] returns [null]
    and touches nothing; [setValue], when the path and the model are truthy,
    logs one [TypeError] and leaves the heap alone, and otherwise does
    nothing. *)
Theorem path_that_is_no_string_is_refused `{Host}
    (path value model : val) (separator : string) (st : state) :
  (∀ s, path ≠ VStr s) →
  getValue path model separator st = (Ret VNull, st) ∧
  setValue path value model separator st
    = (if truthy path && truthy model
       then (Ret VUndef, State (heap st) (console st ++ [TypeError]))
       else (Ret VNull, st)).
Proof.
  intros Hpath. split.
  - unfold getValue. destruct (eq_null path || negb (truthy model)); [done|].
    destruct path as [| | | |s|]; try done. by destruct (Hpath s).
  - unfold setValue. destruct (truthy path) eqn:Hp; [|by rewrite Hp].
    cbn [andb]. destruct (truthy model); [|done]. cbn [negb].
    destruct path as [| | | |s|]; try done. by destruct (Hpath s).
Qed.

Lemma path_that_is_no_string_witness :
  (∀ s, VNum (Int 5) ≠ VStr s) ∧
  getValue (VNum (Int 5)) (VRef 0) "." empty_model = (Ret VNull, empty_model) ∧
  setValue (H := digits_host) (VNum (Int 5)) (VStr "x") (VRef 0) "." empty_model
    = (Ret VUndef, State (heap empty_model) (console empty_model ++ [TypeError])).
Proof.
  assert (∀ s, VNum (Int 5) ≠ VStr s) as Hpath by discriminate.
  split; [exact Hpath|].
  apply (path_that_is_no_string_is_refused (H := digits_host)
           (VNum (Int 5)) (VStr "x") (VRef 0) "." empty_model Hpath).
Defined.

Section Failures.
Context `{Host}.

Lemma setValue_try_console path value model separator st r st' :
  setValue_try path value model separator st = (r, st') →
  console st' = console st.
Proof.
  unfold setValue_try, bind at 1.
  destruct (generatePathPieces path separator st) as [[pcs|e] st0] eqn:Hgen;
    apply generatePathPieces_state in Hgen as ->; [|by intros [= <- <-]].
  cbn [pop]. unfold bind at 1.
  destruct (target_of _ model st) as [[t|e] st1] eqn:Htarget;
    apply target_of_only_fills in Htarget as [Hc1 _]; [|by intros [= <- <-]].
  unfold bind.
  destruct (final_write t (last pcs) value st1) as [[[]|e] st2] eqn:Hfinal;
    apply final_write_frame in Hfinal as [Hc2 _];
    intros [= <- <-]; congruence.
Qed.

(** A step from a truthy primitive either goes on to a truthy primitive
    and changes nothing, or throws a [TypeError] after allocating the
    container it could not attach. *)
Lemma getTargetPropToSet_primitive pcs acc k i st r st' :
  primitive acc = true → truthy acc = true →
  getTargetPropToSet pcs acc k i st = (r, st') →
  extends st st' ∧
  match r with
  | Ret t => primitive t = true ∧ truthy t = true
  | Throw e => e = TypeError
  end.
Proof.
  intros Hprim Hacc.
  assert (∃ prop, get_prop acc k st = (Ret prop, st) ∧ primitive prop = true)
    as (prop & Hget & Hprop).
  { destruct acc as [| |b|n|s|l]; try done; try (by exists VUndef).
    exists (string_prop s k). split; [done|]. unfold string_prop.
    destruct (decide (k = "length")); [done|].
    destruct (canonical_index k) as [j|]; [|done].
    by destruct (unit_at (N.to_nat j) s). }
  destruct (truthy prop) eqn:Ht.
  - rewrite (getTargetPropToSet_present _ _ _ _ _ _ Hget Ht).
    intros [= <- <-]. split; [apply extends_refl|done].
  - rewrite (getTargetPropToSet_missing _ _ _ _ _ _ Hget Ht).
    assert (∀ v st0, set_prop acc k v st0 = (Throw TypeError, st0)) as Hset
      by (by destruct acc).
    rewrite Hset. intros [= <- <-]. split; [|done].
    split; [done|]. by eexists.
Qed.

Lemma reduce_from_primitive pcs i ks acc st r st' :
  primitive acc = true → truthy acc = true →
  reduce_from (getTargetPropToSet pcs) i ks acc st = (r, st') →
  extends st st' ∧
  match r with
  | Ret t => primitive t = true ∧ truthy t = true
  | Throw e => e = TypeError
  end.
Proof.
  revert i acc st. induction ks as [|k ks IH]; intros i acc st Hprim Hacc.
  - intros [= <- <-]. split; [apply extends_refl|done].
  - cbn [reduce_from]. unfold bind at 1.
    destruct (getTargetPropToSet pcs acc k i st) as [[acc'|e] st1] eqn:Hstep;
      apply getTargetPropToSet_primitive in Hstep as [Hext Hres]; try done.
    + destruct Hres as [Hprim' Hacc']. intros Hrest.
      apply IH in Hrest as [Hext' Hres']; try done.
      split; [by eapply extends_trans|done].
    + by intros [= <- <-].
Qed.

End Failures.

(** [setValue] reports a failure of its [try] block once, on the console,
    with the heap as the failure left it, and reports nothing when the block
    returns; either way its own result is [undefined], so the caller cannot
    tell a failed write from a successful one. *)
Theorem setValue_reports_a_failure_once `{Host}
    (path value model : val) (separator : string) (st : state) :
  truthy path = true → truthy model = true →
  (∀ v st1, setValue_try path value model separator st = (Ret v, st1) →
     setValue path value model separator st = (Ret VUndef, st1) ∧
     console st1 = console st) ∧
  (∀ e st1, setValue_try path value model separator st = (Throw e, st1) →
     setValue path value model separator st
       = (Ret VUndef, State (heap st1) (console st ++ [e]))).
Proof.
  intros Hp Hm. unfold setValue. rewrite Hp, Hm. cbn [truthy negb].
  unfold try_catch. split.
  - intros v st1 Htry. rewrite Htry.
    pose proof (setValue_try_console _ _ _ _ _ _ _ Htry) as Hc. split; [|done].
    revert Htry. unfold setValue_try, bind at 1.
    destruct (generatePathPieces path separator st) as [[pcs|e] st0]; [|done].
    cbn [pop]. unfold bind at 1.
    destruct (target_of _ model st0) as [[t|e] st2]; [|done].
    unfold bind. destruct (final_write t (last pcs) value st2) as [[[]|e] st3]; [|done].
    by intros [= <- <-].
  - intros e st1 Htry. rewrite Htry.
    pose proof (setValue_try_console _ _ _ _ _ _ _ Htry) as Hc.
    unfold bind, console_error, ret. simpl. by rewrite Hc.
Qed.

Lemma setValue_reports_a_failure_witness :
  truthy (VStr "user.name.first") = true ∧ truthy (VRef 0) = true ∧
  setValue_try (H := digits_host) (VStr "user.name.first") (VStr "x") (VRef 0) "." user_model
    = (Throw TypeError, user_model) ∧
  setValue (H := digits_host) (VStr "user.name.first") (VStr "x") (VRef 0) "." user_model
    = (Ret VUndef, State (heap user_model) (console user_model ++ [TypeError])).
Proof.
  split; [reflexivity|]. split; [reflexivity|].
  assert (setValue_try (H := digits_host) (VStr "user.name.first") (VStr "x")
            (VRef 0) "." user_model
          = (Throw TypeError, user_model)) as Htry
    by reflexivity.
  split; [exact Htry|].
  apply (proj2 (setValue_reports_a_failure_once (H := digits_host)
                  (VStr "user.name.first") (VStr "x") (VRef 0) "." user_model
                  eq_refl eq_refl) TypeError _ Htry).
Defined.

(** On own properties.
    A model that is a truthy primitive (a number, a string, [true]) cannot
    be written into: [setValue] logs one [TypeError], and every object of
    the heap is as it was (containers that could not be attached may have
    been allocated after them). *)
Lemma own_setValue_into_a_primitive_model_fails `{Host}
    (p : string) (value model : val) (separator : string) (st : state) :
  p ≠ "" → primitive model = true → truthy model = true →
  ∃ tmp,
    setValue (VStr p) value model separator st
      = (Ret VUndef, State (heap st ++ tmp) (console st ++ [TypeError])).
Proof.
  intros Hp Hprim Hm.
  assert (∀ t fk v st0, primitive t = true → truthy t = true →
            final_write (JS.or t VNull) fk v st0 = (Throw TypeError, st0)) as Hfinal.
  { intros t fk v st0 Ht1 Ht2. unfold JS.or. rewrite Ht2. unfold final_write.
    destruct fk as [k|]; [destruct (decide (k = ""))|]; by destruct t. }
  unfold setValue. rewrite (truthy_str p Hp), Hm. cbn [negb].
  unfold try_catch, setValue_try, bind at 1.
  change (generatePathPieces (VStr p) separator st)
    with (Ret (JSString.split separator
                 (JSString.replace "]" "" (JSString.replace "[" separator p))), st).
  set (pcs := JSString.split _ _). cbn [pop].
  unfold bind at 1, target_of, bind at 1, reduce. cbn [items].
  destruct (reduce_from _ 0 (removelast pcs) model st) as [[t|e] st1] eqn:Hred;
    apply reduce_from_primitive in Hred as [[Hc [tmp Hh]] Hres]; try done.
  - destruct Hres as [Ht1 Ht2]. unfold ret, bind at 1.
    rewrite (Hfinal t _ _ _ Ht1 Ht2). exists tmp.
    unfold bind, console_error, ret. simpl. by rewrite Hc, Hh.
  - subst e. exists tmp. unfold bind, console_error, ret. simpl.
    by rewrite Hc, Hh.
Qed.

(** ** Writing along a path that exists *)

Lemma leads_frame h h' t l ks :
  leads h t l ks → (∀ l', l' ≠ t → h' !! l' = h !! l') → leads h' t l ks.
Proof.
  intros Hleads Hsame. induction Hleads as [|l k ks c l' Hl Hk Hne Hc _ IH].
  - constructor.
  - econstructor; eauto. by rewrite Hsame.
Qed.

Lemma resolve_leads st t l ks j :
  leads (heap st) t l ks →
  reduce_from (λ obj key _, piecesReducer obj key) j ks (VRef l) st
    = (Ret (VRef t), st).
Proof.
  intros Hleads. revert j.
  induction Hleads as [|l k ks c l' Hl Hk Hne Hc _ IH]; intros j; [done|].
  cbn [reduce_from]. unfold bind, piecesReducer. rewrite decide_False by done.
  rewrite (get_prop_ref _ _ _ _ Hl), Hc. apply IH.
Qed.

Lemma generatePathPieces_nonempty_path p separator st ks fk :
  generatePathPieces (VStr p) separator st = (Ret (ks ++ [fk]), st) →
  fk ≠ "" → p ≠ "".
Proof.
  intros Hgen Hfk ->. apply generatePathPieces_empty_path in Hgen as [Hgen|Hgen].
  - by destruct ks.
  - destruct ks as [|k ks]; [injection Hgen as ->; done|].
    injection Hgen as _ Hgen. by destruct ks.
Qed.

Section ExistingPath.
Context `{Host}.

(** Along properties that hold references the traversal of [setValue]
    creates nothing. *)
Lemma traverse_leads pcs st t l ks i :
  leads (heap st) t l ks →
  reduce_from (getTargetPropToSet pcs) i ks (VRef l) st = (Ret (VRef t), st).
Proof.
  intros Hleads. revert i.
  induction Hleads as [|l k ks c l' Hl Hk Hne Hc _ IH]; intros i; [done|].
  cbn [reduce_from]. unfold bind.
  rewrite (getTargetPropToSet_present pcs (VRef l) k i st (VRef l')); [apply IH| |done].
  by rewrite (get_prop_ref _ _ _ _ Hl), Hc.
Qed.

Lemma set_prop_assignable t c fk v st :
  heap st !! t = Some c → assignable c fk →
  ∃ c', set_prop (VRef t) fk v st
          = (Ret tt, State (<[t := c']> (heap st)) (console st)) ∧
        own_value c' fk = Some v ∧
        ∀ k, k ≠ fk → own_props c' !! k = own_props c !! k.
Proof.
  intros Ht Hc. unfold set_prop, bind, get_heap. rewrite Ht.
  destruct Hc as [[ps ->]|(len & ps & -> & Hfk)].
  - eexists. split; [reflexivity|]. simpl. rewrite lookup_insert_eq.
    split; [done|]. intros k Hk. by rewrite lookup_insert_ne.
  - rewrite decide_False by done.
    destruct (array_index fk); (eexists; split; [reflexivity|]); simpl;
      rewrite decide_False by done; rewrite lookup_insert_eq;
      (split; [done|]); intros k Hk; by rewrite lookup_insert_ne.
Qed.

End ExistingPath.

(** On own properties.
    Writing where the path already exists. When the non-final steps lead,
    through properties holding references, to a container other than the
    objects on the way, and the final key is not empty (nor the [length] of
    an array), [setValue] changes that container and nothing else: the
    final key now holds the value, its other own properties are as they
    were, nothing is logged; and [getValue] with the same path then returns
    the value ([null] when it is falsy). *)
Lemma own_setValue_on_existing_path_overwrites_and_reads_back `{Host}
    (p separator : string) (ks : list string) (fk : string) (v : val)
    (l t : loc) (c : obj) (st : state) :
  generatePathPieces (VStr p) separator st = (Ret (ks ++ [fk]), st) →
  fk ≠ "" →
  leads (heap st) t l ks →
  heap st !! t = Some c → assignable c fk →
  ∃ c',
    setValue (VStr p) v (VRef l) separator st
      = (Ret VUndef, State (<[t := c']> (heap st)) (console st)) ∧
    own_value c' fk = Some v ∧
    (∀ k, k ≠ fk → own_props c' !! k = own_props c !! k) ∧
    getValue (VStr p) (VRef l) separator (State (<[t := c']> (heap st)) (console st))
      = (Ret (JS.or v VNull), State (<[t := c']> (heap st)) (console st)).
Proof.
  intros Hgen Hfk Hleads Ht Hc.
  pose proof (generatePathPieces_nonempty_path _ _ _ _ _ Hgen Hfk) as Hp.
  destruct (set_prop_assignable t c fk v st Ht Hc) as (c' & Hset & Hread & Hother).
  exists c'. set (st' := State (<[t := c']> (heap st)) (console st)).
  split; [|split; [done|split; [done|]]].
  - unfold setValue. rewrite (truthy_str p Hp). cbn [truthy negb].
    unfold try_catch, setValue_try, bind at 1. rewrite Hgen, pop_snoc.
    unfold bind at 1, target_of, bind at 1, reduce. cbn [items].
    rewrite (traverse_leads _ _ _ _ _ 0 Hleads).
    unfold ret, bind. change (JS.or (VRef t) VNull) with (VRef t).
    unfold final_write. rewrite decide_False by done. by rewrite Hset.
  - assert (resolve (ks ++ [fk]) (VRef l) st' = (Ret v, st')) as Hres.
    { unfold resolve, reduce. rewrite reduce_from_app.
      rewrite (resolve_leads st' t l ks 0).
      - cbn [reduce_from]. unfold bind, piecesReducer.
        rewrite decide_False by done.
        rewrite (get_prop_ref t fk st' c');
          [by rewrite (own_value_obj_prop _ _ _ Hread)|].
        simpl. apply list_lookup_insert_eq. by eapply lookup_lt_Some.
      - apply (leads_frame (heap st)); [done|].
        intros l' Hl'. simpl. by apply list_lookup_insert_ne. }
    apply (getValue_of_resolve p (VRef l) separator (ks ++ [fk]) st' st' v);
      [by apply (generatePathPieces_pure _ _ st)|done].
Qed.

(** On own properties.
    A truthy primitive that stands where the path needs a container is
    never replaced. When the steps lead to an object whose next property is
    a truthy primitive and at least one more step follows, [setValue] logs
    one [TypeError] and every object of the heap is as it was. *)
Lemma own_setValue_through_a_primitive_fails `{Host}
    (p separator : string) (ks : list string) (k : string) (more : list string)
    (value prim : val) (l t : loc) (c : obj) (st : state) :
  generatePathPieces (VStr p) separator st = (Ret (ks ++ k :: more), st) →
  p ≠ "" → more ≠ [] →
  leads (heap st) t l ks →
  heap st !! t = Some c → obj_prop c k = prim →
  primitive prim = true → truthy prim = true →
  ∃ tmp,
    setValue (VStr p) value (VRef l) separator st
      = (Ret VUndef, State (heap st ++ tmp) (console st ++ [TypeError])).
Proof.
  intros Hgen Hp Hmore Hleads Ht Hk Hprim Htruthy.
  assert (∀ t' fk v st0, primitive t' = true → truthy t' = true →
            final_write (JS.or t' VNull) fk v st0 = (Throw TypeError, st0)) as Hfinal.
  { intros t' fk v st0 Ht1 Ht2. unfold JS.or. rewrite Ht2. unfold final_write.
    destruct fk as [k'|]; [destruct (decide (k' = ""))|]; by destruct t'. }
  unfold setValue. rewrite (truthy_str p Hp). cbn [truthy negb].
  unfold try_catch, setValue_try, bind at 1. rewrite Hgen. cbn [pop].
  assert (removelast (ks ++ k :: more) = ks ++ k :: removelast more) as ->.
  { rewrite removelast_app by done. f_equal. by destruct more. }
  set (pcs := PathPieces _ _).
  unfold bind at 1, target_of, bind at 1, reduce.
  change (items pcs) with (ks ++ k :: removelast more).
  rewrite reduce_from_app, (traverse_leads pcs _ _ _ _ 0 Hleads).
  cbn [reduce_from]. unfold bind at 1.
  rewrite (getTargetPropToSet_present pcs (VRef t) k _ st prim);
    [| by rewrite (get_prop_ref _ _ _ _ Ht), Hk | done].
  destruct (reduce_from _ _ (removelast more) prim st) as [[t'|e] st1] eqn:Hred;
    apply reduce_from_primitive in Hred as [[Hc [tmp Hh]] Hres]; try done.
  - destruct Hres as [Ht1 Ht2]. unfold ret, bind at 1.
    rewrite (Hfinal t' _ _ _ Ht1 Ht2). exists tmp.
    unfold bind, console_error, ret. simpl. by rewrite Hc, Hh.
  - subst e. exists tmp. unfold bind, console_error, ret. simpl.
    by rewrite Hc, Hh.
Qed.

(** ** Array keys and array indices *)

(** Every array index of the host is an array key of the service. *)
Lemma array_index_isArrayKey k i : array_index k = Some i → isArrayKey k = true.
Proof.
  unfold array_index, canonical_index. intros Hk.
  destruct (decide (pretty (Z.to_N (JSString.digits_value 0 k)) = k)) as [Hcanon|];
    [|done].
  apply isArrayKey_spec. right. apply parseInt10_integer_prefix.
  destruct k as [|c r]; [done|].
  exists "", "", c, r. repeat split; auto.
  destruct (JSString.digit_of c) as [d|] eqn:Hc; [by eexists|].
  cbn [JSString.digits_value] in Hcanon. rewrite Hc in Hcanon.
  injection Hcanon as <- _. discriminate Hc.
Qed.

Lemma isArrayKey_not_length k : isArrayKey k = true → k ≠ "length".
Proof. intros Hk ->. by vm_compute in Hk. Qed.

Section ExactWrites.
Context `{Host}.

Lemma set_prop_obj l ps k v st :
  heap st !! l = Some (Obj ps) →
  set_prop (VRef l) k v st
    = (Ret tt, State (<[l := Obj (<[k := v]> ps)]> (heap st)) (console st)).
Proof. intros Hl. unfold set_prop, bind, get_heap. by rewrite Hl. Qed.

Lemma set_prop_arr l len ps k v st :
  heap st !! l = Some (Arr len ps) → k ≠ "length" →
  set_prop (VRef l) k v st
    = (Ret tt,
       State (<[l := Arr (match array_index k with
                          | Some i => N.max len (i + 1)
                          | None => len
                          end) (<[k := v]> ps)]> (heap st)) (console st)).
Proof.
  intros Hl Hk. unfold set_prop, bind, get_heap. rewrite Hl.
  rewrite decide_False by done. by destruct (array_index k).
Qed.

End ExactWrites.

(** On own properties.
    The array that a write creates for a missing key. Written at a path of
    two non-empty steps [a] and [k] into the empty object, with [k] an array
    key, the value lands in a new array under [a]: when [k] is an array
    index [i] the array has length [i + 1] and the value is its only
    element; when [k] is an array key without being an index (such as [-1]
    or [3foo]) the array stays of length [0] and the value is a property of
    it, not an element. Every array index is an array key. *)
Lemma own_setValue_new_array_length_follows_the_index `{Host}
    (p separator a k : string) (v : val) (l : loc) (st : state) :
  generatePathPieces (VStr p) separator st = (Ret [a; k], st) →
  a ≠ "" → k ≠ "" → isArrayKey k = true →
  heap st !! l = Some (Obj ∅) →
  setValue (VStr p) v (VRef l) separator st
    = (Ret VUndef,
       State (<[l := Obj {[ a := VRef (length (heap st)) ]}]>
                (heap st ++
                   [Arr (match array_index k with
                         | Some i => i + 1
                         | None => 0
                         end)%N {[ k := v ]}]))
             (console st)) ∧
  (∀ k' i, array_index k' = Some i → isArrayKey k' = true).
Proof.
  intros Hgen Ha Hk Harr Hl. split; [|apply array_index_isArrayKey].
  pose proof (generatePathPieces_nonempty_path p separator st [a] k Hgen Hk) as Hp.
  pose proof (isArrayKey_not_length k Harr) as Hlen.
  set (n := length (heap st)).
  assert (l < n) as Hlt by (by eapply lookup_lt_Some).
  set (st1 := State (heap st ++ [Arr 0 ∅]) (console st)).
  set (st2 := State (<[l := Obj (<[a := VRef n]> ∅)]> (heap st1)) (console st1)).
  assert (getTargetPropToSet (PathPieces [a] (Some k)) (VRef l) a 0 st
          = (Ret (VRef n), st2)) as Hstep.
  { rewrite (getTargetPropToSet_missing _ (VRef l) a 0 st VUndef);
      [| by rewrite (get_prop_ref _ _ _ _ Hl) | done].
    change (or_step (items (PathPieces [a] (Some k)) !! (0 + 1))
              (finalKey (PathPieces [a] (Some k)))) with (Some k).
    unfold new_container. rewrite Harr. fold n. fold st1.
    by rewrite (set_prop_obj l ∅ a (VRef n) st1 (lookup_app_l_Some _ _ _ _ Hl)). }
  assert (heap st2 !! n = Some (Arr 0 ∅)) as Hn.
  { simpl. rewrite list_lookup_insert_ne by lia.
    rewrite lookup_app_r by done. by rewrite Nat.sub_diag. }
  unfold setValue. rewrite (truthy_str p Hp). cbn [truthy negb].
  unfold try_catch, setValue_try, bind at 1. rewrite Hgen.
  change (pop [a; k]) with ([a], Some k). cbn iota.
  unfold bind at 1, target_of, bind at 1, reduce. cbn [items reduce_from].
  unfold bind at 1. rewrite Hstep. unfold ret, bind.
  change (JS.or (VRef n) VNull) with (VRef n).
  unfold final_write. rewrite decide_False by done.
  rewrite (set_prop_arr n 0 ∅ k v st2 Hn Hlen). f_equal. f_equal. simpl.
  rewrite list_insert_insert_ne by lia. f_equal.
  rewrite insert_app_r_alt by done. rewrite Nat.sub_diag. simpl.
  destruct (array_index k) as [i|]; [|done].
  by replace (N.max 0 (i + 1)) with (i + 1)%N by lia.
Qed.

Example setValue_a_5_is_sparse :
  setValue (H := digits_host) (VStr "a.5") (VStr "x") (VRef 0) "." empty_model
  = (Ret VUndef, State [Obj {[ "a" := VRef 1 ]}; Arr 6 {[ "5" := VStr "x" ]}] []).
Proof. vm_compute. reflexivity. Qed.

Example setValue_a_3foo_is_no_element :
  setValue (H := digits_host) (VStr "a.3foo") (VStr "x") (VRef 0) "." empty_model
  = (Ret VUndef, State [Obj {[ "a" := VRef 1 ]}; Arr 0 {[ "3foo" := VStr "x" ]}] []).
Proof. vm_compute. reflexivity. Qed.

(** ** Appending several values *)

Lemma pretty_N_char_digit x : is_Some (JSString.digit_of (pretty_N_char x)).
Proof. unfold pretty_N_char. repeat case_match; by eexists. Qed.

Lemma pretty_N_go_digit x s :
  (0 < x)%N → JSString.starts_with_digit (pretty_N_go x s) = true.
Proof.
  revert s. induction (N.lt_wf_0 x) as [x _ IH]; intros s Hx.
  rewrite pretty_N_go_step by done.
  destruct (decide (x `div` 10 = 0)%N) as [->|Hdiv].
  - rewrite pretty_N_go_0. simpl. apply bool_decide_eq_true, pretty_N_char_digit.
  - apply IH; [apply N.div_lt; [done|reflexivity] | by apply N.neq_0_lt_0].
Qed.

(** The decimal form of a number starts with a digit. *)
Lemma pretty_starts_with_digit (n : N) : JSString.starts_with_digit (pretty n) = true.
Proof.
  unfold pretty, pretty_N. destruct (decide (n = 0)%N); [done|].
  apply pretty_N_go_digit. lia.
Qed.

Lemma pretty_not_push (n : N) : pretty n ≠ "push".
Proof.
  intros Hn. pose proof (pretty_starts_with_digit n) as Hd.
  rewrite Hn in Hd. discriminate Hd.
Qed.

Lemma pushed_old len vs ps k :
  (∀ i, i < length vs → k ≠ pretty (len + N.of_nat i)%N) →
  pushed len vs ps !! k = ps !! k.
Proof.
  revert len ps. induction vs as [|v vs IH]; intros len ps Hk; [done|].
  cbn [pushed]. rewrite IH.
  - apply lookup_insert_ne. intros <-. apply (Hk 0); [simpl; lia|].
    by rewrite N.add_0_r.
  - intros i Hi. replace (len + 1 + N.of_nat i)%N with (len + N.of_nat (S i))%N by lia.
    apply Hk. simpl. lia.
Qed.

Lemma pushed_new len vs ps i v :
  vs !! i = Some v → pushed len vs ps !! pretty (len + N.of_nat i)%N = Some v.
Proof.
  revert len ps i. induction vs as [|w vs IH]; intros len ps i; [done|].
  destruct i as [|i]; cbn [pushed].
  - intros [= ->]. rewrite N.add_0_r. rewrite pushed_old; [apply lookup_insert_eq|].
    intros j _ Hj. apply (inj pretty) in Hj. lia.
  - intros Hi. replace (len + N.of_nat (S i))%N with (len + 1 + N.of_nat i)%N by lia.
    by apply IH.
Qed.

Section Appends.
Context `{Host}.

(** One append to an array that the non-final steps lead to. *)
Lemma setValue_append p separator ks v l t len ps st :
  generatePathPieces (VStr p) separator st = (Ret (ks ++ [""]), st) →
  p ≠ "" →
  leads (heap st) t l ks →
  heap st !! t = Some (Arr len ps) → ps !! "push" = None →
  (len + 1 < 2 ^ 32)%N →
  setValue (VStr p) v (VRef l) separator st
    = (Ret VUndef,
       State (<[t := Arr (len + 1) (<[pretty len := v]> ps)]> (heap st)) (console st)).
Proof.
  intros Hgen Hp Hleads Ht Hpush Hlen.
  unfold setValue. rewrite (truthy_str p Hp). cbn [truthy negb].
  unfold try_catch, setValue_try, bind at 1. rewrite Hgen, pop_snoc.
  unfold bind at 1, target_of, bind at 1, reduce. cbn [items].
  rewrite (traverse_leads _ _ _ _ _ 0 Hleads).
  unfold ret, bind at 1. change (JS.or (VRef t) VNull) with (VRef t).
  unfold final_write. rewrite decide_True by done. unfold bind.
  by rewrite (push_array _ _ _ _ _ Ht Hpush Hlen).
Qed.

End Appends.

(** Successive appends. When the path ends with the empty step and its
    other steps lead to an array with room for them, writing the values
    [vs] one after the other leaves that array longer by their number, with
    the values in their order after the elements it had, which are kept;
    nothing else in the heap changes and nothing is logged. *)
Theorem setValue_each_appends_in_order `{Host}
    (p : string) (ks : list string) (vs : list val)
    (l t : loc) (len : N) (ps : gmap string val) (st : state) :
  generatePathPieces (VStr p) default_separator st = (Ret (ks ++ [""]), st) →
  p ≠ "" →
  leads (heap st) t l ks →
  heap st !! t = Some (Arr len ps) → ps !! "push" = None →
  (len + N.of_nat (length vs) < 2 ^ 32)%N →
  ∃ ps',
    setValue_each (VStr p) (VRef l) vs st
      = (Ret tt,
         State (<[t := Arr (len + N.of_nat (length vs)) ps']> (heap st)) (console st)) ∧
    (∀ i v, vs !! i = Some v → ps' !! pretty (len + N.of_nat i)%N = Some v) ∧
    (∀ j, (j < len)%N → ps' !! pretty j = ps !! pretty j).
Proof.
  intros Hgen Hp Hleads Ht Hpush Hlen. exists (pushed len vs ps).
  split; [|split].
  - revert len ps st Hgen Hleads Ht Hpush Hlen.
    induction vs as [|v vs IH]; intros len ps st Hgen Hleads Ht Hpush Hlen.
    + simpl. unfold ret. rewrite N.add_0_r.
      rewrite list_insert_id by done. by destruct st.
    + cbn [length] in Hlen. cbn [setValue_each pushed length]. unfold bind.
      rewrite (setValue_append p default_separator ks v l t len ps st)
        by (try done; lia).
      set (st1 := State (<[t := Arr (len + 1) (<[pretty len := v]> ps)]> (heap st))
                        (console st)).
      assert (t < length (heap st)) as Hlt by (by eapply lookup_lt_Some).
      rewrite (IH (len + 1)%N (<[pretty len := v]> ps) st1).
      * simpl. rewrite list_insert_insert_eq.
        by replace (len + 1 + N.of_nat (length vs))%N
          with (len + N.of_nat (S (length vs)))%N by lia.
      * by apply (generatePathPieces_pure _ _ st).
      * apply (leads_frame (heap st)); [done|].
        intros l' Hl'. simpl. by apply list_lookup_insert_ne.
      * simpl. by apply list_lookup_insert_eq.
      * rewrite lookup_insert_ne; [done|apply pretty_not_push].
      * lia.
  - intros i v. apply pushed_new.
  - intros j Hj. apply pushed_old. intros i _ Hi.
    apply (inj pretty) in Hi. lia.
Qed.

Lemma setValue_each_appends_witness :
  generatePathPieces (VStr "list.") default_separator list_of_two
    = (Ret (["list"] ++ [""]), list_of_two) ∧
  "list." ≠ "" ∧
  leads (heap list_of_two) 1 0 ["list"] ∧
  heap list_of_two !! 1
    = Some (Arr 2 {[ "0" := VNum (Int 1); "1" := VNum (Int 2) ]}) ∧
  ({[ "0" := VNum (Int 1); "1" := VNum (Int 2) ]} : gmap string val) !! "push" = None ∧
  (2 + N.of_nat (length [VNum (Int 5); VStr "x"]) < 2 ^ 32)%N ∧
  ∃ ps',
    setValue_each (H := digits_host) (VStr "list.") (VRef 0)
      [VNum (Int 5); VStr "x"] list_of_two
      = (Ret tt,
         State (<[1 := Arr (2 + N.of_nat (length [VNum (Int 5); VStr "x"])) ps']>
                  (heap list_of_two)) (console list_of_two)) ∧
    (∀ i v, [VNum (Int 5); VStr "x"] !! i = Some v →
            ps' !! pretty (2 + N.of_nat i)%N = Some v) ∧
    (∀ j, (j < 2)%N →
          ps' !! pretty j
          = ({[ "0" := VNum (Int 1); "1" := VNum (Int 2) ]} : gmap string val) !! pretty j).
Proof.
  assert ("list." ≠ "") as Hp by discriminate.
  assert (leads (heap list_of_two) 1 0 ["list"]) as Hleads.
  { apply (leads_step _ _ 0 "list" [] (Obj {[ "list" := VRef 1 ]}) 1);
      [reflexivity | discriminate | discriminate | reflexivity | constructor]. }
  assert ((2 + N.of_nat (length [VNum (Int 5); VStr "x"]) < 2 ^ 32)%N) as Hlen
    by reflexivity.
  split; [reflexivity|]. split; [exact Hp|]. split; [exact Hleads|].
  split; [reflexivity|]. split; [reflexivity|]. split; [exact Hlen|].
  apply (setValue_each_appends_in_order (H := digits_host)
           "list." ["list"] [VNum (Int 5); VStr "x"] 0 1 2%N _ list_of_two
           eq_refl Hp Hleads eq_refl eq_refl Hlen).
Defined.

(** ** The directive: the path inside the model, writing and reading *)

Lemma length_append s t :
  String.length (s +:+ t) = String.length s + String.length t.
Proof. induction s as [|c s IH]; [done|]. rewrite append_cons. simpl. by rewrite IH. Qed.

Lemma drop_units_append s t k :
  JSString.drop_units (String.length s + k) (s +:+ t) = JSString.drop_units k t.
Proof. induction s as [|c s IH]; [done|]. rewrite append_cons. apply IH. Qed.

(** The name given to [rfModel] is the name of the model, a dot, and the
    path inside the model: [getModelPathWithoutFirstPart] returns what
    follows the first dot. A name without a dot is returned whole, so it is
    then itself the path. *)
Theorem getModelPathWithoutFirstPart_drops_the_model_name :
  (∀ model path, occurs "." model = false →
     getModelPathWithoutFirstPart (model +:+ "." +:+ path) = path) ∧
  (∀ name, occurs "." name = false →
     getModelPathWithoutFirstPart name = name).
Proof.
  split.
  - intros model path Hmodel. unfold getModelPathWithoutFirstPart, indexOf.
    change (model +:+ "." +:+ path) with (model +:+ String "." path).
    rewrite (cut_first_at "." model path Hmodel). unfold substr.
    rewrite length_append. cbn [String.length].
    destruct (Z.ltb_spec (Z.of_nat (String.length model) + 1) 0) as [Hneg|_]; [lia|].
    replace (Z.to_nat (Z.min _ _)) with (String.length model + 1) by lia.
    rewrite drop_units_append. done.
  - intros name Hname. unfold getModelPathWithoutFirstPart, indexOf.
    rewrite (cut_first_none "." name Hname). unfold substr.
    change (-1 + 1)%Z with 0%Z. cbn [Z.ltb Z.compare].
    by replace (Z.to_nat (Z.min 0 _)) with 0 by lia.
Qed.

Lemma getModelPathWithoutFirstPart_witness :
  occurs "." "userModel" = false ∧
  getModelPathWithoutFirstPart ("userModel" +:+ "." +:+ "address.street")
    = "address.street".
Proof.
  split; [reflexivity|].
  apply (proj1 getModelPathWithoutFirstPart_drops_the_model_name
           "userModel" "address.street" eq_refl).
Defined.

(** On own properties.
    What the directive writes it reads back. With the path that
    [getModelPathWithoutFirstPart] takes from the name of the binding, all
    of whose steps are non-empty, and the empty object as the model:
    [setModelValue] followed by [getModelValue] returns the new value, or
    [null] when the new value is falsy. *)
Lemma own_setModelValue_then_getModelValue `{Host}
    (rfModelName : string) (steps : list string) (newValue : val)
    (l : loc) (st : state) :
  let modelPath := VStr (getModelPathWithoutFirstPart rfModelName) in
  generatePathPieces modelPath default_separator st = (Ret steps, st) →
  Forall (λ k, k ≠ "") steps →
  heap st !! l = Some (Obj ∅) →
  ∃ st',
    setModelValue modelPath (VRef l) newValue st = (Ret VUndef, st') ∧
    console st' = console st ∧
    getModelValue modelPath (VRef l) st' = (Ret (JS.or newValue VNull), st').
Proof.
  intros modelPath Hgen Hsteps Hl.
  assert (steps ≠ []) as Hne.
  { injection Hgen as <-. apply split_go_nonempty. }
  destruct (setValue_fresh _ default_separator steps (JS.or newValue VNull) l st
              Hgen Hne Hsteps Hl) as (st' & Hset & Hconsole & Hres).
  exists st'. split; [done|]. split; [done|].
  unfold getModelValue, modelPath.
  rewrite (getValue_of_resolve _ (VRef l) default_separator steps st' st'
             (JS.or newValue VNull) (generatePathPieces_pure _ _ _ _ _ Hgen) Hres).
  unfold JS.or. by destruct (truthy newValue) eqn:Hv; [rewrite Hv|].
Qed.

(** ** Writing below an object that exists *)

Lemma leads_nonempty h t l ks : leads h t l ks → Forall (λ k, k ≠ "") ks.
Proof. induction 1; by constructor. Qed.

Lemma leads_frame_old h h' t l ks :
  leads h t l ks →
  (∀ l', l' < length h → l' ≠ t → h' !! l' = h !! l') →
  leads h' t l ks.
Proof.
  intros Hleads Hsame. induction Hleads as [|l k ks c l' Hl Hk Hne Hc _ IH].
  - constructor.
  - econstructor; eauto. rewrite Hsame; [done| |done]. by eapply lookup_lt_Some.
Qed.

(** On own properties.
    Creating the rest of a path. When the first steps lead to an existing
    container in which the next step reads falsy, and the steps after it
    and the final key are not empty, [setValue] creates the missing
    containers below it and stores the value: [getValue] with the same path
    then returns it ([null] when it is falsy), nothing is logged, every
    other object that existed is unchanged, and the container keeps its
    other own properties. *)
Lemma own_setValue_creates_the_rest_below_an_existing_object `{Host}
    (p separator : string) (ks : list string) (k : string) (rest : list string)
    (fk : string) (v : val) (l t : loc) (c : obj) (st : state) :
  generatePathPieces (VStr p) separator st = (Ret (ks ++ k :: rest ++ [fk]), st) →
  k ≠ "" → Forall (λ s, s ≠ "") rest → fk ≠ "" →
  leads (heap st) t l ks →
  heap st !! t = Some c → assignable c k → truthy (obj_prop c k) = false →
  ∃ st' c',
    setValue (VStr p) v (VRef l) separator st = (Ret VUndef, st') ∧
    console st' = console st ∧
    getValue (VStr p) (VRef l) separator st' = (Ret (JS.or v VNull), st') ∧
    (∀ l', l' < length (heap st) → l' ≠ t → heap st' !! l' = heap st !! l') ∧
    heap st' !! t = Some c' ∧
    (∀ k', k' ≠ k → own_props c' !! k' = own_props c !! k').
Proof.
  intros Hgen Hk Hrest Hfk Hleads Ht Hc Hfalsy.
  set (all := ks ++ k :: rest).
  assert (ks ++ k :: rest ++ [fk] = all ++ [fk]) as Hall
    by (unfold all; by rewrite <- app_assoc).
  rewrite Hall in Hgen.
  pose proof (generatePathPieces_nonempty_path _ _ _ _ _ Hgen Hfk) as Hp.
  assert (Forall (λ s, s ≠ "") all) as Hnonempty.
  { apply Forall_app. split; [by eapply leads_nonempty|by constructor]. }
  assert (t < length (heap st)) as Hlt by (by eapply lookup_lt_Some).
  set (pcs := PathPieces all (Some fk)).
  set (n := length (heap st)).
  set (k' := hd fk rest).
  assert (k' ≠ "") as Hk'.
  { unfold k'. destruct rest as [|r rest']; [done|]. by inversion Hrest. }
  assert (drop (S (length ks)) all = rest) as Hdrop.
  { unfold all. replace (ks ++ k :: rest) with ((ks ++ [k]) ++ rest)
      by (by rewrite <- app_assoc).
    replace (S (length ks)) with (length (ks ++ [k]))
      by (rewrite length_app; simpl; lia).
    apply drop_app_length. }
  assert (or_step (all !! (length ks + 1)) (Some fk) = Some k') as Hnext.
  { pose proof (lookup_drop all (S (length ks)) 0) as E.
    rewrite Hdrop in E. replace (S (length ks) + 0) with (length ks + 1) in E by lia.
    rewrite <- E. unfold k' in *. destruct rest as [|r rest']; [done|].
    simpl. simpl in Hk'. by rewrite decide_False by done. }
  (* the step at the container *)
  pose proof (get_prop_ref t k st c Ht) as Hget.
  pose proof (getTargetPropToSet_missing pcs (VRef t) k (length ks) st _ Hget Hfalsy)
    as Hstep.
  cbn [items finalKey pcs] in Hstep. rewrite Hnext in Hstep. fold n in Hstep.
  set (st1 := State (heap st ++ [new_container (Some k')]) (console st)) in *.
  assert (heap st1 !! t = Some c) as Ht1 by (by apply lookup_app_l_Some).
  destruct (set_prop_assignable t c k (VRef n) st1 Ht1 Hc) as (c' & Hset & Hread & Hother).
  rewrite Hset in Hstep.
  set (st2 := State (<[t := c']> (heap st1)) (console st1)) in *.
  assert (heap st2 !! n = Some (new_container (Some k'))) as Hn2.
  { simpl. rewrite list_lookup_insert_ne by (unfold n; lia).
    rewrite lookup_app_r by done. by rewrite Nat.sub_diag. }
  assert (length (heap st2) = S n) as Hlen2.
  { simpl. rewrite length_insert, length_app. simpl. unfold n. lia. }
  destruct (write_from_fresh all fk v Hnonempty Hfk rest (S (length ks)) n _ st2
              Hdrop Hn2 (fit_new_container k' Hk'))
    as (st' & Hwrite & Hconsole & Hreads & Hframe).
  assert (heap st' !! t = Some c') as Ht'.
  { rewrite Hframe by (unfold n in *; lia). simpl.
    apply list_lookup_insert_eq. rewrite length_app. lia. }
  exists st', c'. split; [|split; [by rewrite Hconsole|split; [|split; [|done]]]].
  - unfold setValue. rewrite (truthy_str p Hp). cbn [truthy negb].
    unfold try_catch, setValue_try, bind at 1. rewrite Hgen, pop_snoc.
    fold pcs. unfold write_from in Hwrite. fold pcs in Hwrite.
    unfold bind at 1, target_of, bind at 1, reduce.
    change (items pcs) with (ks ++ k :: rest).
    rewrite reduce_from_app, (traverse_leads pcs _ _ _ _ 0 Hleads).
    cbn [reduce_from]. unfold bind at 1. change (0 + length ks) with (length ks).
    rewrite Hstep. unfold bind in Hwrite. cbn [finalKey pcs] in Hwrite.
    destruct (reduce_from _ (S (length ks)) rest (VRef n) st2) as [[t'|e] st3]; [|done].
    unfold ret, bind. by rewrite Hwrite.
  - assert (resolve (all ++ [fk]) (VRef l) st' = (Ret v, st')) as Hres.
    { unfold resolve, reduce, all. rewrite <- app_assoc, reduce_from_app.
      rewrite (resolve_leads st' t l ks 0).
      - apply (reads_cons k (rest ++ [fk]) t c' st' v (VRef n)); try done.
        by apply own_value_obj_prop.
      - apply (leads_frame_old (heap st)); [done|].
        intros l' Hin Hl'.
        rewrite Hframe by (unfold n in *; lia). simpl.
        rewrite list_lookup_insert_ne by done. by apply lookup_app_l. }
    rewrite (getValue_of_resolve p (VRef l) separator (all ++ [fk]) st' st' v
               (generatePathPieces_pure _ _ _ _ _ Hgen) Hres).
    done.
  - intros l' Hl' Hne.
    rewrite Hframe by (unfold n in *; lia). simpl.
    rewrite list_lookup_insert_ne by done. by apply lookup_app_l.
Qed.

Example setValue_user_address_street :
  setValue (H := digits_host) (VStr "user.address.street") (VStr "Carnaby Street")
    (VRef 0) "." user_model
  = (Ret VUndef,
     State [Obj {[ "user" := VRef 1 ]};
            Obj {[ "name" := VStr "John Doe"; "address" := VRef 2 ]};
            Obj {[ "street" := VStr "Carnaby Street" ]}] []).
Proof. vm_compute. reflexivity. Qed.

(** * Reading a leaf that exists *)

Lemma digit_of_pretty_N_char d :
  (d < 10)%N → JSString.digit_of (pretty_N_char d) = Some (Z.of_N d).
Proof.
  intros Hd.
  assert (d ∈ [0; 1; 2; 3; 4; 5; 6; 7; 8; 9]%N) as Hin.
  { assert (d = 0 ∨ d = 1 ∨ d = 2 ∨ d = 3 ∨ d = 4 ∨ d = 5 ∨ d = 6 ∨ d = 7 ∨
            d = 8 ∨ d = 9)%N as Hcases by lia.
    repeat (destruct Hcases as [->|Hcases]; [set_solver|]). subst. set_solver. }
  repeat (apply elem_of_cons in Hin as [->|Hin]; [reflexivity|]).
  by apply elem_of_nil in Hin.
Qed.

(** The digits that [pretty] writes are read back by [digits_value]. *)
Lemma digits_value_pretty_N_go x :
  ∃ m, ∀ acc s,
    JSString.digits_value acc (pretty_N_go x s)
    = JSString.digits_value (acc * m + Z.of_N x) s.
Proof.
  induction (N.lt_wf_0 x) as [x _ IH].
  destruct (decide (x = 0)%N) as [->|Hx].
  - exists 1%Z. intros acc s. rewrite pretty_N_go_0. f_equal. lia.
  - destruct (IH (x `div` 10)%N) as [m Hm].
    { apply N.div_lt; lia. }
    exists (10 * m)%Z. intros acc s.
    rewrite pretty_N_go_step by lia. rewrite Hm.
    cbn [JSString.digits_value].
    rewrite digit_of_pretty_N_char by (apply N.mod_lt; lia).
    f_equal. pose proof (N.div_mod x 10). lia.
Qed.

Lemma canonical_index_pretty (i : N) : canonical_index (pretty i) = Some i.
Proof.
  unfold canonical_index.
  assert (JSString.digits_value 0 (pretty i) = Z.of_N i) as ->.
  { unfold pretty, pretty_N. destruct (decide (i = 0)%N) as [->|Hi]; [done|].
    destruct (digits_value_pretty_N_go i) as [m Hm]. rewrite Hm. simpl. lia. }
  rewrite N2Z.id. by rewrite decide_True.
Qed.

Lemma pretty_not_empty (i : N) : pretty i ≠ "".
Proof.
  intros E. pose proof (pretty_starts_with_digit i) as Hd. by rewrite E in Hd.
Qed.

Lemma pretty_not_length (i : N) : pretty i ≠ "length".
Proof.
  intros E. pose proof (pretty_starts_with_digit i) as Hd. by rewrite E in Hd.
Qed.

Lemma unit_at_middle pre c post :
  unit_at (String.length pre) (pre +:+ String c post) = Some c.
Proof. induction pre as [|a pre IH]; [done|]. exact IH. Qed.

Lemma last_unit_snoc pre c : last_unit (pre +:+ String c "") = String c "".
Proof.
  induction pre as [|a pre IH]; [done|].
  rewrite append_cons. cbn [last_unit]. rewrite IH.
  by destruct (pre +:+ String c "") eqn:E; [destruct pre|].
Qed.

Lemma string_prop_unit pre c post (i : N) :
  String.length pre = N.to_nat i →
  string_prop (pre +:+ String c post) (pretty i) = VStr (String c "").
Proof.
  intros Hi. unfold string_prop.
  rewrite decide_False by apply pretty_not_length.
  by rewrite canonical_index_pretty, <- Hi, unit_at_middle.
Qed.

Lemma piecesReducer_key o k : k ≠ "" → piecesReducer o k = get_prop o k.
Proof. intros Hk. unfold piecesReducer. by rewrite decide_False by done. Qed.

Lemma piecesReducer_last_element l len ps st :
  heap st !! l = Some (Arr len ps) → ps !! "slice" = None →
  species_ok (ps !! "constructor") = true →
  piecesReducer (VRef l) "" st
    = (Ret (last_element len ps),
       State (heap st ++ [last_slice len ps]) (console st)).
Proof.
  intros Hl Hslice Hspecies. unfold piecesReducer.
  rewrite decide_True by done. unfold bind.
  rewrite (slice_last_array _ _ _ _ Hl Hslice Hspecies).
  erewrite get_prop_ref; [by rewrite last_slice_first|].
  simpl. rewrite lookup_app_r by done. by rewrite Nat.sub_diag.
Qed.

Lemma piecesReducer_last_unit pre c st :
  piecesReducer (VStr (pre +:+ String c "")) "" st = (Ret (VStr (String c "")), st).
Proof.
  unfold piecesReducer. rewrite decide_True by done.
  unfold bind, slice_last, ret. rewrite last_unit_snoc.
  unfold get_prop, ret.
  by rewrite <- (string_prop_unit "" c "" 0%N eq_refl).
Qed.

(** The fold of [getValue] follows the steps of a path that resolves. *)
Lemma resolve_resolves_to h m ks v :
  resolves_to h m ks v →
  ∀ j st, (∃ more, heap st = h ++ more) →
    ∃ tmp,
      reduce_from (λ obj key _, piecesReducer obj key) j ks m st
        = (Ret v, State (heap st ++ tmp) (console st)).
Proof.
  induction 1 as [v|l o k w ks v Hl Hk Hw _ IH
                  |l len ps w ks v Hl Hslice Hspecies Hlen Hw _ IH
                  |pre c post i ks v Hi _ IH|s ks v _ IH|pre c ks v _ IH];
    intros j st [more Hh].
  - exists []. rewrite app_nil_r. by destruct st.
  - destruct (IH (S j) st) as [tmp Htmp]; [by exists more|].
    exists tmp. cbn [reduce_from]. unfold bind at 1.
    rewrite piecesReducer_key by done.
    assert (heap st !! l = Some o) as Hl' by (rewrite Hh; by apply lookup_app_l_Some).
    by rewrite (get_prop_ref _ _ _ _ Hl'), (own_value_obj_prop _ _ _ Hw).
  - assert (heap st !! l = Some (Arr len ps)) as Hl'
      by (rewrite Hh; by apply lookup_app_l_Some).
    set (st1 := State (heap st ++ [last_slice len ps]) (console st)).
    destruct (IH (S j) st1) as [tmp Htmp].
    { exists (more ++ [last_slice len ps]). simpl. by rewrite Hh, app_assoc. }
    exists (last_slice len ps :: tmp). cbn [reduce_from]. unfold bind at 1.
    rewrite (piecesReducer_last_element _ _ _ _ Hl' Hslice Hspecies). fold st1.
    unfold last_element. rewrite decide_False by done. rewrite Hw.
    change (default VUndef (Some w)) with w. rewrite Htmp. simpl.
    by rewrite <- app_assoc.
  - destruct (IH (S j) st) as [tmp Htmp]; [by exists more|].
    exists tmp. cbn [reduce_from]. unfold bind at 1.
    rewrite piecesReducer_key by apply pretty_not_empty.
    unfold get_prop, ret. by rewrite string_prop_unit.
  - destruct (IH (S j) st) as [tmp Htmp]; [by exists more|].
    exists tmp. cbn [reduce_from]. unfold bind at 1.
    by rewrite piecesReducer_key by done.
  - destruct (IH (S j) st) as [tmp Htmp]; [by exists more|].
    exists tmp. cbn [reduce_from]. unfold bind at 1.
    by rewrite piecesReducer_last_unit.
Qed.

(** Nothing truthy exists below a falsy value. *)
Lemma resolves_to_falsy h m ks v :
  resolves_to h m ks v → truthy m = false → truthy v = false.
Proof.
  induction 1 as [v|l o k w ks v Hl Hk Hw _ IH
                  |l len ps w ks v Hl Hslice Hspecies Hlen Hw _ IH
                  |pre c post i ks v Hi _ IH|s ks v Hrest IH|pre c ks v _ IH];
    try done.
  - intros Hm. simpl in Hm. apply negb_false_iff, bool_decide_eq_true in Hm.
    by destruct pre.
  - intros Hm. simpl in Hm. apply negb_false_iff, bool_decide_eq_true in Hm as ->.
    by inversion Hrest.
  - intros Hm. simpl in Hm. apply negb_false_iff, bool_decide_eq_true in Hm.
    by destruct pre.
Qed.

(** C2. When the steps of the path lead, through properties, elements and
    code units that exist, to a leaf value [v], [getValue] returns [v] when
    [v] is truthy and [null] when it is falsy: a stored falsy value reads
    like a missing one. The objects of the heap are as they were; after them
    come the arrays that [slice] made for the empty steps. *)
Theorem C2_getValue_returns_existing_leaf_or_null
    (p : string) (m : val) (separator : string) (pcs : list string)
    (st : state) (v : val) :
  generatePathPieces (VStr p) separator st = (Ret pcs, st) →
  resolves_to (heap st) m pcs v →
  ∃ tmp,
    getValue (VStr p) m separator st
      = (Ret (if truthy v then v else VNull), State (heap st ++ tmp) (console st)).
Proof.
  intros Hgen Hres. unfold getValue. cbn [eq_null orb].
  destruct (truthy m) eqn:Hm; cbn [negb].
  - destruct (resolve_resolves_to _ _ _ _ Hres 0 st) as [tmp Htmp];
      [exists []; by rewrite app_nil_r|].
    exists tmp. unfold try_catch, getValue_try, bind at 1. rewrite Hgen.
    unfold bind, resolve, reduce. by rewrite Htmp.
  - rewrite (resolves_to_falsy _ _ _ _ Hres Hm).
    exists []. rewrite app_nil_r. by destruct st.
Qed.

Lemma C2_getValue_witness :
  generatePathPieces (VStr "user.name.") "." user_model
    = (Ret ["user"; "name"; ""], user_model) ∧
  resolves_to (heap user_model) (VRef 0) ["user"; "name"; ""] (VStr "e") ∧
  ∃ tmp,
    getValue (VStr "user.name.") (VRef 0) "." user_model
      = (Ret (VStr "e"), State (heap user_model ++ tmp) (console user_model)).
Proof.
  assert (resolves_to (heap user_model) (VRef 0) ["user"; "name"; ""] (VStr "e"))
    as Hres.
  { apply (resolves_own _ 0 (Obj {[ "user" := VRef 1 ]}) "user" (VRef 1));
      [reflexivity | discriminate | reflexivity |].
    apply (resolves_own _ 1 (Obj {[ "name" := VStr "John Doe" ]}) "name"
             (VStr "John Doe")); [reflexivity | discriminate | reflexivity |].
    apply (resolves_last_unit _ "John Do" "e"%char). constructor. }
  split; [reflexivity|]. split; [exact Hres|].
  apply (C2_getValue_returns_existing_leaf_or_null "user.name." (VRef 0) "."
           ["user"; "name"; ""] user_model (VStr "e") eq_refl Hres).
Defined.

(** * The service with the prototypes of the host *)

(** ** Computed examples *)

(** An inherited member is found where the data has no own property of
    that name: [getValue('toString', {})] is the function
    [Object.prototype.toString], and on [{ a: 0 }] the path
    [a.constructor.name] reads ['Number']. *)
Example getValue_inherited_members :
  InRealm.getValue (H := es2024_realm) (VStr "toString") (Data (VRef 0)) "."
    (World empty_model pristine)
    = (Ret (Builtin "Object.prototype.toString"), World empty_model pristine) ∧
  InRealm.getValue (H := es2024_realm) (VStr "a.constructor.name") (Data (VRef 0)) "."
    (World (State [Obj {[ "a" := VNum (Int 0) ]}] []) pristine)
    = (Ret (Data (VStr "Number")),
       World (State [Obj {[ "a" := VNum (Int 0) ]}] []) pristine).
Proof. split; vm_compute; reflexivity. Qed.

(** A write through an inherited function lands on that function, in the
    realm: [setValue('toString.b', 'x', 4)] logs nothing and leaves the heap
    alone, and [setValue('toString.0', 'x', {})] creates no array. *)
Example setValue_onto_inherited_function :
  InRealm.setValue (H := es2024_realm) (H0 := digits_host)
    (VStr "toString.b") (VStr "x") (Data (VNum (Int 4))) "." (World empty_model pristine)
    = (Ret (Data VUndef),
       World empty_model
         (RState {[ "Number.prototype.toString" := {[ "b" := VStr "x" ]} ]} ∅)) ∧
  InRealm.setValue (H := es2024_realm) (H0 := digits_host)
    (VStr "toString.0") (VStr "x") (Data (VRef 0)) "." (World empty_model pristine)
    = (Ret (Data VUndef),
       World empty_model
         (RState {[ "Object.prototype.toString" := {[ "0" := VStr "x" ]} ]} ∅)).
Proof. split; vm_compute; reflexivity. Qed.

(** What is written onto an inherited function is read back from it:
    [setValue('toString.b', 'x', {})] then [getValue('toString.b', {})]
    gives ['x'], and the model is still the empty object. *)
Example round_trip_through_an_inherited_function :
  InRealm.getValue (H := es2024_realm) (VStr "toString.b") (Data (VRef 0)) "."
    (World empty_model
       (RState {[ "Object.prototype.toString" := {[ "b" := VStr "x" ]} ]} ∅))
    = (Ret (Data (VStr "x")),
       World empty_model
         (RState {[ "Object.prototype.toString" := {[ "b" := VStr "x" ]} ]} ∅)).
Proof. vm_compute. reflexivity. Qed.

(** Assigning an object to [__proto__] gives the model that prototype:
    after [setValue('__proto__', other, model)] the model has no new own
    property, and [getValue('greet', model)] finds the [greet] of
    [other]. *)
Example setValue_proto_gives_a_prototype :
  let st := State [Obj ∅; Obj {[ "greet" := VStr "hi" ]}] [] in
  InRealm.setValue (H := es2024_realm) (H0 := digits_host)
    (VStr "__proto__") (VRef 1) (Data (VRef 0)) "." (World st pristine)
    = (Ret (Data VUndef), World st (RState ∅ {[ inl 0 := VRef 1 ]})) ∧
  InRealm.getValue (H := es2024_realm) (VStr "greet") (Data (VRef 0)) "."
    (World st (RState ∅ {[ inl 0 := VRef 1 ]}))
    = (Ret (Data (VStr "hi")), World st (RState ∅ {[ inl 0 := VRef 1 ]})).
Proof. split; vm_compute; reflexivity. Qed.

(** The setter refuses a chain that closes and a new prototype for
    [Object.prototype]; [setValue] logs the [TypeError]. And a property put
    on [Object.prototype] is inherited by every object:
    [setValue('constructor.prototype.flag', 'x', model)] makes
    [getValue('flag', other)] return ['x']. *)
Example setValue_proto_refused_and_pollution :
  InRealm.setValue (H := es2024_realm) (H0 := digits_host)
    (VStr "__proto__") (VRef 0) (Data (VRef 0)) "." (World user_model pristine)
    = (Ret (Data VUndef),
       World (State (heap user_model) [TypeError]) pristine) ∧
  InRealm.setValue (H := es2024_realm) (H0 := digits_host)
    (VStr "__proto__.__proto__") (VRef 1) (Data (VRef 0)) "." (World user_model pristine)
    = (Ret (Data VUndef),
       World (State (heap user_model) [TypeError]) pristine) ∧
  InRealm.setValue (H := es2024_realm) (H0 := digits_host)
    (VStr "constructor.prototype.flag") (VStr "x") (Data (VRef 0)) "."
    (World user_model pristine)
    = (Ret (Data VUndef),
       World user_model (RState {[ "Object.prototype" := {[ "flag" := VStr "x" ]} ]} ∅)) ∧
  InRealm.getValue (H := es2024_realm) (VStr "flag") (Data (VRef 1)) "."
    (World user_model (RState {[ "Object.prototype" := {[ "flag" := VStr "x" ]} ]} ∅))
    = (Ret (Data (VStr "x")),
       World user_model (RState {[ "Object.prototype" := {[ "flag" := VStr "x" ]} ]} ∅)).
Proof. repeat split; vm_compute; reflexivity. Qed.

(** ** Steps that name no inherited member *)

Lemma string_prop_own s k : string_prop s k = default VUndef (InRealm.string_own s k).
Proof.
  unfold string_prop, InRealm.string_own. destruct (decide (k = "length")); [done|].
  destruct (canonical_index k) as [i|]; [|done]. by destruct (unit_at (N.to_nat i) s).
Qed.

Lemma obj_prop_own o k : obj_prop o k = default VUndef (own_value o k).
Proof. destruct o as [ps|len ps]; simpl; [done|]. by destruct (decide (k = "length")). Qed.

Lemma up_Ret {A B} (f : A → B) (m : M A) st rs a st' :
  m st = (Ret a, st') → up f m (World st rs) = (Ret (f a), World st' rs).
Proof. intros E. unfold up. simpl. by rewrite E. Qed.

Lemma up_Throw {A B} (f : A → B) (m : M A) st rs e st' :
  m st = (Throw e, st') → up f m (World st rs) = (Throw e, World st' rs).
Proof. intros E. unfold up. simpl. by rewrite E. Qed.

Section Agreement.
Context `{Realm}.

Lemma find_member_chain_avoids n w b k :
  unmoved (realm w) →
  (∀ c, on_parent_chain b c →
     member_of c k = None ∧ added (realm w) !! c ≫= (.!! k) = None) →
  InRealm.find_member n w (Builtin b) k = None.
Proof.
  intros Hmoved. revert b.
  induction n as [|n IH]; intros b Hk;
    cbn [InRealm.find_member InRealm.own_member InRealm.proto_of];
    destruct (Hk b (chain_here b)) as [-> ->]; [done|].
  rewrite Hmoved, lookup_empty. destruct (parent b) as [b'|] eqn:Hb; [|done].
  apply IH. intros c Hc. apply Hk. by eapply chain_up.
Qed.

Lemma find_member_prototype_avoids n w p k :
  unmoved (realm w) → avoids (realm w) k → p ∈ data_prototypes →
  InRealm.find_member n w (Builtin p) k = None.
Proof.
  intros Hmoved Hk Hp. apply find_member_chain_avoids; [done|].
  intros c Hc. by apply (Hk p c).
Qed.

Lemma find_member_data_avoids n w v k :
  unmoved (realm w) → avoids (realm w) k →
  InRealm.find_member n w (Data v) k = InRealm.own_member w (Data v) k.
Proof.
  intros Hmoved Hk. destruct n as [|n]; cbn [InRealm.find_member];
    destruct (InRealm.own_member w (Data v) k) as [m|] eqn:Hown; try done.
  unfold InRealm.proto_of.
  destruct v as [| |b|x|s|l]; try done;
    try (apply find_member_prototype_avoids; [done..|unfold data_prototypes; set_solver]).
  rewrite Hmoved, lookup_empty.
  destruct (heap (plain w) !! l) as [[ps|len ps]|]; try done;
    (apply find_member_prototype_avoids; [done..|unfold data_prototypes; set_solver]).
Qed.

(** On a value of the data and a key that names no inherited member, a read
    is the read of the own property. *)
Lemma get_prop_agrees v k st rs :
  unmoved rs → avoids rs k →
  InRealm.get_prop (Data v) k (World st rs) = up Data (JS.get_prop v k) (World st rs).
Proof.
  intros Hmoved Hk. unfold InRealm.get_prop.
  rewrite find_member_data_avoids by done. unfold up.
  destruct v as [| |b|x|s|l]; try done.
  - cbn. rewrite string_prop_own. by destruct (InRealm.string_own s k).
  - cbn. unfold get_prop, bind, get_heap. simpl.
    destruct (heap st !! l) as [o|] eqn:Hl.
    + rewrite bool_decide_eq_true_2 by done. rewrite obj_prop_own.
      by destruct (own_value o k).
    + rewrite bool_decide_eq_false_2; [done|]. by intros [? ?].
Qed.

Context `{Host}.

(** And an assignment is the assignment of the own property. *)
Lemma set_prop_agrees v k x st rs :
  unmoved rs → avoids rs k →
  InRealm.set_prop (Data v) k x (World st rs) = up id (JS.set_prop v k x) (World st rs).
Proof.
  intros Hmoved Hk. unfold InRealm.set_prop.
  rewrite find_member_data_avoids by done.
  destruct v as [| |b|n|s|l]; try done.
  - cbn. by destruct (InRealm.string_own s k).
  - cbn. destruct (heap st !! l) as [o|] eqn:Hl.
    + rewrite bool_decide_eq_true_2 by done. by destruct (own_value o k).
    + rewrite bool_decide_eq_false_2 by (by intros [? ?]).
      unfold up, set_prop, bind, get_heap. simpl. by rewrite Hl.
Qed.

End Agreement.

Section ServiceAgreement.
Context `{Realm} `{Host}.

Lemma piecesReducer_agrees v k st rs :
  unmoved rs → data_step rs k →
  InRealm.piecesReducer (Data v) k (World st rs)
    = up Data (piecesReducer v k) (World st rs).
Proof.
  intros Hmoved [Hne Hk]. unfold InRealm.piecesReducer, piecesReducer.
  rewrite !decide_False by done. by apply get_prop_agrees.
Qed.

Lemma getTargetPropToSet_agrees pcs v k i st rs :
  unmoved rs → avoids rs k →
  InRealm.getTargetPropToSet pcs (Data v) k i (World st rs)
    = up Data (getTargetPropToSet pcs v k i) (World st rs).
Proof.
  intros Hmoved Hk. unfold InRealm.getTargetPropToSet, getTargetPropToSet.
  unfold wbind at 1, bind at 1. rewrite get_prop_agrees by done.
  unfold up at 1 3. cbn [plain realm].
  destruct (JS.get_prop v k st) as [[prop|e] st1]; [|done].
  cbn [InRealm.truthy]. destruct (JS.truthy prop); [done|].
  unfold wbind at 1, bind at 1, up at 1, alloc. cbn [plain realm id].
  unfold wbind, bind. rewrite set_prop_agrees by done.
  unfold up. cbn [plain realm].
  by destruct (JS.set_prop v k _ _) as [[[]|e] st2].
Qed.

Lemma reduce_from_agrees (F : xval → string → nat → W xval)
    (f : val → string → nat → M val) rs ks :
  (∀ k, k ∈ ks → ∀ v i st,
     F (Data v) k i (World st rs) = up Data (f v k i) (World st rs)) →
  ∀ i v st,
    InRealm.reduce_from F i ks (Data v) (World st rs)
      = up Data (reduce_from f i ks v) (World st rs).
Proof.
  induction ks as [|k ks IH]; intros Hstep i v st; [done|].
  cbn [InRealm.reduce_from reduce_from]. unfold wbind, bind.
  rewrite Hstep by constructor. unfold up. cbn [plain realm].
  destruct (f v k i st) as [[a|e] st1]; [|done].
  rewrite IH; [done|]. intros k' Hk'. apply Hstep. by constructor.
Qed.

(** Reading along steps of plain data. *)
Lemma resolve_agrees ks v st rs :
  unmoved rs → Forall (data_step rs) ks →
  InRealm.resolve ks (Data v) (World st rs) = up Data (resolve ks v) (World st rs).
Proof.
  intros Hmoved Hks. unfold InRealm.resolve, resolve, reduce.
  apply (reduce_from_agrees (λ obj key _, InRealm.piecesReducer obj key)
           (λ obj key _, piecesReducer obj key)).
  intros k Hk v' _ st'. apply piecesReducer_agrees; [done|].
  by apply (proj1 (Forall_forall _ _) Hks).
Qed.

(** [getValue] on a path of such steps is [getValue] on the own
    properties. *)
Lemma getValue_agrees p m separator steps st rs :
  generatePathPieces (VStr p) separator st = (Ret steps, st) →
  unmoved rs → Forall (data_step rs) steps →
  InRealm.getValue (VStr p) (Data m) separator (World st rs)
    = up Data (getValue (VStr p) m separator) (World st rs).
Proof.
  intros Hgen Hmoved Hsteps. unfold InRealm.getValue, getValue.
  cbn [eq_null orb InRealm.truthy]. destruct (JS.truthy m); [|done]. cbn [negb].
  unfold wtry, try_catch, InRealm.getValue_try, getValue_try.
  unfold wbind at 1, bind at 1. rewrite (up_Ret id _ _ _ _ _ Hgen).
  unfold up. cbn [plain realm id]. rewrite Hgen.
  unfold wbind, bind. rewrite resolve_agrees by done. unfold up. cbn [plain realm].
  destruct (resolve steps m st) as [[r|e] st1]; [|done].
  unfold wret, ret, InRealm.or, JS.or. cbn [InRealm.truthy].
  by destruct (JS.truthy r).
Qed.

Lemma final_write_agrees t fk value st rs :
  unmoved rs → data_step rs fk →
  InRealm.final_write (Data t) (Some fk) value (World st rs)
    = up id (final_write t (Some fk) value) (World st rs).
Proof.
  intros Hmoved [Hne Hk]. unfold InRealm.final_write, final_write.
  rewrite !decide_False by done. by apply set_prop_agrees.
Qed.

(** [setValue] on a path of such steps is [setValue] on the own
    properties. *)
Lemma setValue_agrees p value m separator steps st rs :
  generatePathPieces (VStr p) separator st = (Ret steps, st) →
  steps ≠ [] → unmoved rs → Forall (data_step rs) steps →
  InRealm.setValue (VStr p) value (Data m) separator (World st rs)
    = up Data (setValue (VStr p) value m separator) (World st rs).
Proof.
  intros Hgen Hne Hmoved Hsteps.
  destruct (exists_last Hne) as (ks & fk & ->).
  apply Forall_app in Hsteps as [Hks Hfk].
  apply (proj1 (Forall_singleton _ _)) in Hfk.
  unfold InRealm.setValue, setValue. cbn [InRealm.truthy].
  replace (JS.truthy (if JS.truthy (VStr p) then m else VStr p))
    with (JS.truthy (VStr p) && JS.truthy m)
    by (by destruct (JS.truthy (VStr p)) eqn:E; [|rewrite E]).
  destruct (JS.truthy (VStr p) && JS.truthy m); [|done]. cbn [negb].
  unfold wtry, try_catch, InRealm.setValue_try, setValue_try.
  unfold wbind at 1, bind at 1. rewrite (up_Ret id _ _ _ _ _ Hgen).
  unfold up. cbn [plain realm id]. rewrite Hgen, pop_snoc.
  unfold wbind at 1, bind at 1, InRealm.target_of, target_of, reduce.
  unfold wbind at 1, bind at 1. cbn [items].
  rewrite (reduce_from_agrees
             (InRealm.getTargetPropToSet (PathPieces ks (Some fk)))
             (getTargetPropToSet (PathPieces ks (Some fk)))).
  2:{ intros k Hk v i st'. apply getTargetPropToSet_agrees; [done|].
      by apply (proj1 (Forall_forall _ _) Hks). }
  unfold up at 1. cbn [plain realm].
  destruct (reduce_from _ 0 ks m st) as [[t|e] st1].
  - unfold wret at 1, ret at 1.
    assert (InRealm.or (Data t) (Data VNull) = Data (JS.or t VNull)) as ->.
    { unfold InRealm.or, JS.or. cbn [InRealm.truthy]. by destruct (JS.truthy t). }
    unfold wbind at 1, bind at 1. rewrite final_write_agrees by done.
    unfold up at 1. cbn [plain realm].
    destruct (final_write (JS.or t VNull) (Some fk) value st1) as [[[]|e] st2]; [done|].
    unfold up. cbn [plain realm]. unfold wbind, bind, up, console_error. done.
  - unfold up. cbn [plain realm]. unfold wbind, bind, up, console_error. done.
Qed.

End ServiceAgreement.

(** What [setValue] and [getValue] return on own properties, they return in
    a realm, on a path of steps of plain data. *)
Lemma setValue_in_realm `{Realm} `{Host} p value m separator steps st rs r st' :
  generatePathPieces (VStr p) separator st = (Ret steps, st) →
  steps ≠ [] → unmoved rs → Forall (data_step rs) steps →
  setValue (VStr p) value m separator st = (Ret r, st') →
  InRealm.setValue (VStr p) value (Data m) separator (World st rs)
    = (Ret (Data r), World st' rs).
Proof.
  intros Hgen Hne Hmoved Hsteps Hset.
  rewrite (setValue_agrees _ _ _ _ _ _ _ Hgen Hne Hmoved Hsteps).
  by apply up_Ret.
Qed.

Lemma getValue_in_realm `{Realm} p m separator steps st rs r st' :
  generatePathPieces (VStr p) separator st = (Ret steps, st) →
  unmoved rs → Forall (data_step rs) steps →
  getValue (VStr p) m separator st = (Ret r, st') →
  InRealm.getValue (VStr p) (Data m) separator (World st rs)
    = (Ret (Data r), World st' rs).
Proof.
  intros Hgen Hmoved Hsteps Hget.
  rewrite (getValue_agrees _ _ _ _ _ _ Hgen Hmoved Hsteps).
  by apply up_Ret.
Qed.


Lemma resolve_of_realm `{Realm} ks v st rs r w :
  unmoved rs → Forall (data_step rs) ks →
  InRealm.resolve ks (Data v) (World st rs) = (Ret r, w) →
  ∃ r' st', r = Data r' ∧ w = World st' rs ∧ resolve ks v st = (Ret r', st').
Proof.
  intros Hmoved Hks. rewrite resolve_agrees by done. unfold up. cbn [plain realm].
  destruct (resolve ks v st) as [[r'|e] st']; [|done].
  intros [= <- <-]. by exists r', st'.
Qed.

Lemma data_step_nonempty `{Realm} rs ks :
  Forall (data_step rs) ks → Forall (λ k, k ≠ "") ks.
Proof. intros Hks. eapply Forall_impl; [exact Hks|]. by intros k [Hk _]. Qed.

(** ** The realm of the examples *)

Lemma es2024_chain p b :
  p ∈ data_prototypes → on_parent_chain (H := es2024_realm) p b →
  b ∈ data_prototypes.
Proof.
  intros Hp Hchain. destruct Hchain as [b|b b' c Hb Hchain]; [done|].
  assert (b' = ObjectPrototype) as ->.
  { unfold data_prototypes in Hp.
    unfold ObjectPrototype.
    repeat (apply elem_of_cons in Hp as [->|Hp]; [vm_compute in Hb; congruence|]).
    by apply elem_of_nil in Hp. }
  inversion Hchain as [b1|b1 b2 c1 Hb' Hchain']; subst.
  - constructor.
  - by vm_compute in Hb'.
Qed.

(** In the realm of the examples, as the host created it, a step that is
    not empty and that none of the prototypes of the data has as a member
    is a step of plain data. *)
Lemma es2024_data_step k :
  bool_decide (k ≠ "") && es2024_free k = true →
  data_step (H := es2024_realm) pristine k.
Proof.
  intros [Hne%bool_decide_eq_true Hk]%andb_true_iff. split; [done|].
  intros p b Hp Hchain. split; [|done].
  pose proof (es2024_chain p b Hp Hchain) as Hb.
  unfold es2024_free in Hk.
  pose proof (proj1 (forallb_forall _ _) Hk b) as Hfree.
  apply (bool_decide_eq_true_1 (member_among prototype_functions b k = None)).
  apply Hfree. by apply list_elem_of_In.
Qed.

(** There [__proto__], [toString] and [constructor] are no steps of plain
    data: a plain object inherits them. *)
Example es2024_inherited_steps :
  ¬ data_step (H := es2024_realm) pristine "__proto__" ∧
  ¬ data_step (H := es2024_realm) pristine "toString" ∧
  ¬ data_step (H := es2024_realm) pristine "constructor".
Proof.
  assert (ObjectPrototype ∈ data_prototypes) as Hin by constructor.
  repeat split; intros [_ Hk];
    destruct (Hk ObjectPrototype ObjectPrototype Hin (chain_here _)) as [Hm _];
    by vm_compute in Hm.
Qed.

(** The steps of an example are steps of plain data. *)
Ltac es2024_data_steps :=
  cbn [app];
  repeat (apply Forall_cons_2; [apply es2024_data_step; reflexivity|]);
  apply Forall_nil_2.

(** ** Round trip *)




(** ** Falsy values on write *)




(** * Further properties of the service in a realm *)

Lemma generatePathPieces_steps_path p separator st steps :
  generatePathPieces (VStr p) separator st = (Ret steps, st) →
  steps ≠ [] → Forall (λ k, k ≠ "") steps → p ≠ "".
Proof.
  assert (unmoved pristine) as Hmoved by done.
  intros Hgen Hne Hsteps ->.
  apply generatePathPieces_empty_path in Hgen as [->| ->]; [done|].
  by inversion Hsteps.
Qed.

(** ** Reading: missing intermediates *)

(** If the steps of the path, up to some point, resolve to a falsy value
    (a missing property, [null], [0], the empty string), [getValue] returns
    [null] whatever steps follow, as long as the steps are not empty and
    name no inherited member (a number or a string has inherited members
    too). *)
Theorem getValue_null_after_a_falsy_step `{Realm}
    (p separator : string) (pre rest : list string) (m : val)
    (st : state) (v : xval) (w1 : world) :
  generatePathPieces (VStr p) separator st = (Ret (pre ++ rest), st) →
  Forall (data_step pristine) (pre ++ rest) →
  InRealm.resolve pre (Data m) (World st pristine) = (Ret v, w1) →
  InRealm.truthy v = false →
  InRealm.getValue (VStr p) (Data m) separator (World st pristine) = (Ret (Data VNull), w1).
Proof.
  assert (unmoved pristine) as Hmoved by done.
  intros Hgen Hsteps Hpre Hv.
  pose proof Hsteps as [Hsteps_pre _]%Forall_app.
  apply resolve_of_realm in Hpre as (r & st1 & -> & -> & Hpre); [|done..].
  eapply getValue_in_realm; [done..|].
  by apply (own_getValue_null_after_a_falsy_step p separator pre rest m st st1 r).
Qed.

Lemma getValue_null_after_a_falsy_step_witness :
  generatePathPieces (VStr "user.email.domain") "." user_model
    = (Ret (["user"; "email"] ++ ["domain"]), user_model) ∧
  Forall (data_step (H := es2024_realm) pristine) (["user"; "email"] ++ ["domain"]) ∧
  InRealm.resolve (H := es2024_realm) ["user"; "email"] (Data (VRef 0))
    (World user_model pristine) = (Ret (Data VUndef), World user_model pristine) ∧
  InRealm.truthy (Data VUndef) = false ∧
  InRealm.getValue (H := es2024_realm) (VStr "user.email.domain") (Data (VRef 0)) "."
    (World user_model pristine) = (Ret (Data VNull), World user_model pristine).
Proof.
  assert (Forall (data_step (H := es2024_realm) pristine)
            (["user"; "email"] ++ ["domain"])) as Hsteps
    by es2024_data_steps.
  split; [reflexivity|]. split; [exact Hsteps|].
  split; [reflexivity|]. split; [reflexivity|].
  apply (getValue_null_after_a_falsy_step (H := es2024_realm)
           "user.email.domain" "." ["user"; "email"] ["domain"] (VRef 0)
           user_model (Data VUndef) (World user_model pristine));
    [reflexivity | exact Hsteps | reflexivity | reflexivity].
Defined.

(** ** Writing: failures *)

(** A model that is a truthy primitive (a number, a string, [true]) cannot
    be written into along steps that name none of its inherited members:
    [setValue] logs one [TypeError], and every object of the heap is as it
    was (containers that could not be attached may have been allocated
    after them). *)
Theorem setValue_into_a_primitive_model_fails `{Realm} `{Host}
    (p : string) (value model : val) (separator : string) (steps : list string)
    (st : state) :
  generatePathPieces (VStr p) separator st = (Ret steps, st) →
  steps ≠ [] → Forall (data_step pristine) steps →
  primitive model = true → JS.truthy model = true →
  ∃ tmp,
    InRealm.setValue (VStr p) value (Data model) separator (World st pristine)
      = (Ret (Data VUndef),
         World (State (heap st ++ tmp) (console st ++ [TypeError])) pristine).
Proof.
  assert (unmoved pristine) as Hmoved by done.
  intros Hgen Hne Hsteps Hprim Hm.
  pose proof (generatePathPieces_steps_path _ _ _ _ Hgen Hne
                (data_step_nonempty _ _ Hsteps)) as Hp.
  destruct (own_setValue_into_a_primitive_model_fails p value model separator st
              Hp Hprim Hm) as [tmp Hset].
  exists tmp. by eapply setValue_in_realm.
Qed.

Lemma setValue_into_a_primitive_model_witness :
  generatePathPieces (VStr "a.b") "." empty_model = (Ret ["a"; "b"], empty_model) ∧
  ["a"; "b"] ≠ [] ∧
  Forall (data_step (H := es2024_realm) pristine) ["a"; "b"] ∧
  primitive (VNum (Int 4)) = true ∧ JS.truthy (VNum (Int 4)) = true ∧
  ∃ tmp,
    InRealm.setValue (H := es2024_realm) (H0 := digits_host)
      (VStr "a.b") (VStr "x") (Data (VNum (Int 4))) "." (World empty_model pristine)
      = (Ret (Data VUndef),
         World (State (heap empty_model ++ tmp) (console empty_model ++ [TypeError]))
               pristine).
Proof.
  assert (["a"; "b"] ≠ ([] : list string)) as Hne by discriminate.
  assert (Forall (data_step (H := es2024_realm) pristine) ["a"; "b"]) as Hsteps
    by es2024_data_steps.
  split; [reflexivity|]. split; [exact Hne|]. split; [exact Hsteps|].
  split; [reflexivity|]. split; [reflexivity|].
  apply (setValue_into_a_primitive_model_fails (H := es2024_realm) (H0 := digits_host)
           "a.b" (VStr "x") (VNum (Int 4)) "." ["a"; "b"] empty_model
           eq_refl Hne Hsteps eq_refl eq_refl).
Defined.

(** A truthy primitive that stands where the path needs a container is
    never replaced. When the steps lead to an object whose next property is
    a truthy primitive and at least one more step follows, none of the
    steps naming an inherited member, [setValue] logs one [TypeError] and
    every object of the heap is as it was. *)
Theorem setValue_through_a_primitive_fails `{Realm} `{Host}
    (p separator : string) (ks : list string) (k : string) (more : list string)
    (value prim : val) (l t : loc) (c : obj) (st : state) :
  generatePathPieces (VStr p) separator st = (Ret (ks ++ k :: more), st) →
  Forall (data_step pristine) (ks ++ k :: more) →
  more ≠ [] →
  leads (heap st) t l ks →
  heap st !! t = Some c → own_value c k = Some prim →
  primitive prim = true → JS.truthy prim = true →
  ∃ tmp,
    InRealm.setValue (VStr p) value (Data (VRef l)) separator (World st pristine)
      = (Ret (Data VUndef),
         World (State (heap st ++ tmp) (console st ++ [TypeError])) pristine).
Proof.
  assert (unmoved pristine) as Hmoved by done.
  intros Hgen Hsteps Hmore Hleads Ht Hk Hprim Htruthy.
  assert (ks ++ k :: more ≠ []) as Hne by (by destruct ks).
  pose proof (generatePathPieces_steps_path _ _ _ _ Hgen Hne
                (data_step_nonempty _ _ Hsteps)) as Hp.
  destruct (own_setValue_through_a_primitive_fails p separator ks k more value prim
              l t c st Hgen Hp Hmore Hleads Ht (own_value_obj_prop _ _ _ Hk)
              Hprim Htruthy) as [tmp Hset].
  exists tmp. by eapply setValue_in_realm.
Qed.

Lemma setValue_through_a_primitive_witness :
  generatePathPieces (VStr "user.name.first") "." user_model
    = (Ret (["user"] ++ "name" :: ["first"]), user_model) ∧
  Forall (data_step (H := es2024_realm) pristine) (["user"] ++ "name" :: ["first"]) ∧
  ["first"] ≠ [] ∧
  leads (heap user_model) 1 0 ["user"] ∧
  heap user_model !! 1 = Some (Obj {[ "name" := VStr "John Doe" ]}) ∧
  own_value (Obj {[ "name" := VStr "John Doe" ]}) "name" = Some (VStr "John Doe") ∧
  primitive (VStr "John Doe") = true ∧ JS.truthy (VStr "John Doe") = true ∧
  ∃ tmp,
    InRealm.setValue (H := es2024_realm) (H0 := digits_host)
      (VStr "user.name.first") (VStr "x") (Data (VRef 0)) "." (World user_model pristine)
      = (Ret (Data VUndef),
         World (State (heap user_model ++ tmp) (console user_model ++ [TypeError]))
               pristine).
Proof.
  assert (Forall (data_step (H := es2024_realm) pristine)
            (["user"] ++ "name" :: ["first"])) as Hsteps
    by es2024_data_steps.
  assert (["first"] ≠ ([] : list string)) as Hmore by discriminate.
  assert (leads (heap user_model) 1 0 ["user"]) as Hleads.
  { apply (leads_step _ _ 0 "user" [] (Obj {[ "user" := VRef 1 ]}) 1);
      [reflexivity | discriminate | discriminate | reflexivity | constructor]. }
  split; [reflexivity|]. split; [exact Hsteps|].
  split; [exact Hmore|]. split; [exact Hleads|]. split; [reflexivity|].
  split; [reflexivity|]. split; [reflexivity|]. split; [reflexivity|].
  apply (setValue_through_a_primitive_fails (H := es2024_realm) (H0 := digits_host)
           "user.name.first" "." ["user"] "name" ["first"] (VStr "x")
           (VStr "John Doe") 0 1 _ user_model
           eq_refl Hsteps Hmore Hleads eq_refl eq_refl eq_refl eq_refl).
Defined.

(** ** Writing along a path that exists *)

(** Writing where the path already exists. When the non-final steps lead,
    through properties holding references, to a container other than the
    objects on the way, no step is empty or names an inherited member, and
    the final key is not the [length] of an array, [setValue] changes that
    container and nothing else: the final key is now an own property
    holding the value, the other own properties are as they were, nothing is
    logged; and [getValue] with the same path then returns the value
    ([null] when it is falsy). *)
Theorem setValue_on_existing_path_overwrites_and_reads_back `{Realm} `{Host}
    (p separator : string) (ks : list string) (fk : string) (v : val)
    (l t : loc) (c : obj) (st : state) :
  generatePathPieces (VStr p) separator st = (Ret (ks ++ [fk]), st) →
  Forall (data_step pristine) (ks ++ [fk]) →
  leads (heap st) t l ks →
  heap st !! t = Some c → assignable c fk →
  ∃ c',
    InRealm.setValue (VStr p) v (Data (VRef l)) separator (World st pristine)
      = (Ret (Data VUndef), World (State (<[t := c']> (heap st)) (console st)) pristine) ∧
    own_value c' fk = Some v ∧
    (∀ k, k ≠ fk → own_props c' !! k = own_props c !! k) ∧
    InRealm.getValue (VStr p) (Data (VRef l)) separator
      (World (State (<[t := c']> (heap st)) (console st)) pristine)
      = (Ret (Data (JS.or v VNull)),
         World (State (<[t := c']> (heap st)) (console st)) pristine).
Proof.
  assert (unmoved pristine) as Hmoved by done.
  intros Hgen Hsteps Hleads Ht Hc.
  assert (ks ++ [fk] ≠ []) as Hne by (by destruct ks).
  assert (fk ≠ "") as Hfk.
  { apply Forall_app in Hsteps as [_ Hfk].
    by apply (proj1 (Forall_singleton _ _)) in Hfk as [Hfk _]. }
  destruct (own_setValue_on_existing_path_overwrites_and_reads_back
              p separator ks fk v l t c st Hgen Hfk Hleads Ht Hc)
    as (c' & Hset & Hread & Hother & Hget).
  exists c'. split; [by eapply setValue_in_realm|].
  split; [done|]. split; [done|].
  eapply getValue_in_realm; [|done..]. by eapply generatePathPieces_pure.
Qed.

Lemma setValue_on_existing_path_witness :
  generatePathPieces (VStr "user.age") "." user_model
    = (Ret (["user"] ++ ["age"]), user_model) ∧
  Forall (data_step (H := es2024_realm) pristine) (["user"] ++ ["age"]) ∧
  leads (heap user_model) 1 0 ["user"] ∧
  heap user_model !! 1 = Some (Obj {[ "name" := VStr "John Doe" ]}) ∧
  assignable (Obj {[ "name" := VStr "John Doe" ]}) "age" ∧
  ∃ c',
    InRealm.setValue (H := es2024_realm) (H0 := digits_host)
      (VStr "user.age") (VNum (Int 35)) (Data (VRef 0)) "." (World user_model pristine)
      = (Ret (Data VUndef),
         World (State (<[1 := c']> (heap user_model)) (console user_model)) pristine) ∧
    own_value c' "age" = Some (VNum (Int 35)) ∧
    (∀ k, k ≠ "age" →
       own_props c' !! k = own_props (Obj {[ "name" := VStr "John Doe" ]}) !! k) ∧
    InRealm.getValue (H := es2024_realm) (VStr "user.age") (Data (VRef 0)) "."
      (World (State (<[1 := c']> (heap user_model)) (console user_model)) pristine)
      = (Ret (Data (JS.or (VNum (Int 35)) VNull)),
         World (State (<[1 := c']> (heap user_model)) (console user_model)) pristine).
Proof.
  assert (Forall (data_step (H := es2024_realm) pristine) (["user"] ++ ["age"]))
    as Hsteps by es2024_data_steps.
  assert (leads (heap user_model) 1 0 ["user"]) as Hleads.
  { apply (leads_step _ _ 0 "user" [] (Obj {[ "user" := VRef 1 ]}) 1);
      [reflexivity | discriminate | discriminate | reflexivity | constructor]. }
  assert (assignable (Obj {[ "name" := VStr "John Doe" ]}) "age") as Hc
    by (left; eexists; reflexivity).
  split; [reflexivity|]. split; [exact Hsteps|].
  split; [exact Hleads|]. split; [reflexivity|]. split; [exact Hc|].
  apply (setValue_on_existing_path_overwrites_and_reads_back
           (H := es2024_realm) (H0 := digits_host)
           "user.age" "." ["user"] "age" (VNum (Int 35)) 0 1 _ user_model
           eq_refl Hsteps Hleads eq_refl Hc).
Defined.

(** ** Writing below an object that exists *)

(** Creating the rest of a path. When the first steps lead to an existing
    container in which the next step reads falsy, and no step is empty or
    names an inherited member, [setValue] creates the missing containers
    below it and stores the value: [getValue] with the same path then
    returns it ([null] when it is falsy), nothing is logged, every other
    object that existed is unchanged, and the container keeps its other own
    properties. *)
Theorem setValue_creates_the_rest_below_an_existing_object `{Realm} `{Host}
    (p separator : string) (ks : list string) (k : string) (rest : list string)
    (fk : string) (v : val) (l t : loc) (c : obj) (st : state) :
  generatePathPieces (VStr p) separator st = (Ret (ks ++ k :: rest ++ [fk]), st) →
  Forall (data_step pristine) (ks ++ k :: rest ++ [fk]) →
  leads (heap st) t l ks →
  heap st !! t = Some c → assignable c k →
  (∀ w, own_value c k = Some w → JS.truthy w = false) →
  ∃ st' c',
    InRealm.setValue (VStr p) v (Data (VRef l)) separator (World st pristine)
      = (Ret (Data VUndef), World st' pristine) ∧
    console st' = console st ∧
    InRealm.getValue (VStr p) (Data (VRef l)) separator (World st' pristine)
      = (Ret (Data (JS.or v VNull)), World st' pristine) ∧
    (∀ l', l' < length (heap st) → l' ≠ t → heap st' !! l' = heap st !! l') ∧
    heap st' !! t = Some c' ∧
    (∀ k', k' ≠ k → own_props c' !! k' = own_props c !! k').
Proof.
  assert (unmoved pristine) as Hmoved by done.
  intros Hgen Hsteps Hleads Ht Hc Hfalsy.
  assert (ks ++ k :: rest ++ [fk] ≠ []) as Hne by (by destruct ks).
  pose proof (data_step_nonempty _ _ Hsteps) as Hnonempty.
  apply Forall_app in Hnonempty as [_ Hnonempty].
  apply Forall_cons in Hnonempty as [Hk Hnonempty].
  apply Forall_app in Hnonempty as [Hrest Hfk].
  apply (proj1 (Forall_singleton _ _)) in Hfk.
  assert (JS.truthy (obj_prop c k) = false) as Hfalsy'.
  { rewrite obj_prop_own. destruct (own_value c k) as [w|]; [by apply Hfalsy|done]. }
  destruct (own_setValue_creates_the_rest_below_an_existing_object
              p separator ks k rest fk v l t c st Hgen Hk Hrest Hfk Hleads Ht Hc Hfalsy')
    as (st' & c' & Hset & Hconsole & Hget & Hframe & Ht' & Hother).
  exists st', c'. split; [by eapply setValue_in_realm|]. split; [done|].
  split; [|done].
  eapply getValue_in_realm; [|done..]. by eapply generatePathPieces_pure.
Qed.

Lemma setValue_creates_the_rest_witness :
  generatePathPieces (VStr "user.address.street") "." user_model
    = (Ret (["user"] ++ "address" :: [] ++ ["street"]), user_model) ∧
  Forall (data_step (H := es2024_realm) pristine)
    (["user"] ++ "address" :: [] ++ ["street"]) ∧
  leads (heap user_model) 1 0 ["user"] ∧
  heap user_model !! 1 = Some (Obj {[ "name" := VStr "John Doe" ]}) ∧
  assignable (Obj {[ "name" := VStr "John Doe" ]}) "address" ∧
  (∀ w, own_value (Obj {[ "name" := VStr "John Doe" ]}) "address" = Some w →
        JS.truthy w = false) ∧
  ∃ st' c',
    InRealm.setValue (H := es2024_realm) (H0 := digits_host)
      (VStr "user.address.street") (VStr "Carnaby Street") (Data (VRef 0)) "."
      (World user_model pristine) = (Ret (Data VUndef), World st' pristine) ∧
    console st' = console user_model ∧
    InRealm.getValue (H := es2024_realm) (VStr "user.address.street") (Data (VRef 0)) "."
      (World st' pristine)
      = (Ret (Data (JS.or (VStr "Carnaby Street") VNull)), World st' pristine) ∧
    (∀ l', l' < length (heap user_model) → l' ≠ 1 →
           heap st' !! l' = heap user_model !! l') ∧
    heap st' !! 1 = Some c' ∧
    (∀ k', k' ≠ "address" →
           own_props c' !! k' = own_props (Obj {[ "name" := VStr "John Doe" ]}) !! k').
Proof.
  assert (Forall (data_step (H := es2024_realm) pristine)
            (["user"] ++ "address" :: [] ++ ["street"])) as Hsteps
    by es2024_data_steps.
  assert (leads (heap user_model) 1 0 ["user"]) as Hleads.
  { apply (leads_step _ _ 0 "user" [] (Obj {[ "user" := VRef 1 ]}) 1);
      [reflexivity | discriminate | discriminate | reflexivity | constructor]. }
  assert (assignable (Obj {[ "name" := VStr "John Doe" ]}) "address") as Hc
    by (left; eexists; reflexivity).
  assert (∀ w, own_value (Obj {[ "name" := VStr "John Doe" ]}) "address" = Some w →
               JS.truthy w = false) as Hfalsy by (intros w; vm_compute; discriminate).
  split; [reflexivity|]. split; [exact Hsteps|].
  split; [exact Hleads|]. split; [reflexivity|]. split; [exact Hc|].
  split; [exact Hfalsy|].
  apply (setValue_creates_the_rest_below_an_existing_object
           (H := es2024_realm) (H0 := digits_host)
           "user.address.street" "." ["user"] "address" [] "street"
           (VStr "Carnaby Street") 0 1 _ user_model
           eq_refl Hsteps Hleads eq_refl Hc Hfalsy).
Defined.

(** ** Array keys and array indices *)

(** The array that a write creates for a missing key. Written at a path of
    two steps [a] and [k] into the empty object, both non-empty and naming
    no inherited member, with [k] an array key, the value lands in a new
    array under [a]: when [k] is an array index [i] the array has length
    [i + 1] and the value is its only element; when [k] is an array key
    without being an index (such as [-1] or [3foo]) the array stays of
    length [0] and the value is a property of it, not an element. Every
    array index is an array key. *)
Theorem setValue_new_array_length_follows_the_index `{Realm} `{Host}
    (p separator a k : string) (v : val) (l : loc) (st : state) :
  generatePathPieces (VStr p) separator st = (Ret [a; k], st) →
  Forall (data_step pristine) [a; k] →
  isArrayKey k = true →
  heap st !! l = Some (Obj ∅) →
  InRealm.setValue (VStr p) v (Data (VRef l)) separator (World st pristine)
    = (Ret (Data VUndef),
       World (State (<[l := Obj {[ a := VRef (length (heap st)) ]}]>
                       (heap st ++
                          [Arr (match array_index k with
                                | Some i => i + 1
                                | None => 0
                                end)%N {[ k := v ]}]))
                    (console st)) pristine) ∧
  (∀ k' i, array_index k' = Some i → isArrayKey k' = true).
Proof.
  assert (unmoved pristine) as Hmoved by done.
  intros Hgen Hsteps Harr Hl.
  pose proof (data_step_nonempty _ _ Hsteps) as Hnonempty.
  apply Forall_cons in Hnonempty as [Ha Hnonempty].
  apply Forall_cons in Hnonempty as [Hk _].
  destruct (own_setValue_new_array_length_follows_the_index
              p separator a k v l st Hgen Ha Hk Harr Hl) as [Hset Hindex].
  split; [|done]. by eapply setValue_in_realm.
Qed.

Lemma setValue_new_array_length_witness :
  generatePathPieces (VStr "a.5") "." empty_model = (Ret ["a"; "5"], empty_model) ∧
  Forall (data_step (H := es2024_realm) pristine) ["a"; "5"] ∧
  isArrayKey "5" = true ∧
  heap empty_model !! 0 = Some (Obj ∅) ∧
  InRealm.setValue (H := es2024_realm) (H0 := digits_host)
    (VStr "a.5") (VStr "x") (Data (VRef 0)) "." (World empty_model pristine)
    = (Ret (Data VUndef),
       World (State (<[0 := Obj {[ "a" := VRef (length (heap empty_model)) ]}]>
                       (heap empty_model ++
                          [Arr (match array_index "5" with
                                | Some i => i + 1
                                | None => 0
                                end)%N {[ "5" := VStr "x" ]}]))
                    (console empty_model)) pristine).
Proof.
  assert (Forall (data_step (H := es2024_realm) pristine) ["a"; "5"]) as Hsteps
    by es2024_data_steps.
  split; [reflexivity|]. split; [exact Hsteps|].
  split; [reflexivity|]. split; [reflexivity|].
  apply (proj1 (setValue_new_array_length_follows_the_index
                  (H := es2024_realm) (H0 := digits_host)
                  "a.5" "." "a" "5" (VStr "x") 0 empty_model
                  eq_refl Hsteps eq_refl eq_refl)).
Defined.

(** ** The directive: writing and reading *)

(** What the directive writes it reads back. With the path that
    [getModelPathWithoutFirstPart] takes from the name of the binding, all
    of whose steps are non-empty and name no inherited member, and the
    empty object as the model: [setModelValue] followed by [getModelValue]
    returns the new value, or [null] when the new value is falsy. *)
Theorem setModelValue_then_getModelValue `{Realm} `{Host}
    (rfModelName : string) (steps : list string) (newValue : val)
    (l : loc) (st : state) :
  let modelPath := VStr (getModelPathWithoutFirstPart rfModelName) in
  generatePathPieces modelPath default_separator st = (Ret steps, st) →
  Forall (data_step pristine) steps →
  heap st !! l = Some (Obj ∅) →
  ∃ st',
    InRealm.setModelValue modelPath (Data (VRef l)) newValue (World st pristine)
      = (Ret (Data VUndef), World st' pristine) ∧
    console st' = console st ∧
    InRealm.getModelValue modelPath (Data (VRef l)) (World st' pristine)
      = (Ret (Data (JS.or newValue VNull)), World st' pristine).
Proof.
  assert (unmoved pristine) as Hmoved by done.
  intros modelPath Hgen Hsteps Hl.
  assert (steps ≠ []) as Hne.
  { injection Hgen as <-. apply split_go_nonempty. }
  destruct (own_setModelValue_then_getModelValue rfModelName steps newValue l st
              Hgen (data_step_nonempty _ _ Hsteps) Hl)
    as (st' & Hset & Hconsole & Hget).
  exists st'. split; [|split; [done|]].
  - unfold InRealm.setModelValue. by eapply setValue_in_realm.
  - unfold InRealm.getModelValue. eapply getValue_in_realm; [|done..].
    by eapply generatePathPieces_pure.
Qed.

Lemma setModelValue_then_getModelValue_witness :
  generatePathPieces (VStr (getModelPathWithoutFirstPart "userModel.address.street"))
    default_separator empty_model = (Ret ["address"; "street"], empty_model) ∧
  Forall (data_step (H := es2024_realm) pristine) ["address"; "street"] ∧
  heap empty_model !! 0 = Some (Obj ∅) ∧
  ∃ st',
    InRealm.setModelValue (H := es2024_realm) (H0 := digits_host)
      (VStr (getModelPathWithoutFirstPart "userModel.address.street"))
      (Data (VRef 0)) (VStr "") (World empty_model pristine)
      = (Ret (Data VUndef), World st' pristine) ∧
    console st' = console empty_model ∧
    InRealm.getModelValue (H := es2024_realm)
      (VStr (getModelPathWithoutFirstPart "userModel.address.street"))
      (Data (VRef 0)) (World st' pristine)
      = (Ret (Data (JS.or (VStr "") VNull)), World st' pristine).
Proof.
  assert (Forall (data_step (H := es2024_realm) pristine) ["address"; "street"])
    as Hsteps by es2024_data_steps.
  split; [reflexivity|]. split; [exact Hsteps|]. split; [reflexivity|].
  apply (setModelValue_then_getModelValue (H := es2024_realm) (H0 := digits_host)
           "userModel.address.street" ["address"; "street"] (VStr "") 0
           empty_model eq_refl Hsteps eq_refl).
Defined.
